(** * Streaming voice-activity detector: framing, hysteresis, segment capture

    A shallow embedding of the VAD controller ([createVADController]) and of
    its helpers [bytesToInt16Array] and [writeWav], followed by the
    properties proved of them.

    Conventions of the embedding.
    - A [Uint8Array] is a [list byte]; an [Int16Array] is a [list Z] whose
      elements are signed 16-bit values, and its underlying bytes are the
      little-endian two's-complement encoding of each element (the byte order
      of the platforms the recorder runs on, and the one the microphone
      format declares).  Views ([subarray]) share no storage that is written
      after their creation, so lists stand for them.
    - Probabilities and thresholds are JavaScript numbers, i.e. binary64
      floats: they are Rocq's primitive [float]s, and the comparisons are the
      IEEE ones ([PrimFloat.ltb]).  Numbers that count frames, segments or
      samples per second are integers ([Z]).
    - Code that can throw returns an [outcome]: the state reached, and the
      error when there is one (assignments made before a throw persist).
    - The asynchronous loop is cut at its [await]s.  What the environment
      answers there (model inference, wall clock, file system, process
      spawning) is given by the oracles of an [Env]; the calls of
      [Bun.write] are logged in the state, with their results. *)

From Stdlib Require Import String Ascii DecimalString.
From Stdlib Require Import ZArith Bool Lia Floats Uint63.
From Stdlib Require DecimalZ DecimalPos.
From coqutil Require Import Byte Word.LittleEndianList.
From Stdlib Require Import List.
Import ListNotations.

Set Warnings "-inexact-float".

Local Open Scope Z_scope.
Local Open Scope list_scope.

Set Implicit Arguments.

(** ** Typed-array helpers *)

Module TypedArray.

(** [dst.set(src, off)]: overwrite [dst] from index [off] with [src].
    The source only ever calls it with [off + length src <= length dst]
    (otherwise JavaScript raises a RangeError). *)
Definition set_at {A} (dst : list A) (src : list A) (off : nat) : list A :=
  firstn off dst ++ src ++ skipn (off + length src) dst.

(** [t = new T(a.length + b.length); t.set(a, 0); t.set(b, a.length)]. *)
Definition joined {A} (zero : A) (a b : list A) : list A :=
  let t := repeat zero (length a + length b) in
  let t := set_at t a 0 in
  set_at t b (length a).

(** [a.subarray(b, e)] and [a.subarray(b)] for [0 <= b <= e]. *)
Definition subarray {A} (a : list A) (b e : Z) : list A :=
  firstn (Z.to_nat e - Z.to_nat b) (skipn (Z.to_nat b) a).

Definition subarray_from {A} (a : list A) (b : Z) : list A :=
  skipn (Z.to_nat b) a.

(** [n & ~1] on a length [n].  JavaScript coerces the operands of [&] to
    32-bit integers; a chunk read from a pipe, with at most one byte left
    over, is far shorter than 2^31 bytes, where the coercion changes nothing
    (see [clear_low_bit_int32_agree]). *)
Definition clear_low_bit (n : Z) : Z := Z.land n (Z.lnot 1).

(** The same with the coercion to 32-bit integers written out. *)
Definition to_int32 (n : Z) : Z := (n + 2 ^ 31) mod 2 ^ 32 - 2 ^ 31.

Definition clear_low_bit_int32 (n : Z) : Z :=
  to_int32 (Z.land (to_int32 n) (to_int32 (Z.lnot 1))).

(** Value of an [Int16Array] element stored from the integer [z]. *)
Definition to_int16 (z : Z) : Z := (z + 2 ^ 15) mod 2 ^ 16 - 2 ^ 15.

Definition is_int16 (z : Z) : Prop := - 2 ^ 15 <= z < 2 ^ 15.

(** [new Int16Array(buffer, 0, n)]: the first [n] elements read from the
    bytes of [buffer]. *)
Fixpoint int16_view (buf : list byte) (n : nat) {struct n} : list Z :=
  match n, buf with
  | S n', lo :: hi :: rest => to_int16 (le_combine [lo; hi]) :: int16_view rest n'
  | _, _ => []
  end.

(** [new Uint8Array(a.buffer, a.byteOffset, a.byteLength)] for an
    [Int16Array] [a]: its bytes. *)
Definition int16_bytes (a : list Z) : list byte := flat_map (le_split 2) a.

End TypedArray.
Import TypedArray.

(** [bytesToInt16Array] *)
Definition bytesToInt16Array (bytes : list byte) : list Z :=
  let evenLen := clear_low_bit (Z.of_nat (length bytes)) in
  int16_view bytes (Z.to_nat (evenLen / 2)).

(** ** WAV encoder *)

Module Wav.

(** [view.setUint8(offset + i, str.charCodeAt(i))] for each [i]. *)
Definition writeString (buf : list byte) (offset : nat) (str : string) : list byte :=
  set_at buf (list_byte_of_string str) offset.

Definition setUint32 (buf : list byte) (offset : nat) (v : Z) : list byte :=
  set_at buf (le_split 4 v) offset.

Definition setUint16 (buf : list byte) (offset : nat) (v : Z) : list byte :=
  set_at buf (le_split 2 v) offset.

Definition writeWav (int16 : list Z) (sampleRate : Z) : list byte :=
  let numChannels := 1 in
  let bytesPerSample := 2 in
  let dataSize := Z.of_nat (length int16) * bytesPerSample in
  let view := repeat Byte.x00 (44 + Z.to_nat dataSize) in
  let view := writeString view 0 "RIFF" in
  let view := setUint32 view 4 (36 + dataSize) in
  let view := writeString view 8 "WAVE" in
  let view := writeString view 12 "fmt " in
  let view := setUint32 view 16 16 in
  let view := setUint16 view 20 1 in
  let view := setUint16 view 22 numChannels in
  let view := setUint32 view 24 sampleRate in
  let view := setUint32 view 28 (sampleRate * numChannels * bytesPerSample) in
  let view := setUint16 view 32 (numChannels * bytesPerSample) in
  let view := setUint16 view 34 (8 * bytesPerSample) in
  let view := writeString view 36 "data" in
  let view := setUint32 view 40 dataSize in
  set_at view (int16_bytes int16) 44.

(** Reading the file back. *)
Definition bytes_at (out : list byte) (a b : nat) : list byte :=
  firstn (b + 1 - a) (skipn a out).

Definition read_uint (out : list byte) (a b : nat) : Z :=
  le_combine (bytes_at out a b).

Definition parse_payload (out : list byte) : list Z :=
  bytesToInt16Array (skipn 44 out).

(** The 44 header bytes, in the order of the file. *)
Definition header (n : Z) (sampleRate : Z) : list byte :=
  list_byte_of_string "RIFF" ++ le_split 4 (36 + n)
  ++ list_byte_of_string "WAVE" ++ list_byte_of_string "fmt "
  ++ le_split 4 16 ++ le_split 2 1 ++ le_split 2 1
  ++ le_split 4 sampleRate ++ le_split 4 (sampleRate * 1 * 2)
  ++ le_split 2 2 ++ le_split 2 16
  ++ list_byte_of_string "data" ++ le_split 4 n.

End Wav.

(** ** The read loop: framing of the byte stream

    The loop of [start] reads chunks, pairs bytes into samples and hands
    every block of 512 samples to [processFrame].  [leftover] and
    [sampleQueue] are touched by the loop only, so the loop is written once,
    over any per-frame action, and used twice: with the controller's
    [processFrame], and with an action that merely records the frame. *)

Inductive outcome (S : Type) : Type :=
| Ok (s : S)
| Throw (e : string) (s : S).
Arguments Ok {S} s.
Arguments Throw {S} e s.

Record Framing : Type := mkFraming {
  leftover : list byte;
  sampleQueue : list Z
}.

Definition chunkSize : nat := 512.

(** Where the loop stands after the chunks it was given. *)
Inductive loop_state (S : Type) : Type :=
| Waiting (fr : Framing) (s : S)            (* suspended on the next chunk *)
| Broke (fr : Framing) (s : S)              (* [if (abort) break] *)
| Raised (e : string) (fr : Framing) (s : S). (* an exception left the [try] *)
Arguments Waiting {S} fr s.
Arguments Broke {S} fr s.
Arguments Raised {S} e fr s.

Section Loop.
Context {S : Type}.
Variable processFrame : list Z -> S -> outcome S.
Variable abort_requested : S -> bool.

(** From the arrival of a chunk to the [while]. *)
Definition enqueue (u8 : list byte) (fr : Framing) : Framing :=
  let combined := joined Byte.x00 (leftover fr) u8 in
  let evenLen := clear_low_bit (Z.of_nat (length combined)) in
  let usable := subarray combined 0 evenLen in
  let leftover' := subarray_from combined evenLen in
  let samples := bytesToInt16Array usable in
  let queue :=
    if (length (sampleQueue fr) =? 0)%nat then samples
    else joined 0 (sampleQueue fr) samples in
  {| leftover := leftover'; sampleQueue := queue |}.

(** [while (sampleQueue.length >= 512) { ... }]; every turn removes 512
    samples, so [length sampleQueue] turns are always enough. *)
Fixpoint while_frames (fuel : nat) (fr : Framing) (s : S) : Framing * outcome S :=
  match fuel with
  | O => (fr, Ok s)
  | Datatypes.S fuel' =>
      if (chunkSize <=? length (sampleQueue fr))%nat then
        let frame := subarray (sampleQueue fr) 0 512 in
        match processFrame frame s with
        | Ok s' =>
            while_frames fuel'
              {| leftover := leftover fr;
                 sampleQueue := subarray_from (sampleQueue fr) 512 |} s'
        | Throw e s' => (fr, Throw e s')
        end
      else (fr, Ok s)
  end.

Definition drain (fr : Framing) (s : S) : Framing * outcome S :=
  while_frames (length (sampleQueue fr)) fr s.

(** The body of [for await (const chunk of proc.stdout)], chunk by chunk. *)
Fixpoint for_await (chunks : list (list byte)) (fr : Framing) (s : S)
  : loop_state S :=
  match chunks with
  | [] => Waiting fr s
  | chunk :: rest =>
      if abort_requested s then Broke fr s
      else
        match drain (enqueue chunk fr) s with
        | (fr', Ok s') => for_await rest fr' s'
        | (fr', Throw e s') => Raised e fr' s'
        end
  end.

End Loop.

(** ** The framer alone *)

Module Framer.

Definition initial : Framing := {| leftover := []; sampleQueue := [] |}.

(** The per-frame action that only records the frame it is given. *)
Definition emit (frame : list Z) (seen : list (list Z)) : outcome (list (list Z)) :=
  Ok (seen ++ [frame]).

(** The frames handed out for a stream delivered as [chunks]. *)
Definition frames (chunks : list (list byte)) : list (list Z) :=
  match for_await emit (fun _ => false) chunks initial [] with
  | Waiting _ seen => seen
  | Broke _ seen => seen
  | Raised _ _ seen => seen
  end.

(** The samples of a byte stream: consecutive pairs, low byte first. *)
Fixpoint samples_le (bs : list byte) : list Z :=
  match bs with
  | lo :: hi :: rest => to_int16 (le_combine [lo; hi]) :: samples_le rest
  | _ => []
  end.

End Framer.

(** ** Options, status and the inference interface *)

Record VADOptions : Type := mkOptions {
  rate : Z;
  outDir : string;
  modelPath : string;
  speechThreshold : float;
  silenceThreshold : float;
  requiredSpeechFrames : Z;
  requiredSilenceFrames : Z
}.

Record VADStatus : Type := mkStatus {
  status_running : bool;
  status_segmentsSaved : Z;
  status_lastSegmentPath : option string
}.

Definition defaultVADOptions : VADOptions :=
  {| rate := 16000;
     outDir := "segments";
     modelPath := "rec/public/silero_vad_v6.onnx";
     speechThreshold := 0.35;
     silenceThreshold := 0.05;
     requiredSpeechFrames := 2;
     requiredSilenceFrames := 20 |}.

(** [Partial<VADOptions>]: every key may be absent. *)
Record PartialVADOptions : Type := mkPartial {
  p_rate : option Z;
  p_outDir : option string;
  p_modelPath : option string;
  p_speechThreshold : option float;
  p_silenceThreshold : option float;
  p_requiredSpeechFrames : option Z;
  p_requiredSilenceFrames : option Z
}.

Definition no_change : PartialVADOptions :=
  mkPartial None None None None None None None.

Definition or_keep {A} (new : option A) (old : A) : A :=
  match new with Some v => v | None => old end.

(** [Object.assign(opts, partial)] and [{ ...defaults, ...initial }]: the
    keys present in [partial] overwrite, the others stay. *)
Definition assign (o : VADOptions) (partial : PartialVADOptions) : VADOptions :=
  {| rate := or_keep (p_rate partial) (rate o);
     outDir := or_keep (p_outDir partial) (outDir o);
     modelPath := or_keep (p_modelPath partial) (modelPath o);
     speechThreshold := or_keep (p_speechThreshold partial) (speechThreshold o);
     silenceThreshold := or_keep (p_silenceThreshold partial) (silenceThreshold o);
     requiredSpeechFrames :=
       or_keep (p_requiredSpeechFrames partial) (requiredSpeechFrames o);
     requiredSilenceFrames :=
       or_keep (p_requiredSilenceFrames partial) (requiredSilenceFrames o) |}.

(** An [ort.Tensor] of type float32. *)
Record Tensor : Type := mkTensor {
  dims : list Z;
  data : list float
}.

(** [new ort.Tensor('float32', new Float32Array(2 * 128), [1, 2, 128])] *)
Definition zero_state : Tensor :=
  {| dims := [1; 2; 128]; data := repeat 0%float (2 * 128) |}.

(** What [session.run] returns.  [r_state] is [results.state], [None] when
    it is missing; [r_output] is [None] when [results.output] is missing
    and otherwise the number pushed on the window, [Number] of the first
    element of [results.output.data] (NaN when [data] is empty). *)
Record RunResult : Type := mkRunResult {
  r_state : option Tensor;
  r_output : option float
}.

(** One call of [Bun.write], and whether it succeeded. *)
Record WriteEvent : Type := mkWrite {
  w_path : string;
  w_data : list byte;
  w_ok : bool
}.

(** The environment of the controller: whether a directory can be
    created, whether the model loads, whether the recorder spawns, what
    inference returns.  The clock and the file system are consulted once
    per flush; [n] is the number of flushes made before. *)
Record Env : Type := mkEnv {
  mkdir_ok : string -> bool;
  model_loads : string -> bool;
  mic_spawns : bool;
  session_run : Tensor -> list float -> option RunResult;
  nowTag : nat -> string;
  write_ok : nat -> bool
}.

(** ** The controller

    One record holds the variables of [createVADController] and those that
    [start] declares for the pipeline it launches ([start] gives the latter
    fresh values), followed by the trace of the file system. *)

Record Controller : Type := mkController {
  opts : VADOptions;
  running : bool;
  abort : bool;
  segmentsSaved : Z;
  lastSegmentPath : option string;
  session : bool;
  stateTensor : option Tensor;
  probBuffer : list float;
  framing : Framing;
  isRecording : bool;
  segmentBuffers : list (list Z);
  speechFrames : Z;
  silenceFrames : Z;
  segmentIndex : Z;
  lastErr : option string;
  flushes : nat;
  disk : list WriteEvent
}.

(** Assignment to one variable. *)
Definition set_opts (v : VADOptions) (c : Controller) : Controller :=
  mkController v (running c) (abort c) (segmentsSaved c) (lastSegmentPath c)
    (session c) (stateTensor c) (probBuffer c) (framing c) (isRecording c)
    (segmentBuffers c) (speechFrames c) (silenceFrames c) (segmentIndex c)
    (lastErr c) (flushes c) (disk c).

Definition set_running (v : bool) (c : Controller) : Controller :=
  mkController (opts c) v (abort c) (segmentsSaved c) (lastSegmentPath c)
    (session c) (stateTensor c) (probBuffer c) (framing c) (isRecording c)
    (segmentBuffers c) (speechFrames c) (silenceFrames c) (segmentIndex c)
    (lastErr c) (flushes c) (disk c).

Definition set_abort (v : bool) (c : Controller) : Controller :=
  mkController (opts c) (running c) v (segmentsSaved c) (lastSegmentPath c)
    (session c) (stateTensor c) (probBuffer c) (framing c) (isRecording c)
    (segmentBuffers c) (speechFrames c) (silenceFrames c) (segmentIndex c)
    (lastErr c) (flushes c) (disk c).

Definition set_segmentsSaved (v : Z) (c : Controller) : Controller :=
  mkController (opts c) (running c) (abort c) v (lastSegmentPath c)
    (session c) (stateTensor c) (probBuffer c) (framing c) (isRecording c)
    (segmentBuffers c) (speechFrames c) (silenceFrames c) (segmentIndex c)
    (lastErr c) (flushes c) (disk c).

Definition set_lastSegmentPath (v : option string) (c : Controller) : Controller :=
  mkController (opts c) (running c) (abort c) (segmentsSaved c) v (session c)
    (stateTensor c) (probBuffer c) (framing c) (isRecording c)
    (segmentBuffers c) (speechFrames c) (silenceFrames c) (segmentIndex c)
    (lastErr c) (flushes c) (disk c).

Definition set_session (v : bool) (c : Controller) : Controller :=
  mkController (opts c) (running c) (abort c) (segmentsSaved c)
    (lastSegmentPath c) v (stateTensor c) (probBuffer c) (framing c)
    (isRecording c) (segmentBuffers c) (speechFrames c) (silenceFrames c)
    (segmentIndex c) (lastErr c) (flushes c) (disk c).

Definition set_stateTensor (v : option Tensor) (c : Controller) : Controller :=
  mkController (opts c) (running c) (abort c) (segmentsSaved c)
    (lastSegmentPath c) (session c) v (probBuffer c) (framing c)
    (isRecording c) (segmentBuffers c) (speechFrames c) (silenceFrames c)
    (segmentIndex c) (lastErr c) (flushes c) (disk c).

Definition set_probBuffer (v : list float) (c : Controller) : Controller :=
  mkController (opts c) (running c) (abort c) (segmentsSaved c)
    (lastSegmentPath c) (session c) (stateTensor c) v (framing c)
    (isRecording c) (segmentBuffers c) (speechFrames c) (silenceFrames c)
    (segmentIndex c) (lastErr c) (flushes c) (disk c).

Definition set_framing (v : Framing) (c : Controller) : Controller :=
  mkController (opts c) (running c) (abort c) (segmentsSaved c)
    (lastSegmentPath c) (session c) (stateTensor c) (probBuffer c) v
    (isRecording c) (segmentBuffers c) (speechFrames c) (silenceFrames c)
    (segmentIndex c) (lastErr c) (flushes c) (disk c).

Definition set_isRecording (v : bool) (c : Controller) : Controller :=
  mkController (opts c) (running c) (abort c) (segmentsSaved c)
    (lastSegmentPath c) (session c) (stateTensor c) (probBuffer c)
    (framing c) v (segmentBuffers c) (speechFrames c) (silenceFrames c)
    (segmentIndex c) (lastErr c) (flushes c) (disk c).

Definition set_segmentBuffers (v : list (list Z)) (c : Controller) : Controller :=
  mkController (opts c) (running c) (abort c) (segmentsSaved c)
    (lastSegmentPath c) (session c) (stateTensor c) (probBuffer c)
    (framing c) (isRecording c) v (speechFrames c) (silenceFrames c)
    (segmentIndex c) (lastErr c) (flushes c) (disk c).

Definition set_speechFrames (v : Z) (c : Controller) : Controller :=
  mkController (opts c) (running c) (abort c) (segmentsSaved c)
    (lastSegmentPath c) (session c) (stateTensor c) (probBuffer c)
    (framing c) (isRecording c) (segmentBuffers c) v (silenceFrames c)
    (segmentIndex c) (lastErr c) (flushes c) (disk c).

Definition set_silenceFrames (v : Z) (c : Controller) : Controller :=
  mkController (opts c) (running c) (abort c) (segmentsSaved c)
    (lastSegmentPath c) (session c) (stateTensor c) (probBuffer c)
    (framing c) (isRecording c) (segmentBuffers c) (speechFrames c) v
    (segmentIndex c) (lastErr c) (flushes c) (disk c).

Definition set_segmentIndex (v : Z) (c : Controller) : Controller :=
  mkController (opts c) (running c) (abort c) (segmentsSaved c)
    (lastSegmentPath c) (session c) (stateTensor c) (probBuffer c)
    (framing c) (isRecording c) (segmentBuffers c) (speechFrames c)
    (silenceFrames c) v (lastErr c) (flushes c) (disk c).

Definition set_lastErr (v : option string) (c : Controller) : Controller :=
  mkController (opts c) (running c) (abort c) (segmentsSaved c)
    (lastSegmentPath c) (session c) (stateTensor c) (probBuffer c)
    (framing c) (isRecording c) (segmentBuffers c) (speechFrames c)
    (silenceFrames c) (segmentIndex c) v (flushes c) (disk c).

Definition set_flushes (v : nat) (c : Controller) : Controller :=
  mkController (opts c) (running c) (abort c) (segmentsSaved c)
    (lastSegmentPath c) (session c) (stateTensor c) (probBuffer c)
    (framing c) (isRecording c) (segmentBuffers c) (speechFrames c)
    (silenceFrames c) (segmentIndex c) (lastErr c) v (disk c).

Definition set_disk (v : list WriteEvent) (c : Controller) : Controller :=
  mkController (opts c) (running c) (abort c) (segmentsSaved c)
    (lastSegmentPath c) (session c) (stateTensor c) (probBuffer c)
    (framing c) (isRecording c) (segmentBuffers c) (speechFrames c)
    (silenceFrames c) (segmentIndex c) (lastErr c) (flushes c) v.

Definition createVADController (initial : option PartialVADOptions) : Controller :=
  {| opts := assign defaultVADOptions (or_keep initial no_change);
     running := false;
     abort := false;
     segmentsSaved := 0;
     lastSegmentPath := None;
     session := false;
     stateTensor := None;
     probBuffer := [];
     framing := Framer.initial;
     isRecording := false;
     segmentBuffers := [];
     speechFrames := 0;
     silenceFrames := 0;
     segmentIndex := 0;
     lastErr := None;
     flushes := 0;
     disk := [] |}.

(** The files that exist: the writes that succeeded. *)
Definition files (c : Controller) : list WriteEvent := filter w_ok (disk c).

(** *** Numbers *)

Definition float_of_Z (z : Z) : float :=
  if z <? 0 then PrimFloat.opp (PrimFloat.of_uint63 (Uint63.of_Z (- z)))
  else PrimFloat.of_uint63 (Uint63.of_Z z).

(** [f32[i] = frame[i] / 32768] (exact in float32 and in binary64). *)
Definition to_f32 (frame : list Z) : list float :=
  map (fun x => PrimFloat.div (float_of_Z x) 32768%float) frame.

Definition probAvgWindow : nat := 5.

(** [probBuffer.push(rawProb); if (probBuffer.length > 5) probBuffer.shift()] *)
Definition push_prob (rawProb : float) (buf : list float) : list float :=
  let buf := buf ++ [rawProb] in
  if (probAvgWindow <? length buf)%nat then tl buf else buf.

(** [probBuffer.reduce((s, v) => s + v, 0) / probBuffer.length] *)
Definition mean (buf : list float) : float :=
  PrimFloat.div (fold_left PrimFloat.add buf 0%float)
                (float_of_Z (Z.of_nat (length buf))).

(** *** Segment recorder *)

(** [merged = new Int16Array(totalSamples)], then each buffer is copied at
    the running offset. *)
Definition merge (bufs : list (list Z)) : list Z :=
  let totalSamples := fold_left (fun s b => (s + length b)%nat) bufs 0%nat in
  let merged := repeat 0 totalSamples in
  fst (fold_left
         (fun (st : list Z * nat) buf =>
            (set_at (fst st) buf (snd st), (snd st + length buf)%nat))
         bufs (merged, 0%nat)).

Definition string_of_Z (z : Z) : string := NilZero.string_of_int (Z.to_int z).

Definition segment_path (o : VADOptions) (tag : string) (index : Z) : string :=
  (outDir o ++ "/segment_" ++ tag ++ "_" ++ string_of_Z index ++ ".wav")%string.

(** [await Bun.write(path, wav)] *)
Definition Bun_write (env : Env) (path : string) (wav : list byte)
  (c : Controller) : outcome Controller :=
  let ok := write_ok env (flushes c) in
  let c' := set_flushes (Datatypes.S (flushes c))
              (set_disk (disk c ++ [mkWrite path wav ok]) c) in
  if ok then Ok c' else Throw "Bun.write failed" c'.

(** [stopRecording], from the test of [isRecording] to the call of
    [Bun.write]: the state at the call, the path and the bytes. *)
Definition stopRecording_begin (env : Env) (c : Controller)
  : Controller * string * list byte :=
  let merged := merge (segmentBuffers c) in
  let wav := Wav.writeWav merged (rate (opts c)) in
  let index := segmentIndex c + 1 in
  let tag := nowTag env (flushes c) in
  let path := segment_path (opts c) tag index in
  (set_segmentIndex index (set_segmentBuffers [] (set_isRecording false c)),
   path, wav).

(** [stopRecording], after the write has completed. *)
Definition stopRecording_end (path : string) (c : Controller) : Controller :=
  set_lastSegmentPath (Some path) (set_segmentsSaved (segmentsSaved c + 1) c).

Definition stopRecording (env : Env) (c : Controller) : outcome Controller :=
  if negb (isRecording c) then Ok c
  else
    let '(c1, path, wav) := stopRecording_begin env c in
    match Bun_write env path wav c1 with
    | Ok c2 => Ok (stopRecording_end path c2)
    | Throw e c2 => Throw e c2
    end.

(** [segmentStartTime] is written here and read nowhere: it is left out. *)
Definition startRecording (c : Controller) : Controller :=
  if isRecording c then c
  else set_segmentBuffers [] (set_isRecording true c).

(** *** One frame *)

(** The smoothed probability of the frame. *)
Definition smooth (rawProb : float) (c : Controller) : Controller * float :=
  let buf := push_prob rawProb (probBuffer c) in
  (set_probBuffer buf c, mean buf).

(** [if (!isRecording) { ... }] *)
Definition idle_step (prob : float) (c : Controller) : Controller :=
  if negb (isRecording c) then
    if PrimFloat.ltb (speechThreshold (opts c)) prob then
      let c := set_speechFrames (speechFrames c + 1) c in
      if requiredSpeechFrames (opts c) <=? speechFrames c
      then set_speechFrames 0 (startRecording c)
      else c
    else set_speechFrames 0 c
  else c.

(** [if (isRecording) { ... }] *)
Definition recording_step (env : Env) (prob : float) (frame : list Z)
  (c : Controller) : outcome Controller :=
  if isRecording c then
    let c := set_segmentBuffers (segmentBuffers c ++ [frame]) c in
    if PrimFloat.ltb prob (silenceThreshold (opts c)) then
      let c := set_silenceFrames (silenceFrames c + 1) c in
      if requiredSilenceFrames (opts c) <=? silenceFrames c
      then stopRecording env (set_silenceFrames 0 c)
      else Ok c
    else Ok (set_silenceFrames 0 c)
  else Ok c.

(** [processFrame] from [probBuffer.push] on: smoothing, then the two
    branches of the state machine. *)
Definition hysteresis (env : Env) (rawProb : float) (frame : list Z)
  (c : Controller) : outcome Controller :=
  let '(c, prob) := smooth rawProb c in
  recording_step env prob frame (idle_step prob c).

Definition processFrame (env : Env) (frame : list Z) (c : Controller)
  : outcome Controller :=
  match session c, stateTensor c with
  | true, Some state =>
      let f32 := to_f32 frame in
      match session_run env state f32 with
      | None => Throw "session.run failed" c
      | Some results =>
          let c := match r_state results with
                   | Some t => set_stateTensor (Some t) c
                   | None => c
                   end in
          let rawProb := or_keep (r_output results) 0%float in
          hysteresis env rawProb frame c
      end
  | _, _ => Throw "ONNX session not initialized" c
  end.

(** *** The pipeline task and the control operations *)

(** [finally { running = false; try { await stopRecording(); } catch {} }] *)
Definition finish (env : Env) (c : Controller) : Controller :=
  let c := set_running false c in
  match stopRecording env c with
  | Ok c' => c'
  | Throw _ c' => c'
  end.

(** The loop reads [chunks] from the microphone process.  It is alive
    exactly while [running] holds: [start] sets it just before launching the
    loop and the loop clears it when it leaves. *)
Definition loop (env : Env) (chunks : list (list byte)) (c : Controller)
  : Controller :=
  if negb (running c) then c
  else
    match for_await (processFrame env) abort chunks (framing c) c with
    | Waiting fr c' => set_framing fr c'
    | Broke fr c' => finish env (set_framing fr c')
    | Raised e fr c' => finish env (set_lastErr (Some e) (set_framing fr c'))
    end.

(** The output of the microphone process ends. *)
Definition end_of_stream (env : Env) (c : Controller) : Controller :=
  if negb (running c) then c else finish env c.

(** [await mkdir(path, { recursive: true })] *)
Definition ensureDir (env : Env) (path : string) (c : Controller)
  : outcome Controller :=
  if mkdir_ok env path then Ok c else Throw "mkdir failed" c.

(** [model_loads] tells whether the file exists and a session is created
    from it. *)
Definition initOnnx (env : Env) (c : Controller) : outcome Controller :=
  if session c then Ok c
  else if negb (model_loads env (modelPath (opts c)))
  then Throw ("ONNX model not found at " ++ modelPath (opts c)) c
  else Ok (set_stateTensor (Some zero_state) (set_session true c)).

Definition start (env : Env) (c : Controller) : outcome Controller :=
  if running c then Throw "VAD already running" c
  else
    match ensureDir env (outDir (opts c)) c with
    | Throw e c' => Throw e c'
    | Ok c =>
        match initOnnx env c with
        | Throw e c' => Throw e c'
        | Ok c =>
            let c := set_probBuffer [] c in
            let c := set_framing Framer.initial c in
            let c := set_isRecording false c in
            let c := set_segmentBuffers [] c in
            let c := set_speechFrames 0 c in
            let c := set_silenceFrames 0 c in
            let c := set_segmentIndex 0 c in
            let c := set_lastErr None c in
            let c := set_abort false c in
            if negb (mic_spawns env) then Throw "spawn failed" c
            else Ok (set_running true c)
        end
    end.

(** [stop].  It can be called while the loop is suspended on the next chunk
    or on [session.run] with [isRecording] either way (the third suspension,
    inside [stopRecording] on [Bun.write], has [isRecording] false and is not
    a state of this record).  [await loopPromise] lets the loop go on: it
    finishes the frames still in [sampleQueue], starting with the one being
    inferred, then meets [abort] or the end of the killed process's output,
    and leaves through [finally]. *)
Definition stop (env : Env) (c : Controller) : Controller :=
  if negb (running c) then c
  else
    let c := set_abort true c in
    let c :=
      match drain (processFrame env) (framing c) c with
      | (fr, Ok c') => finish env (set_framing fr c')
      | (fr, Throw e c') => finish env (set_lastErr (Some e) (set_framing fr c'))
      end in
    set_running false c.

Definition status (c : Controller) : VADStatus :=
  {| status_running := running c;
     status_segmentsSaved := segmentsSaved c;
     status_lastSegmentPath := lastSegmentPath c |}.

Definition update (partial : PartialVADOptions) (c : Controller)
  : outcome Controller :=
  if running c then Throw "Cannot update options while running" c
  else Ok (set_opts (assign (opts c) partial) c).

(** The state an outcome carries. *)
Definition state_of {S} (r : outcome S) : S :=
  match r with Ok s => s | Throw _ s => s end.

(** ** The properties, as predicates on the definitions above *)

(** *** WAV files *)

(** What a reader of the file checks: total size, the [dataSize] field at
    bytes 40..43, and the samples parsed from offset 44. *)
Definition wav_roundtrip (S : list Z) (sampleRate : Z) : Prop :=
  let out := Wav.writeWav S sampleRate in
  Z.of_nat (length out) = 44 + 2 * Z.of_nat (length S)
  /\ Wav.read_uint out 40 43 = 2 * Z.of_nat (length S)
  /\ Wav.parse_payload out = S.

(** *** Frames *)

(** The signed 16-bit integer whose little-endian bytes are [lo] and [hi]:
    the unsigned value [lo + 256 hi], less 65536 from 32768 on. *)
Definition le_int16 (lo hi : byte) : Z :=
  let u := byte.unsigned lo + 256 * byte.unsigned hi in
  if u <? 32768 then u else u - 65536.

(** The first [n] samples of a byte stream, by position: sample [k] is made
    of the bytes [2k] and [2k + 1]. *)
Definition stream_samples (bytes : list byte) (n : nat) : list Z :=
  map (fun k => le_int16 (nth (2 * k) bytes Byte.x00)
                         (nth (2 * k + 1) bytes Byte.x00))
      (seq 0 n).

(** A frame of exactly 512 samples. *)
Definition whole (f : list Z) : Prop := length f = chunkSize.

(** The state of the framer after a stream of [bytes], with [seen] the
    frames handed out so far. *)
Definition framed (bytes : list byte) (fr : Framing) (seen : list (list Z)) : Prop :=
  exists pairs k,
    bytes = pairs ++ leftover fr
    /\ length pairs = (2 * k)%nat
    /\ (length (leftover fr) <= 1)%nat
    /\ Framer.samples_le pairs = concat seen ++ sampleQueue fr
    /\ Forall whole seen
    /\ (length (sampleQueue fr) < chunkSize)%nat.

(** *** The state machine *)

(** The state machine fed the raw probabilities of successive frames; a
    throw (a failed flush) ends the run, as it ends the loop. *)
Fixpoint run_probs (env : Env) (trace : list (float * list Z)) (c : Controller)
  : Controller :=
  match trace with
  | [] => c
  | (rawProb, frame) :: rest =>
      match hysteresis env rawProb frame c with
      | Ok c' => run_probs env rest c'
      | Throw _ c' => c'
      end
  end.

(** The smoothed probabilities the state machine compares with its
    thresholds, for raw probabilities arriving on the window [buf]. *)
Fixpoint smoothed (buf : list float) (raws : list float) : list float :=
  match raws with
  | [] => []
  | rawProb :: rest =>
      let buf' := push_prob rawProb buf in
      mean buf' :: smoothed buf' rest
  end.

(** No speech-start while the trace is processed from [c]. *)
Definition never_starts (env : Env) (c : Controller) (trace : list (float * list Z))
  : Prop :=
  forall n, isRecording (run_probs env (firstn n trace) c) = false.

(** A stray spike: one raw probability [spike] among raw probabilities all
    equal to [level]. *)
Definition stray_spike (level : float) (before after : nat) (spike : float)
  : list float :=
  repeat level before ++ [spike] ++ repeat level after.

Definition with_frame (frame : list Z) (raws : list float) : list (float * list Z) :=
  map (fun p => (p, frame)) raws.

(** At most one of two consecutive flags is set; [prev] is the flag of the
    frame before the list. *)
Fixpoint isolated (prev : bool) (flags : list bool) : Prop :=
  match flags with
  | [] => True
  | b :: rest => (prev = true -> b = false) /\ isolated b rest
  end.

(** Whether each smoothed probability is above the speech threshold. *)
Definition above (c : Controller) (raws : list float) : list bool :=
  map (PrimFloat.ltb (speechThreshold (opts c))) (smoothed (probBuffer c) raws).

(** *** Writes *)

(** The calls of [Bun.write] made from state [c] to state [c']. *)
Definition new_writes (c c' : Controller) : list WriteEvent :=
  skipn (length (disk c)) (disk c').

Definition failed (ev : WriteEvent) : bool := negb (w_ok ev).

(** The write that flushes the segment in progress in [c], once the frames
    [extra] have been appended to it. *)
Definition segment_write (env : Env) (c : Controller) (extra : list (list Z))
  : WriteEvent :=
  {| w_path := segment_path (opts c) (nowTag env (flushes c)) (segmentIndex c + 1);
     w_data := Wav.writeWav (concat (segmentBuffers c ++ extra)) (rate (opts c));
     w_ok := write_ok env (flushes c) |}.

Definition writes_ok (evs : list WriteEvent) : Prop :=
  Forall (fun ev => w_ok ev = true) evs.

(** The writes [evs] end with a failed one, the only failed one. *)
Definition fails_last (evs : list WriteEvent) : Prop :=
  exists oks ev, evs = oks ++ [ev] /\ writes_ok oks /\ w_ok ev = false.

(** What a step from [c] with result [r] may have done: it leaves
    [running], [abort] and [opts] alone; its writes all succeeded when it
    returns, and when it throws either they all succeeded or the last one
    failed, which leaves the recorder out of Recording. *)
Definition step_summary (c : Controller) (r : outcome Controller) : Prop :=
  running (state_of r) = running c
  /\ abort (state_of r) = abort c
  /\ opts (state_of r) = opts c
  /\ exists evs,
       disk (state_of r) = disk c ++ evs
       /\ match r with
          | Ok _ => writes_ok evs
          | Throw _ c' =>
              writes_ok evs \/ (fails_last evs /\ isRecording c' = false)
          end.

(** The result of the frames read so far, as an outcome. *)
Definition loop_outcome (ls : loop_state Controller) : outcome Controller :=
  match ls with
  | Waiting _ c => Ok c
  | Broke _ c => Ok c
  | Raised e _ c => Throw e c
  end.

(** What holds of [stopRecording] called in [Recording]: the state at the
    call of [Bun.write], then the two ways the write can end. *)
Definition flush_order (env : Env) (c : Controller) : Prop :=
  let at_write := fst (fst (stopRecording_begin env c)) in
  let path := snd (fst (stopRecording_begin env c)) in
  let wav := snd (stopRecording_begin env c) in
  (isRecording at_write = false
   /\ segmentBuffers at_write = []
   /\ segmentsSaved at_write = segmentsSaved c
   /\ lastSegmentPath at_write = lastSegmentPath c
   /\ wav = Wav.writeWav (concat (segmentBuffers c)) (rate (opts c)))
  /\ (write_ok env (flushes c) = true ->
      exists c', stopRecording env c = Ok c'
        /\ segmentsSaved c' = segmentsSaved c + 1
        /\ lastSegmentPath c' = Some path
        /\ files c' = files c ++ [mkWrite path wav true])
  /\ (write_ok env (flushes c) = false ->
      exists e c', stopRecording env c = Throw e c'
        /\ segmentsSaved c' = segmentsSaved c
        /\ lastSegmentPath c' = lastSegmentPath c
        /\ isRecording c' = false
        /\ segmentBuffers c' = []
        /\ files c' = files c).

(** The pipeline continues after the chunks [chunks], whatever the writes. *)
Definition pipeline_continues (env : Env) (chunks : list (list byte)) (c : Controller)
  : Prop :=
  running (loop env chunks c) = true.

(** *** [stop] *)

(** [c] is still recording the segment that was in progress in [c0], with
    the frames [pre] appended since. *)
Definition recording_since (c0 : Controller) (pre : list (list Z)) (c : Controller)
  : Prop :=
  isRecording c = true
  /\ disk c = disk c0
  /\ flushes c = flushes c0
  /\ opts c = opts c0
  /\ segmentIndex c = segmentIndex c0
  /\ segmentBuffers c = segmentBuffers c0 ++ pre.

(** The segment that was in progress in [c0] has been flushed, with the
    frames [pre] appended to it. *)
Definition flushed_since (env : Env) (c0 : Controller) (pre : list (list Z))
  (c : Controller) : Prop :=
  exists more, disk c = disk c0 ++ segment_write env c0 pre :: more.

(** The claim read on the files: [stop] adds exactly one file, the WAV of
    the frames of the segment in progress, and clears [running]. *)
Definition flushes_one_file (env : Env) (c : Controller) : Prop :=
  exists ev,
    files (stop env c) = files c ++ [ev]
    /\ w_data ev = Wav.writeWav (concat (segmentBuffers c)) (rate (opts c))
    /\ running (stop env c) = false.

(** *** Configurations reached by [update] *)

Definition thresholds_ordered (o : VADOptions) : Prop :=
  PrimFloat.ltb (silenceThreshold o) (speechThreshold o) = true.

(** Controllers obtained from a new one by accepted calls of [update] whose
    arguments satisfy [allowed]. *)
Inductive configured (allowed : PartialVADOptions -> Prop) : Controller -> Prop :=
| configured_new : configured allowed (createVADController None)
| configured_update c partial c' :
    configured allowed c ->
    allowed partial ->
    update partial c = Ok c' ->
    configured allowed c'.

Definition any_partial (partial : PartialVADOptions) : Prop := True.

Definition keeps_thresholds (partial : PartialVADOptions) : Prop :=
  p_speechThreshold partial = None /\ p_silenceThreshold partial = None.

(** The thresholds an [update] with [partial] leaves, starting from the
    options [o], are in order: the silence threshold it gives, or else the
    current one, is below the speech threshold it gives, or else the
    current one. *)
Definition in_order_after (o : VADOptions) (partial : PartialVADOptions) : Prop :=
  PrimFloat.ltb (or_keep (p_silenceThreshold partial) (silenceThreshold o))
                (or_keep (p_speechThreshold partial) (speechThreshold o))
  = true.

(** Controllers obtained from a new one by accepted calls of [update] each
    of which leaves the thresholds in order. *)
Inductive configured_in_order : Controller -> Prop :=
| in_order_new : configured_in_order (createVADController None)
| in_order_update c partial c' :
    configured_in_order c ->
    in_order_after (opts c) partial ->
    update partial c = Ok c' ->
    configured_in_order c'.

(** ** A concrete environment and stream, for the examples

    The model of the examples answers 0.9 for a frame whose first sample is
    positive and 0 otherwise, and adds one to every element of the state. *)

Module Scenario.

Definition model (state : Tensor) (f32 : list float) : option RunResult :=
  Some {| r_state :=
            Some {| dims := dims state;
                    data := map (fun x => PrimFloat.add x 1%float) (data state) |};
          r_output :=
            Some (if PrimFloat.ltb 0%float (hd 0%float f32)
                  then 0.9%float else 0%float) |}.

Definition env (ok : nat -> bool) : Env :=
  {| mkdir_ok := fun _ => true;
     model_loads := fun _ => true;
     mic_spawns := true;
     session_run := model;
     nowTag := fun _ => "2025-01-01_00-00-00"%string;
     write_ok := ok |}.

Definition healthy : Env := env (fun _ => true).
Definition disk_full : Env := env (fun _ => false).
(** The first write fails, the later ones succeed. *)
Definition first_write_fails : Env := env (fun n => negb (Nat.eqb n 0)).

(** One frame of bytes: 512 samples equal to 257, or to 0. *)
Definition speech : list byte := repeat Byte.x01 1024.
Definition silence : list byte := repeat Byte.x00 1024.

Definition started (e : Env) : Controller :=
  state_of (start e (createVADController None)).

(** Three frames of speech: recording starts on the second. *)
Definition recording (e : Env) : Controller :=
  loop e [speech ++ speech ++ speech] (started e).

(** A call of [update] that only changes [requiredSpeechFrames]. *)
Definition three_speech_frames : PartialVADOptions :=
  mkPartial None None None None None (Some 3) None.

(** A call that raises the silence threshold above the speech threshold. *)
Definition loud_silence : PartialVADOptions :=
  mkPartial None None None None (Some 0.9%float) None None.

(** A call that lowers the speech threshold to 0.15. *)
Definition low_speech_threshold : PartialVADOptions :=
  mkPartial None None None (Some 0.15%float) None None None.

Definition sensitive : Controller :=
  state_of (update low_speech_threshold (createVADController None)).

End Scenario.

(** ** Bookkeeping of the segments, and what holds of every state *)

(** [lastSegmentPath] once the writes [evs] have been made: the path of the
    last one that succeeded, if any. *)
Definition last_saved (evs : list WriteEvent) (before : option string)
  : option string :=
  fold_left (fun acc ev => if w_ok ev then Some (w_path ev) else acc) evs before.

(** The writes [evs] made from [c] on carry consecutive segment numbers and
    consult the clock and the file system once each, in order. *)
Definition numbered (env : Env) (c : Controller) (evs : list WriteEvent) : Prop :=
  forall i ev, nth_error evs i = Some ev ->
    w_path ev
    = segment_path (opts c) (nowTag env (flushes c + i)) (segmentIndex c + Z.of_nat i + 1)
    /\ w_ok ev = write_ok env (flushes c + i).

(** The file written holds the WAV encoding, at [sampleRate], of at least
    one whole frame. *)
Definition whole_segment (sampleRate : Z) (ev : WriteEvent) : Prop :=
  exists frames,
    frames <> []
    /\ Forall whole frames
    /\ w_data ev = Wav.writeWav (concat frames) sampleRate.

(** The segment in progress is made of whole frames, and of at least one
    while the recorder is in Recording. *)
Definition buffers_ok (c : Controller) : Prop :=
  Forall whole (segmentBuffers c)
  /\ (isRecording c = true -> segmentBuffers c <> []).

(** The two states agree on what the bookkeeping reads. *)
Definition agree (c c1 : Controller) : Prop :=
  disk c1 = disk c /\ flushes c1 = flushes c /\ segmentIndex c1 = segmentIndex c
  /\ segmentsSaved c1 = segmentsSaved c /\ lastSegmentPath c1 = lastSegmentPath c
  /\ opts c1 = opts c /\ session c1 = session c
  /\ isRecording c1 = isRecording c /\ segmentBuffers c1 = segmentBuffers c.

(** What the pipeline does to the bookkeeping between [c] and [c']. *)
Definition accounted (env : Env) (c c' : Controller) : Prop :=
  exists evs,
    disk c' = disk c ++ evs
    /\ flushes c' = (flushes c + length evs)%nat
    /\ segmentIndex c' = segmentIndex c + Z.of_nat (length evs)
    /\ segmentsSaved c' = segmentsSaved c + Z.of_nat (length (filter w_ok evs))
    /\ lastSegmentPath c' = last_saved evs (lastSegmentPath c)
    /\ opts c' = opts c
    /\ session c' = session c
    /\ numbered env c evs
    /\ (buffers_ok c ->
        buffers_ok c' /\ Forall (whole_segment (rate (opts c))) evs).

(** The states of a controller: those reached from a new one by calls of
    [start], [stop] and [update], by chunks arriving from the microphone and
    by the end of its output. *)
Inductive reachable (env : Env) : Controller -> Prop :=
| reach_new initial : reachable env (createVADController initial)
| reach_start c : reachable env c -> reachable env (state_of (start env c))
| reach_chunks c chunks : reachable env c -> reachable env (loop env chunks c)
| reach_end c : reachable env c -> reachable env (end_of_stream env c)
| reach_stop c : reachable env c -> reachable env (stop env c)
| reach_update c partial :
    reachable env c -> reachable env (state_of (update partial c)).

(** [status()] tells the truth about the disk. *)
Definition status_consistent (c : Controller) : Prop :=
  status_segmentsSaved (status c) = Z.of_nat (length (files c))
  /\ status_lastSegmentPath (status c) = last_saved (disk c) None.

(** Between two chunks the loop holds at most one unpaired byte and less
    than one frame of samples. *)
Definition framing_settled (fr : Framing) : Prop :=
  (length (leftover fr) <= 1)%nat /\ (length (sampleQueue fr) < chunkSize)%nat.

(** The two counters of the state machine: the run of silent frames is
    counted inside a segment only, the run of speech frames outside only. *)
Definition counters_rest (c : Controller) : Prop :=
  (isRecording c = false -> silenceFrames c = 0)
  /\ (isRecording c = true -> speechFrames c = 0).

(** What the frames processed between [c] and [c'] leave as it was. *)
Definition steady (c c' : Controller) : Prop :=
  running c' = running c
  /\ abort c' = abort c
  /\ (stateTensor c <> None -> stateTensor c' <> None)
  /\ (counters_rest c -> counters_rest c').

(** What holds of every state of a controller. *)
Definition invariant (c : Controller) : Prop :=
  status_consistent c
  /\ buffers_ok c
  /\ (session c = true -> stateTensor c <> None)
  /\ (running c = true ->
      framing_settled (framing c) /\ abort c = false /\ session c = true
      /\ counters_rest c).

(** The state the loop has reached. *)
Definition loop_state_of {S} (ls : loop_state S) : S :=
  match ls with
  | Waiting _ s => s
  | Broke _ s => s
  | Raised _ _ s => s
  end.



(** [{ ...p, ...q }] *)
Definition overlay (p q : PartialVADOptions) : PartialVADOptions :=
  {| p_rate := match p_rate q with Some v => Some v | None => p_rate p end;
     p_outDir := match p_outDir q with Some v => Some v | None => p_outDir p end;
     p_modelPath :=
       match p_modelPath q with Some v => Some v | None => p_modelPath p end;
     p_speechThreshold :=
       match p_speechThreshold q with
       | Some v => Some v | None => p_speechThreshold p end;
     p_silenceThreshold :=
       match p_silenceThreshold q with
       | Some v => Some v | None => p_silenceThreshold p end;
     p_requiredSpeechFrames :=
       match p_requiredSpeechFrames q with
       | Some v => Some v | None => p_requiredSpeechFrames p end;
     p_requiredSilenceFrames :=
       match p_requiredSilenceFrames q with
       | Some v => Some v | None => p_requiredSilenceFrames p end |}.

(** [P] holds of the [count] integers from [lo] on. *)
Fixpoint all_from (P : Z -> bool) (lo : Z) (count : nat) : bool :=
  match count with
  | O => true
  | Datatypes.S n => P lo && all_from P (lo + 1) n
  end.

(** What [f32[i] = frame[i] / 32768] should give for the sample [z]: a
    number in [-1, 1) of the sign of [z], from which [z] is recovered. *)
Definition normalised (z : Z) : bool :=
  let x := PrimFloat.div (float_of_Z z) 32768%float in
  PrimFloat.leb (-1)%float x
  && PrimFloat.ltb x 1%float
  && PrimFloat.eqb (PrimFloat.mul x 32768%float) (float_of_Z z)
  && Bool.eqb (PrimFloat.ltb x 0%float) (z <? 0).

(** ** Time stamps

    [nowTag] formats the local time read from [new Date()]; the getters of
    a valid date return integers, which [toString] prints in decimal. *)

Record Date : Type := mkDate {
  getFullYear : Z;
  getMonth : Z;
  getDate : Z;
  getHours : Z;
  getMinutes : Z;
  getSeconds : Z
}.

Fixpoint zeros (n : nat) : string :=
  match n with
  | O => EmptyString
  | Datatypes.S n' => String "0" (zeros n')
  end.

(** [s.padStart(2, '0')] *)
Definition padStart2 (s : string) : string :=
  (zeros (2 - String.length s) ++ s)%string.

(** [pad = (n) => n.toString().padStart(2, '0')] *)
Definition pad (n : Z) : string := padStart2 (string_of_Z n).

Definition nowTag_at (d : Date) : string :=
  (string_of_Z (getFullYear d) ++ "-" ++ pad (getMonth d + 1) ++ "-"
   ++ pad (getDate d) ++ "_" ++ pad (getHours d) ++ "-" ++ pad (getMinutes d)
   ++ "-" ++ pad (getSeconds d))%string.

(** The ranges of the getters of a date, and the years of four digits. *)
Definition calendar (d : Date) : Prop :=
  1000 <= getFullYear d <= 9999
  /\ 0 <= getMonth d <= 11
  /\ 1 <= getDate d <= 31
  /\ 0 <= getHours d <= 23
  /\ 0 <= getMinutes d <= 59
  /\ 0 <= getSeconds d <= 59.

(** The tags of the environment are those of [nowTag], for the dates the
    clock shows at the successive flushes. *)
Definition clocked (env : Env) (clock : nat -> Date) : Prop :=
  forall n, nowTag env n = nowTag_at (clock n) /\ calendar (clock n).

(** ** The HTTP server in front of the controller

    Both servers ([Bun.serve] with a table of routes, and [createServer]
    with a chain of tests) hold one controller and run the same code for
    each route.  A request is its method (upper case), its path and what
    reading its body as JSON gives: an exception with a message, or an
    object, here an object whose keys are options with values of their
    types.  The messages of the errors the controller raises itself are
    the source's; those of the environment's failures ([mkdir], the
    recorder's spawn, inference, [Bun.write]) are labels. *)

Module Server.

Record Request : Type := mkRequest {
  method : string;
  path : string;
  body : string + PartialVADOptions
}.

Inductive Payload : Type :=
| StatusJSON (s : VADStatus)              (* the status object *)
| OkJSON (s : option VADStatus)           (* { ok: true, status? } *)
| ErrorJSON (error : string)              (* { ok: false, error } *)
| OptionsJSON (o : VADOptions)
| Text (s : string).

Record Response : Type := mkResponse {
  statusCode : Z;
  payload : Payload
}.

Definition present {A} (o : option A) : nat :=
  match o with Some _ => 1 | None => 0 end.

(** [Object.keys(body).length] *)
Definition keys (p : PartialVADOptions) : nat :=
  present (p_rate p) + present (p_outDir p) + present (p_modelPath p)
  + present (p_speechThreshold p) + present (p_silenceThreshold p)
  + present (p_requiredSpeechFrames p) + present (p_requiredSilenceFrames p).

Definition sendJSON (data : Payload) (code : Z) : Response :=
  {| statusCode := code; payload := data |}.

(** [GET /api/v1/vad/status] *)
Definition get_status (c : Controller) : Controller * Response :=
  (c, sendJSON (StatusJSON (status c)) 200).

(** [POST /api/v1/vad/start]: a body that cannot be read counts as [{}]. *)
Definition post_start (env : Env) (b : string + PartialVADOptions)
  (c : Controller) : Controller * Response :=
  let body := match b with inl _ => no_change | inr p => p end in
  let updated := if (0 <? keys body)%nat then update body c else Ok c in
  match updated with
  | Throw e c' => (c', sendJSON (ErrorJSON e) 400)
  | Ok c1 =>
      match start env c1 with
      | Ok c2 => (c2, sendJSON (OkJSON (Some (status c2))) 200)
      | Throw e c2 => (c2, sendJSON (ErrorJSON e) 400)
      end
  end.

(** [POST /api/v1/vad/stop]; [stop] does not throw. *)
Definition post_stop (env : Env) (c : Controller) : Controller * Response :=
  let c' := stop env c in
  (c', sendJSON (OkJSON (Some (status c'))) 200).

(** [GET /api/v1/vad/options] *)
Definition get_options (c : Controller) : Controller * Response :=
  (c, sendJSON (OptionsJSON defaultVADOptions) 200).

(** [PATCH /api/v1/vad/options] *)
Definition patch_options (b : string + PartialVADOptions) (c : Controller)
  : Controller * Response :=
  match b with
  | inl e => (c, sendJSON (ErrorJSON e) 400)
  | inr body =>
      match update body c with
      | Ok c' => (c', sendJSON (OkJSON None) 200)
      | Throw e c' => (c', sendJSON (ErrorJSON e) 400)
      end
  end.

(** The chain of tests of [createServer]'s handler. *)
Definition handle (env : Env) (req : Request) (c : Controller)
  : Controller * Response :=
  if ((method req =? "GET") && (path req =? "/api/v1/vad/status"))%string
  then get_status c
  else if ((method req =? "POST") && (path req =? "/api/v1/vad/start"))%string
  then post_start env (body req) c
  else if ((method req =? "POST") && (path req =? "/api/v1/vad/stop"))%string
  then post_stop env c
  else if ((path req =? "/api/v1/vad/options") && (method req =? "GET"))%string
  then get_options c
  else if ((path req =? "/api/v1/vad/options") && (method req =? "PATCH"))%string
  then patch_options (body req) c
  else (c, {| statusCode := 404; payload := Text "Not Found" |}).

(** The controller after a sequence of requests, with the replies. *)
Fixpoint serve (env : Env) (reqs : list Request) (c : Controller)
  : Controller * list Response :=
  match reqs with
  | [] => (c, [])
  | req :: rest =>
      let '(c1, r) := handle env req c in
      let '(c2, rs) := serve env rest c1 in
      (c2, r :: rs)
  end.

End Server.

(** ** Environments that fail, for the examples *)

Module Faults.

(** The output directory cannot be created. *)
Definition no_directory : Env :=
  {| mkdir_ok := fun _ => false;
     model_loads := fun _ => true;
     mic_spawns := true;
     session_run := Scenario.model;
     nowTag := fun _ => "2025-01-01_00-00-00"%string;
     write_ok := fun _ => true |}.

(** The model file is missing. *)
Definition no_model : Env :=
  {| mkdir_ok := fun _ => true;
     model_loads := fun _ => false;
     mic_spawns := true;
     session_run := Scenario.model;
     nowTag := fun _ => "2025-01-01_00-00-00"%string;
     write_ok := fun _ => true |}.

(** The recorder program cannot be spawned. *)
Definition no_microphone : Env :=
  {| mkdir_ok := fun _ => true;
     model_loads := fun _ => true;
     mic_spawns := false;
     session_run := Scenario.model;
     nowTag := fun _ => "2025-01-01_00-00-00"%string;
     write_ok := fun _ => true |}.

(** Inference fails on every frame. *)
Definition no_inference : Env :=
  {| mkdir_ok := fun _ => true;
     model_loads := fun _ => true;
     mic_spawns := true;
     session_run := fun _ _ => None;
     nowTag := fun _ => "2025-01-01_00-00-00"%string;
     write_ok := fun _ => true |}.

(** A body that sets [modelPath] only. *)
Definition other_model : PartialVADOptions :=
  mkPartial None None (Some "missing.onnx"%string) None None None None.

End Faults.

(** ** Checking a property on a range of integers *)

Lemma all_from_spec (P : Z -> bool) (count : nat) : forall lo,
  all_from P lo count = true ->
  forall n, lo <= n < lo + Z.of_nat count -> P n = true.
Proof.
induction count as [|count IH]; intros lo Hall n Hn; [lia|].
cbn [all_from] in Hall. apply andb_true_iff in Hall. destruct Hall as [H0 Hrest].
destruct (Z.eq_dec n lo) as [-> | Hne]; [exact H0|].
apply (IH (lo + 1) Hrest). lia.
Qed.


(** ** Facts about the typed-array helpers *)

Section TypedArrayFacts.

Lemma clear_low_bit_even n : clear_low_bit n = 2 * (n / 2).
Proof.
  unfold clear_low_bit. rewrite <- Z.ldiff_land.
  change 1 with (Z.ones 1) at 1.
  rewrite Z.ldiff_ones_r by lia.
  rewrite Z.shiftl_mul_pow2, Z.shiftr_div_pow2 by lia.
  change (2 ^ 1) with 2. lia.
Qed.

(** Below 2^31 the 32-bit coercion of [&] changes nothing. *)
Lemma clear_low_bit_int32_agree n :
  0 <= n < 2 ^ 31 -> clear_low_bit_int32 n = clear_low_bit n.
Proof.
  intros Hn. unfold clear_low_bit_int32.
  assert (H1 : to_int32 n = n).
  { unfold to_int32. rewrite Z.mod_small; lia. }
  assert (H2 : to_int32 (Z.lnot 1) = Z.lnot 1) by reflexivity.
  rewrite H1, H2. fold (clear_low_bit n).
  rewrite clear_low_bit_even.
  pose proof (Z.mul_div_le n 2) as Hle.
  assert (0 <= n / 2) by (apply Z.div_pos; lia).
  unfold to_int32. rewrite Z.mod_small; lia.
Qed.

End TypedArrayFacts.

(** ** Facts about [set_at] and the element views *)

Section SetAt.
Context {A : Type}.
Implicit Types (dst src a b : list A) (off : nat).

Lemma length_set_at dst src off :
  (off + length src <= length dst)%nat ->
  length (set_at dst src off) = length dst.
Proof.
  intros H. unfold set_at.
  rewrite !length_app, length_firstn, length_skipn. lia.
Qed.

(** A write that ends inside the first part leaves the second alone. *)
Lemma set_at_app_l a b src off :
  (off + length src <= length a)%nat ->
  set_at (a ++ b) src off = set_at a src off ++ b.
Proof.
  intros H. unfold set_at.
  rewrite firstn_app, skipn_app.
  replace (off - length a)%nat with 0%nat by lia.
  replace (off + length src - length a)%nat with 0%nat by lia.
  cbn [firstn skipn]. rewrite app_nil_r, <- !app_assoc. reflexivity.
Qed.

(** A write that covers the second part exactly replaces it. *)
Lemma set_at_app_r a b src :
  length src = length b ->
  set_at (a ++ b) src (length a) = a ++ src.
Proof.
  intros H. unfold set_at.
  rewrite firstn_app, Nat.sub_diag, firstn_all. cbn [firstn].
  rewrite app_nil_r, skipn_all2 by (rewrite length_app; lia).
  now rewrite app_nil_r.
Qed.

End SetAt.

Section ElementViews.

Lemma le_split_2 v : le_split 2 v = [byte.of_Z v; byte.of_Z (Z.shiftr v 8)].
Proof. reflexivity. Qed.

Lemma le_split_4 v :
  le_split 4 v
  = [byte.of_Z v; byte.of_Z (Z.shiftr v 8);
     byte.of_Z (Z.shiftr (Z.shiftr v 8) 8);
     byte.of_Z (Z.shiftr (Z.shiftr (Z.shiftr v 8) 8) 8)].
Proof. reflexivity. Qed.

Lemma length_int16_bytes a : length (int16_bytes a) = (2 * length a)%nat.
Proof.
  unfold int16_bytes.
  induction a as [|x a IH]; cbn [flat_map length]; [reflexivity|].
  rewrite length_app, length_le_split, IH. lia.
Qed.

Lemma to_int16_id z : is_int16 z -> to_int16 z = z.
Proof.
  unfold is_int16, to_int16. intros H. rewrite Z.mod_small; lia.
Qed.

Lemma to_int16_mod z : to_int16 (z mod 2 ^ 16) = to_int16 z.
Proof.
  unfold to_int16.
  rewrite Zplus_mod_idemp_l. reflexivity.
Qed.

(** Storing an element and reading its two bytes back. *)
Lemma int16_of_le_split z :
  to_int16 (le_combine (le_split 2 z)) = to_int16 z.
Proof.
  rewrite le_combine_split.
  change (Z.of_nat 2 * 8) with 16.
  apply to_int16_mod.
Qed.

Lemma int16_view_bytes a rest :
  Forall is_int16 a ->
  int16_view (int16_bytes a ++ rest) (length a) = a.
Proof.
  induction 1 as [|x a Hx Ha IH]; [reflexivity|].
  cbn [int16_bytes flat_map length].
  rewrite <- app_assoc.
  rewrite le_split_2. cbn [app int16_view]. rewrite <- le_split_2.
  rewrite int16_of_le_split, to_int16_id by assumption.
  f_equal. exact IH.
Qed.

Lemma bytesToInt16Array_bytes a :
  Forall is_int16 a -> bytesToInt16Array (int16_bytes a) = a.
Proof.
  intros H. unfold bytesToInt16Array.
  rewrite clear_low_bit_even, length_int16_bytes.
  replace (Z.to_nat (2 * (Z.of_nat (2 * length a) / 2) / 2)) with (length a).
  - rewrite <- (app_nil_r (int16_bytes a)). now apply int16_view_bytes.
  - rewrite Nat2Z.inj_mul. change (Z.of_nat 2) with 2.
    rewrite !(Z.mul_comm 2), !Z.div_mul by lia. lia.
Qed.

End ElementViews.

(** ** The WAV encoder writes the header fields, then the samples *)

Section WavLayout.
Import Wav.

Lemma length_header n r : length (header n r) = 44%nat.
Proof. reflexivity. Qed.

(** The writes at fixed offsets fill a zeroed buffer with exactly the
    header followed by the bytes of the samples. *)
Lemma writeWav_layout (int16 : list Z) (sampleRate : Z) :
  writeWav int16 sampleRate
  = header (2 * Z.of_nat (length int16)) sampleRate ++ int16_bytes int16.
Proof.
  unfold writeWav, header, writeString, setUint32, setUint16.
  cbv zeta.
  replace (Z.of_nat (length int16) * 2) with (2 * Z.of_nat (length int16)) by lia.
  assert (HP : Z.to_nat (2 * Z.of_nat (length int16))
               = length (int16_bytes int16)).
  { rewrite length_int16_bytes. lia. }
  rewrite HP. clear HP.
  generalize (int16_bytes int16) as payload.
  generalize (2 * Z.of_nat (length int16)) as n.
  intros n payload.
  change (1 * 2) with 2. change (8 * 2) with 16.
  rewrite !le_split_4, !le_split_2.
  repeat match goal with
         | |- context [byte.of_Z ?z] => generalize (byte.of_Z z); intro
         end.
  repeat match goal with
         | |- context [list_byte_of_string ?str] =>
             let r := eval vm_compute in (list_byte_of_string str) in
             change (list_byte_of_string str) with r
         end.
  cbn [set_at firstn skipn app length Nat.add repeat].
  rewrite skipn_all2 by (rewrite repeat_length; lia).
  rewrite app_nil_r. reflexivity.
Qed.

Lemma length_writeWav int16 sampleRate :
  length (writeWav int16 sampleRate) = (44 + 2 * length int16)%nat.
Proof.
  rewrite writeWav_layout, length_app, length_header, length_int16_bytes.
  reflexivity.
Qed.

Lemma payload_writeWav int16 sampleRate :
  skipn 44 (writeWav int16 sampleRate) = int16_bytes int16.
Proof.
  rewrite writeWav_layout.
  change 44%nat with (length (header (2 * Z.of_nat (length int16)) sampleRate)).
  rewrite skipn_app, Nat.sub_diag, skipn_all. reflexivity.
Qed.

(** A header field, read through [writeWav]. *)
Lemma bytes_at_header int16 sampleRate a b :
  (b < 44)%nat ->
  bytes_at (writeWav int16 sampleRate) a b
  = bytes_at (header (2 * Z.of_nat (length int16)) sampleRate) a b.
Proof.
  intros Hb. rewrite writeWav_layout. unfold bytes_at.
  rewrite skipn_app, firstn_app, length_skipn, length_header.
  replace (b + 1 - a - (44 - a))%nat with 0%nat by lia.
  cbn [firstn]. now rewrite app_nil_r.
Qed.

(** The [dataSize] field is a 32-bit field: it holds the size modulo 2^32. *)
Lemma dataSize_field int16 sampleRate :
  read_uint (writeWav int16 sampleRate) 40 43
  = (2 * Z.of_nat (length int16)) mod 2 ^ 32.
Proof.
  unfold read_uint. rewrite bytes_at_header by lia.
  set (n := 2 * Z.of_nat (length int16)).
  replace (bytes_at (header n sampleRate) 40 43) with (le_split 4 n).
  - now rewrite le_combine_split.
  - unfold header, bytes_at. rewrite !le_split_4, !le_split_2.
    repeat match goal with
           | |- context [byte.of_Z ?z] => generalize (byte.of_Z z); intro
           end.
    reflexivity.
Qed.

End WavLayout.

(** ** Properties of the WAV encoder *)

Section WavProperties.
Import Wav.

(** Reads a field of [header] off its definition: the bytes that depend on
    the arguments are made opaque, the rest is computed. *)
Ltac header_field :=
  unfold header, bytes_at; rewrite !le_split_4, !le_split_2;
  repeat match goal with
         | |- context [byte.of_Z ?z] => generalize (byte.of_Z z); intro
         end;
  reflexivity.

(** C7: for every sample sequence and sample rate the output starts with a
    header of exactly 44 bytes (the sample bytes follow from offset 44) that
    holds "RIFF" at bytes 0..3, "WAVE" at 8..11, "fmt " at 12..15, "data" at
    36..39, the little-endian uint16 1 at bytes 20..21 and the little-endian
    uint16 16 at bytes 34..35. *)
Theorem writeWav_header_constants (int16 : list Z) (sampleRate : Z) :
  let out := writeWav int16 sampleRate in
  bytes_at out 0 3 = list_byte_of_string "RIFF"
  /\ bytes_at out 8 11 = list_byte_of_string "WAVE"
  /\ bytes_at out 12 15 = list_byte_of_string "fmt "
  /\ bytes_at out 36 39 = list_byte_of_string "data"
  /\ read_uint out 20 21 = 1
  /\ read_uint out 34 35 = 16
  /\ length (firstn 44 out) = 44%nat
  /\ out = firstn 44 out ++ int16_bytes int16.
Proof.
  cbv zeta. unfold read_uint.
  rewrite !bytes_at_header by lia.
  assert (Hlen : length (firstn 44 (writeWav int16 sampleRate)) = 44%nat).
  { rewrite length_firstn, length_writeWav. lia. }
  assert (Hpay : writeWav int16 sampleRate
                 = firstn 44 (writeWav int16 sampleRate) ++ int16_bytes int16).
  { rewrite <- (payload_writeWav int16 sampleRate).
    symmetry. apply firstn_skipn. }
  generalize (2 * Z.of_nat (length int16)). intros n.
  assert (H20 : bytes_at (header n sampleRate) 20 21 = le_split 2 1)
    by header_field.
  assert (H34 : bytes_at (header n sampleRate) 34 35 = le_split 2 16)
    by header_field.
  rewrite H20, H34.
  do 4 (split; [header_field|]).
  do 2 (split; [reflexivity|]).
  split; assumption.
Qed.

(** C6, as amended: for every sequence S of signed 16-bit samples whose
    byte size 2*|S| fits the 32-bit size field (2*|S| < 2^32) and every
    sample rate, the output has 44 + 2*|S| bytes, its dataSize field
    (bytes 40..43) is 2*|S|, and parsing the bytes from offset 44 as
    little-endian int16 gives S back. *)
Theorem writeWav_roundtrip (S : list Z) (sampleRate : Z) :
  Forall is_int16 S ->
  2 * Z.of_nat (length S) < 2 ^ 32 ->
  wav_roundtrip S sampleRate.
Proof.
  intros HS Hlen. unfold wav_roundtrip. cbv zeta.
  split; [|split].
  - rewrite length_writeWav. lia.
  - rewrite dataSize_field. apply Z.mod_small. lia.
  - unfold parse_payload. rewrite payload_writeWav.
    now apply bytesToInt16Array_bytes.
Qed.

(** The size and the samples come back whatever the length. *)
Lemma writeWav_size_and_payload (S : list Z) (sampleRate : Z) :
  Forall is_int16 S ->
  Z.of_nat (length (writeWav S sampleRate)) = 44 + 2 * Z.of_nat (length S)
  /\ parse_payload (writeWav S sampleRate) = S.
Proof.
  intros HS. split.
  - rewrite length_writeWav. lia.
  - unfold parse_payload. rewrite payload_writeWav.
    now apply bytesToInt16Array_bytes.
Qed.

End WavProperties.

Lemma writeWav_roundtrip_witness :
  wav_roundtrip [0; -1; 32767; -32768; 258] 16000.
Proof.
  apply writeWav_roundtrip.
  - repeat constructor; unfold is_int16; lia.
  - cbn. lia.
Defined.

(** C6, as stated, fails for a segment of 2^31 samples: its byte size 2^32
    does not fit the 32-bit dataSize field, which then reads 0. *)
Lemma writeWav_dataSize_wraps :
  Forall is_int16 (repeat 0 (Z.to_nat (2 ^ 31)))
  /\ ~ wav_roundtrip (repeat 0 (Z.to_nat (2 ^ 31))) 16000.
Proof.
  split.
  - apply Forall_forall. intros x Hx.
    apply repeat_spec in Hx. subst x. unfold is_int16. lia.
  - unfold wav_roundtrip. intros [_ [H _]].
    rewrite dataSize_field, repeat_length, Z2Nat.id in H by lia.
    discriminate H.
Qed.

(** ** Facts about the framer *)

Section FramerFacts.
Import Framer.

Lemma joined_app {A} (zero : A) (a b : list A) : joined zero a b = a ++ b.
Proof.
unfold joined. cbv zeta.
assert (H1 : set_at (repeat zero (length a + length b)) a 0
             = a ++ repeat zero (length b)).
{ unfold set_at. cbn [firstn app Nat.add].
  rewrite repeat_app, skipn_app, repeat_length, Nat.sub_diag.
  rewrite skipn_all2 by (rewrite repeat_length; lia).
  reflexivity. }
rewrite H1. apply set_at_app_r. now rewrite repeat_length.
Qed.

Lemma samples_le_short bs : (length bs <= 1)%nat -> samples_le bs = [].
Proof.
destruct bs as [|a [|b r]]; cbn [length samples_le]; intros; try reflexivity; lia.
Qed.

Lemma int16_view_samples_le n : forall bs,
  (length bs <= 2 * n + 1)%nat -> int16_view bs n = samples_le bs.
Proof.
induction n as [|n IH]; intros bs Hlen.
- rewrite samples_le_short by lia. reflexivity.
- destruct bs as [|a [|b r]]; try reflexivity.
  cbn [int16_view samples_le]. f_equal. apply IH. cbn [length] in Hlen. lia.
Qed.

(** [bytesToInt16Array] reads the pairs of the buffer in order. *)
Lemma bytesToInt16Array_samples_le bs : bytesToInt16Array bs = samples_le bs.
Proof.
unfold bytesToInt16Array. cbv zeta.
apply int16_view_samples_le.
rewrite clear_low_bit_even.
rewrite Z.mul_comm, Z.div_mul by lia.
pose proof (Z.div_mod (Z.of_nat (length bs)) 2 ltac:(lia)) as Hdm.
pose proof (Z.mod_pos_bound (Z.of_nat (length bs)) 2 ltac:(lia)) as Hm.
assert (0 <= Z.of_nat (length bs) / 2) by (apply Z.div_pos; lia).
lia.
Qed.

Lemma samples_le_app k : forall a b,
  length a = (2 * k)%nat -> samples_le (a ++ b) = samples_le a ++ samples_le b.
Proof.
induction k as [|k IH]; intros a b Hlen.
- destruct a; [reflexivity | discriminate].
- destruct a as [|x [|y r]]; cbn [length] in Hlen; try lia.
  cbn [app samples_le]. f_equal. apply IH. lia.
Qed.

Lemma length_samples_le k : forall bs,
  (2 * k <= length bs <= 2 * k + 1)%nat -> length (samples_le bs) = k.
Proof.
induction k as [|k IH]; intros bs Hlen.
- rewrite samples_le_short by lia. reflexivity.
- destruct bs as [|x [|y r]]; cbn [length] in Hlen; try lia.
  cbn [samples_le length]. f_equal. apply IH. lia.
Qed.

(** What [enqueue] leaves: the bytes beyond the last full pair, and the
    queue extended by the samples of the pairs. *)
Lemma enqueue_eq u8 fr :
  let combined := leftover fr ++ u8 in
  let k := (2 * (length combined / 2))%nat in
  enqueue u8 fr
  = {| leftover := skipn k combined;
       sampleQueue := sampleQueue fr ++ samples_le (firstn k combined) |}.
Proof.
cbv zeta. unfold enqueue. cbv zeta.
rewrite !joined_app, clear_low_bit_even, bytesToInt16Array_samples_le.
unfold subarray, subarray_from.
change (Z.to_nat 0) with 0%nat. rewrite Nat.sub_0_r. cbn [skipn].
set (combined := leftover fr ++ u8).
replace (Z.to_nat (2 * (Z.of_nat (length combined) / 2)))
  with (2 * (length combined / 2))%nat.
- f_equal.
  destruct (sampleQueue fr) as [|x q]; reflexivity.
- rewrite <- (Nat2Z.id (2 * (length combined / 2))).
  f_equal. rewrite Nat2Z.inj_mul, Nat2Z.inj_div. reflexivity.
Qed.

(** The fuel of [drain] never runs out: any larger amount gives the same
    result, and a loop that returns leaves less than a frame. *)
Lemma while_frames_fuel {S} (pf : list Z -> S -> outcome S) f1 : forall f2 fr s,
  (length (sampleQueue fr) <= f1)%nat ->
  (length (sampleQueue fr) <= f2)%nat ->
  while_frames pf f1 fr s = while_frames pf f2 fr s.
Proof.
induction f1 as [|f1 IH]; intros [|f2] fr s H1 H2; cbn [while_frames];
  try reflexivity.
- destruct (Nat.leb_spec chunkSize (length (sampleQueue fr))); [|reflexivity].
  unfold chunkSize in *. lia.
- destruct (Nat.leb_spec chunkSize (length (sampleQueue fr))); [|reflexivity].
  unfold chunkSize in *. lia.
- destruct (Nat.leb_spec chunkSize (length (sampleQueue fr))) as [Hge|]; [|reflexivity].
  cbv zeta. destruct (pf _ s) as [s' | e s']; [|reflexivity].
  apply IH; cbn [sampleQueue]; unfold subarray_from; rewrite length_skipn;
    change (Z.to_nat 512) with 512%nat; unfold chunkSize in Hge; lia.
Qed.

Lemma drain_leaves_less {S} (pf : list Z -> S -> outcome S) fuel : forall fr s fr' s',
  (length (sampleQueue fr) <= fuel)%nat ->
  while_frames pf fuel fr s = (fr', Ok s') ->
  (length (sampleQueue fr') < chunkSize)%nat.
Proof.
induction fuel as [|fuel IH]; intros fr s fr' s' Hfuel; cbn [while_frames].
- intros H. injection H as <- _. unfold chunkSize. lia.
- destruct (Nat.leb_spec chunkSize (length (sampleQueue fr))) as [Hge | Hlt].
  + cbv zeta. destruct (pf _ s) as [s1 | e s1]; [|discriminate].
    apply IH. cbn [sampleQueue]. unfold subarray_from. rewrite length_skipn.
    change (Z.to_nat 512) with 512%nat. unfold chunkSize in Hge. lia.
  + intros H. injection H as <- _. exact Hlt.
Qed.

(** The [while] hands out the full frames of the queue, in order, and
    stops with less than a frame. *)
Lemma while_frames_emit fuel : forall fr seen,
  (length (sampleQueue fr) <= fuel)%nat ->
  exists fs q,
    while_frames emit fuel fr seen
    = ({| leftover := leftover fr; sampleQueue := q |}, Ok (seen ++ fs))
    /\ sampleQueue fr = concat fs ++ q
    /\ Forall whole fs
    /\ (length q < chunkSize)%nat.
Proof.
induction fuel as [|fuel IH]; intros [lo q] seen Hfuel; cbn [sampleQueue leftover] in *.
- exists [], q. cbn [while_frames concat app].
  rewrite app_nil_r. repeat split; auto.
  unfold chunkSize. lia.
- cbn [while_frames sampleQueue leftover].
  destruct (Nat.leb_spec chunkSize (length q)) as [Hge | Hlt].
  + unfold emit at 1.
    destruct (IH {| leftover := lo; sampleQueue := subarray_from q 512 |}
                 (seen ++ [subarray q 0 512])) as (fs & q' & Hrun & Hq & Hfs & Hq').
    { cbn [sampleQueue]. unfold subarray_from.
      rewrite length_skipn. unfold chunkSize in Hge.
      change (Z.to_nat 512) with 512%nat. lia. }
    cbn [sampleQueue leftover] in *.
    exists (subarray q 0 512 :: fs), q'.
    rewrite Hrun, <- app_assoc. cbn [app concat].
    repeat split; auto.
    * rewrite <- app_assoc, <- Hq. unfold subarray, subarray_from.
      cbn [skipn Z.to_nat]. rewrite Nat.sub_0_r.
      symmetry. apply firstn_skipn.
    * constructor; [|assumption].
      unfold whole, subarray. cbn [skipn Z.to_nat].
      rewrite length_firstn. unfold chunkSize in *.
      change (Z.to_nat 512 - 0)%nat with 512%nat. lia.
  + exists [], q. cbn [concat app]. rewrite app_nil_r.
    repeat split; auto.
Qed.

Lemma framed_initial : framed [] initial [].
Proof.
exists [], 0%nat. cbn. repeat split; auto. unfold chunkSize. lia.
Qed.

Lemma framed_chunk bytes fr seen u8 :
  framed bytes fr seen ->
  exists fr' fs,
    drain emit (enqueue u8 fr) seen = (fr', Ok (seen ++ fs))
    /\ framed (bytes ++ u8) fr' (seen ++ fs).
Proof.
intros (pairs & k & Hb & Hk & Hlo & Hs & Hseen & Hq).
rewrite enqueue_eq. cbv zeta.
set (combined := leftover fr ++ u8).
set (n := (2 * (length combined / 2))%nat).
unfold drain.
match goal with
| |- context [while_frames emit ?fuel ?fr0 seen] =>
    destruct (@while_frames_emit fuel fr0 seen (le_n _))
      as (fs & q' & Hrun & Hcat & Hfs & Hq')
end.
cbn [sampleQueue leftover] in *.
eexists. exists fs. split; [exact Hrun|].
assert (Hn : (n <= length combined)%nat).
{ subst n. pose proof (Nat.div_mod_eq (length combined) 2). lia. }
assert (Hrest : (length combined - n <= 1)%nat).
{ subst n. pose proof (Nat.div_mod_eq (length combined) 2).
  pose proof (Nat.mod_upper_bound (length combined) 2). lia. }
exists (pairs ++ firstn n combined), (k + length combined / 2)%nat.
cbn [leftover sampleQueue].
repeat split.
- rewrite Hb, <- !app_assoc. f_equal.
  fold combined. symmetry. apply firstn_skipn.
- rewrite length_app, length_firstn, Hk. lia.
- rewrite length_skipn. lia.
- rewrite (samples_le_app k) by assumption.
  rewrite Hs, concat_app, <- !app_assoc. f_equal. exact Hcat.
- apply Forall_app. split; assumption.
- exact Hq'.
Qed.

Lemma for_await_emit chunks : forall bytes fr seen,
  framed bytes fr seen ->
  exists fr' seen',
    for_await emit (fun _ => false) chunks fr seen = Waiting fr' seen'
    /\ framed (bytes ++ concat chunks) fr' seen'.
Proof.
induction chunks as [|u8 rest IH]; intros bytes fr seen Hfr.
- exists fr, seen. cbn [for_await concat]. rewrite app_nil_r. auto.
- cbn [for_await concat].
  destruct (framed_chunk u8 Hfr) as (fr1 & fs & Hrun & Hfr1).
  rewrite Hrun.
  destruct (IH _ _ _ Hfr1) as (fr' & seen' & Hrest & Hfr').
  exists fr', seen'. rewrite Hrest, app_assoc. auto.
Qed.

Lemma app_inj_length {A} : forall (a b x y : list A),
  length a = length b -> a ++ x = b ++ y -> a = b /\ x = y.
Proof.
induction a as [|u a IH]; intros [|v b] x y Hlen Heq; try discriminate.
- auto.
- cbn [app] in Heq. injection Heq as -> Heq.
  cbn [length] in Hlen.
  destruct (IH b x y ltac:(lia) Heq) as [-> ->]. auto.
Qed.

(** Frames of 512 samples followed by less than a frame: a sample sequence
    has one such decomposition only. *)
Lemma whole_frames_unique : forall (fs1 fs2 : list (list Z)) q1 q2,
  Forall whole fs1 -> Forall whole fs2 ->
  (length q1 < chunkSize)%nat -> (length q2 < chunkSize)%nat ->
  concat fs1 ++ q1 = concat fs2 ++ q2 ->
  fs1 = fs2 /\ q1 = q2.
Proof.
induction fs1 as [|f1 fs1 IH]; intros [|f2 fs2] q1 q2 H1 H2 Hq1 Hq2 Heq;
  cbn [concat app] in Heq.
- auto.
- exfalso. apply Forall_inv in H2. unfold whole in H2.
  apply (f_equal (@length Z)) in Heq. rewrite !length_app in Heq. lia.
- exfalso. apply Forall_inv in H1. unfold whole in H1.
  apply (f_equal (@length Z)) in Heq. rewrite !length_app in Heq. lia.
- pose proof (Forall_inv H1) as Hf1. pose proof (Forall_inv H2) as Hf2.
  apply Forall_inv_tail in H1, H2. unfold whole in Hf1, Hf2.
  rewrite <- !app_assoc in Heq.
  apply app_inj_length in Heq; [|congruence].
  destruct Heq as [-> Heq].
  destruct (IH fs2 q1 q2 H1 H2 Hq1 Hq2 Heq) as [-> ->]. auto.
Qed.

End FramerFacts.

(** ** Properties of the framer *)

Section FramerProperties.
Import Framer.

Lemma length_concat_whole (fs : list (list Z)) :
  Forall whole fs -> length (concat fs) = (chunkSize * length fs)%nat.
Proof.
induction 1 as [|f fs Hf _ IH]; [reflexivity|].
cbn [concat length]. rewrite length_app, IH, Hf. lia.
Qed.

(** The frames of a stream are the full frames of its samples, whatever the
    chunks it came in. *)
Lemma frames_spec (chunks : list (list byte)) :
  exists q,
    samples_le (concat chunks) = concat (frames chunks) ++ q
    /\ Forall whole (frames chunks)
    /\ (length q < chunkSize)%nat.
Proof.
destruct (for_await_emit chunks framed_initial)
  as (fr & seen & Hrun & pairs & k & Hb & Hk & Hlo & Hs & Hseen & Hq).
unfold frames. rewrite Hrun.
exists (sampleQueue fr). repeat split; try assumption.
cbn [app] in Hb. rewrite Hb, (samples_le_app k) by assumption.
rewrite (samples_le_short (leftover fr)) by assumption.
now rewrite app_nil_r.
Qed.

Lemma frames_of_stream (chunks1 chunks2 : list (list byte)) :
  concat chunks1 = concat chunks2 -> frames chunks1 = frames chunks2.
Proof.
intros Heq.
destruct (frames_spec chunks1) as (q1 & Hs1 & Hw1 & Hq1).
destruct (frames_spec chunks2) as (q2 & Hs2 & Hw2 & Hq2).
rewrite Heq, Hs2 in Hs1.
symmetry in Hs1.
now destruct (@whole_frames_unique _ _ _ _ Hw1 Hw2 Hq1 Hq2 Hs1).
Qed.

(** Two bytes read as an [Int16Array] element. *)
Lemma to_int16_le_combine (lo hi : byte) :
  to_int16 (le_combine [lo; hi]) = le_int16 lo hi.
Proof.
pose proof (byte.unsigned_range lo) as Hlo.
pose proof (byte.unsigned_range hi) as Hhi.
change (2 ^ 8) with 256 in Hlo, Hhi.
set (n := byte.unsigned lo + 256 * byte.unsigned hi).
assert (Hmod : n mod 256 = byte.unsigned lo).
{ unfold n. Z.div_mod_to_equations. lia. }
assert (Hdiv : n / 256 = byte.unsigned hi).
{ unfold n. Z.div_mod_to_equations. lia. }
assert (Hall : (to_int16 (le_combine [byte.of_Z (n mod 256); byte.of_Z (n / 256)])
                =? le_int16 (byte.of_Z (n mod 256)) (byte.of_Z (n / 256))) = true).
{ apply (@all_from_spec
           (fun n => to_int16 (le_combine [byte.of_Z (n mod 256); byte.of_Z (n / 256)])
                     =? le_int16 (byte.of_Z (n mod 256)) (byte.of_Z (n / 256)))
           (Z.to_nat 65536) 0);
    [vm_compute; reflexivity | unfold n; lia]. }
rewrite Hmod, Hdiv, !byte.of_Z_unsigned in Hall.
now apply Z.eqb_eq.
Qed.

(** The samples of a stream, by position. *)
Lemma samples_le_stream n : forall bs,
  (length bs <= n)%nat -> samples_le bs = stream_samples bs (length bs / 2).
Proof.
induction n as [|n IH]; intros bs Hlen.
- destruct bs; [reflexivity | cbn in Hlen; lia].
- destruct bs as [|x [|y r]]; [reflexivity | reflexivity |].
  cbn [length] in Hlen.
  assert (Hhalf : (length (x :: y :: r) / 2 = Datatypes.S (length r / 2))%nat).
  { cbn [length]. change (Datatypes.S (Datatypes.S (length r))) with (2 + length r)%nat.
    replace (2 + length r)%nat with (1 * 2 + length r)%nat by lia.
    now rewrite Nat.div_add_l. }
  rewrite Hhalf. unfold stream_samples. cbn [samples_le seq map].
  f_equal; [apply to_int16_le_combine|].
  rewrite IH by lia. unfold stream_samples.
  rewrite <- seq_shift, map_map. apply map_ext. intros k.
  replace (2 * Datatypes.S k)%nat with (Datatypes.S (Datatypes.S (2 * k))) by lia.
  reflexivity.
Qed.

Lemma firstn_stream_samples bs m n :
  (m <= n)%nat -> firstn m (stream_samples bs n) = stream_samples bs m.
Proof.
intros Hmn. unfold stream_samples.
replace n with (m + (n - m))%nat by lia.
rewrite seq_app, map_app, firstn_app, length_map, length_seq, Nat.sub_diag.
cbn [firstn]. rewrite app_nil_r.
apply firstn_all2. rewrite length_map, length_seq. lia.
Qed.

(** C3: for every byte stream of total length L, in chunks of any sizes
    (empty ones included), the framer hands out exactly floor(L / 2 / 512)
    frames, each of 512 samples, and together they are the first
    512 * floor(L / 2 / 512) samples of the stream, in order, sample k being
    the little-endian signed 16-bit value of the bytes 2k and 2k + 1:
    nothing else is produced and a final partial frame is dropped. *)
Theorem framer_emits_whole_frames (chunks : list (list byte)) :
  let L := Z.of_nat (length (concat chunks)) in
  let out := frames chunks in
  Z.of_nat (length out) = L / 2 / 512
  /\ Forall (fun f => length f = 512%nat) out
  /\ concat out = stream_samples (concat chunks) (512 * length out).
Proof.
cbv zeta.
destruct (frames_spec chunks) as (q & Hs & Hw & Hq).
pose proof (length_concat_whole Hw) as Hlen.
unfold chunkSize in *.
set (bytes := concat chunks) in *.
assert (Hns : length (samples_le bytes) = (length bytes / 2)%nat).
{ apply length_samples_le.
  pose proof (Nat.div_mod_eq (length bytes) 2).
  pose proof (Nat.mod_upper_bound (length bytes) 2). lia. }
assert (Hm : length (frames chunks) = (length bytes / 2 / 512)%nat).
{ rewrite <- Hns, Hs, length_app, Hlen.
  apply Nat.div_unique with (r := length q); lia. }
split; [|split].
- rewrite Hm, !Nat2Z.inj_div. reflexivity.
- exact Hw.
- assert (Hle : (512 * length (frames chunks) <= length bytes / 2)%nat).
  { rewrite <- Hns, Hs, length_app, Hlen. lia. }
  rewrite <- (firstn_stream_samples bytes Hle).
  rewrite <- (samples_le_stream (n := length bytes) bytes (Nat.le_refl _)).
  rewrite Hs, <- Hlen.
  rewrite firstn_app, firstn_all, Nat.sub_diag. cbn [firstn].
  now rewrite app_nil_r.
Qed.

(** C4: for every byte sequence and every split point, the two pieces fed
    as two successive chunks give the same frames as the whole sequence fed
    as one chunk. *)
Theorem framer_split_invariant (bytes : list byte) (n : nat) :
  frames [firstn n bytes; skipn n bytes] = frames [bytes].
Proof.
apply frames_of_stream.
cbn [concat]. rewrite !app_nil_r. apply firstn_skipn.
Qed.

(** The same, said of two chunks and their concatenation. *)
Lemma framer_two_chunks (a b : list byte) : frames [a; b] = frames [a ++ b].
Proof.
apply frames_of_stream. cbn [concat]. now rewrite !app_nil_r.
Qed.

(** Scenario S6: 1023 bytes, then 1 byte: one frame in all. *)
Example framer_1023_then_1 :
  length (frames [repeat Byte.x01 1023; [Byte.x02]]) = 1%nat.
Proof. vm_compute. reflexivity. Qed.

End FramerProperties.

(** Reduces the fields of an updated record, and nothing else. *)
Ltac fields :=
  cbn [opts running abort segmentsSaved lastSegmentPath session stateTensor
       probBuffer framing isRecording segmentBuffers speechFrames
       silenceFrames segmentIndex lastErr flushes disk
       set_opts set_running set_abort set_segmentsSaved set_lastSegmentPath
       set_session set_stateTensor set_probBuffer set_framing set_isRecording
       set_segmentBuffers set_speechFrames set_silenceFrames set_segmentIndex
       set_lastErr set_flushes set_disk fst snd].

Tactic Notation "fields" "in" hyp(H) :=
  cbn [opts running abort segmentsSaved lastSegmentPath session stateTensor
       probBuffer framing isRecording segmentBuffers speechFrames
       silenceFrames segmentIndex lastErr flushes disk
       set_opts set_running set_abort set_segmentsSaved set_lastSegmentPath
       set_session set_stateTensor set_probBuffer set_framing set_isRecording
       set_segmentBuffers set_speechFrames set_silenceFrames set_segmentIndex
       set_lastErr set_flushes set_disk fst snd] in H.

(** ** Facts about the segment recorder *)

Section RecorderFacts.

Lemma total_samples (bufs : list (list Z)) (n : nat) :
  fold_left (fun s b => (s + length b)%nat) bufs n = (n + length (concat bufs))%nat.
Proof.
revert n. induction bufs as [|b bufs IH]; intros n; cbn [fold_left concat].
- cbn. lia.
- rewrite IH, length_app. lia.
Qed.

Lemma merge_copy (bufs : list (list Z)) : forall done : list Z,
  fold_left
    (fun (st : list Z * nat) buf =>
       (set_at (fst st) buf (snd st), (snd st + length buf)%nat))
    bufs (done ++ repeat 0 (length (concat bufs)), length done)
  = (done ++ concat bufs, (length done + length (concat bufs))%nat).
Proof.
induction bufs as [|b bufs IH]; intros done; cbn [fold_left concat fst snd].
- cbn [repeat length]. now rewrite Nat.add_0_r.
- rewrite length_app, repeat_app.
  replace (set_at (done ++ repeat 0 (length b) ++ repeat 0 (length (concat bufs)))
                  b (length done))
    with ((done ++ b) ++ repeat 0 (length (concat bufs))).
  + rewrite <- (length_app done b), IH, <- app_assoc, length_app.
    f_equal. lia.
  + rewrite (app_assoc done), <- app_assoc.
    rewrite set_at_app_l by (rewrite length_app, repeat_length; lia).
    rewrite set_at_app_r by (now rewrite repeat_length).
    now rewrite <- app_assoc.
Qed.

(** The merged array is the concatenation of the buffers. *)
Lemma merge_concat (bufs : list (list Z)) : merge bufs = concat bufs.
Proof.
unfold merge. cbv zeta. rewrite total_samples.
exact (f_equal fst (merge_copy bufs [])).
Qed.

End RecorderFacts.

(** ** [stopRecording]: what is done before the write and what after *)

Section FlushOrder.

(** C10: in [stopRecording], [isRecording] is cleared and the frame buffer
    is emptied before [Bun.write] is called, while [segmentsSaved] and
    [lastSegmentPath] change only once the write has completed; so when the
    write throws, the two status fields are as before, the frames are gone
    and the recorder is no longer in Recording. *)
Theorem stopRecording_discards_before_write (env : Env) (c : Controller) :
  isRecording c = true -> flush_order env c.
Proof.
intros Hrec. unfold flush_order. cbv zeta.
split; [|split].
- unfold stopRecording_begin. fields. rewrite merge_concat. auto.
- intros Hok. unfold stopRecording. rewrite Hrec. cbn [negb].
  unfold stopRecording_begin, Bun_write, stopRecording_end. fields.
  rewrite Hok. fields.
  eexists. split; [reflexivity|]. fields.
  repeat split.
  unfold files. fields. rewrite filter_app. cbn [filter w_ok]. reflexivity.
- intros Hko. unfold stopRecording. rewrite Hrec. cbn [negb].
  unfold stopRecording_begin, Bun_write. fields.
  rewrite Hko. fields.
  do 2 eexists. split; [reflexivity|]. fields.
  repeat split.
  unfold files. fields. rewrite filter_app. cbn [filter w_ok].
  now rewrite app_nil_r.
Qed.

End FlushOrder.

Lemma stopRecording_discards_before_write_witness :
  flush_order Scenario.disk_full (Scenario.recording Scenario.disk_full).
Proof.
apply stopRecording_discards_before_write.
vm_compute. reflexivity.
Defined.

(** ** Options reached through [update] *)

Section Options.

Lemma default_thresholds_ordered : thresholds_ordered defaultVADOptions.
Proof. vm_compute. reflexivity. Qed.

Lemma assign_keeps_thresholds o partial :
  keeps_thresholds partial ->
  speechThreshold (assign o partial) = speechThreshold o
  /\ silenceThreshold (assign o partial) = silenceThreshold o.
Proof.
intros [Hs Hq]. unfold assign. cbn [speechThreshold silenceThreshold].
now rewrite Hs, Hq.
Qed.

(** An update that names no threshold leaves them in order if they were. *)
Lemma keeps_thresholds_in_order o partial :
  thresholds_ordered o -> keeps_thresholds partial -> in_order_after o partial.
Proof.
intros Ho [Hs Hq]. unfold in_order_after. now rewrite Hs, Hq.
Qed.

(** [update] checks nothing but [running]: when the controller is not
    running it is accepted whatever the values, assigns the keys given, and
    the thresholds are in order afterwards exactly when those it leaves
    are. *)
Lemma update_validates_nothing (c : Controller) (partial : PartialVADOptions) :
  running c = false ->
  exists c',
    update partial c = Ok c'
    /\ opts c' = assign (opts c) partial
    /\ running c' = false
    /\ (thresholds_ordered (opts c') <-> in_order_after (opts c) partial).
Proof.
intros Hrun. unfold update. rewrite Hrun.
eexists. split; [reflexivity|]. fields.
split; [reflexivity|]. split; [exact Hrun|]. reflexivity.
Qed.

Lemma configured_in_order_idle (c : Controller) :
  configured_in_order c -> running c = false.
Proof.
induction 1 as [|c partial c' Hc IH Hp Hup]; [reflexivity|].
destruct (@update_validates_nothing c partial IH) as (c1 & Hup1 & _ & Hr & _).
congruence.
Qed.

Lemma configured_in_order_ordered (c : Controller) :
  configured_in_order c -> thresholds_ordered (opts c).
Proof.
induction 1 as [|c partial c' Hc IH Hp Hup].
- exact default_thresholds_ordered.
- destruct (@update_validates_nothing c partial (configured_in_order_idle Hc))
    as (c1 & Hup1 & _ & _ & Hiff).
  rewrite Hup1 in Hup. injection Hup as <-. now apply Hiff.
Qed.

(** The updates that name no threshold are among those that leave the
    thresholds in order. *)
Lemma configured_keeps_in_order (c : Controller) :
  configured keeps_thresholds c -> configured_in_order c.
Proof.
induction 1 as [|c partial c' Hc IH Hp Hup].
- apply in_order_new.
- apply in_order_update with (c := c) (partial := partial);
    [exact IH | | exact Hup].
  apply keeps_thresholds_in_order; [|exact Hp].
  now apply configured_in_order_ordered.
Qed.

(** C9, as amended: the default configuration satisfies silenceThreshold <
    speechThreshold, and so does every configuration reached from it through
    accepted [update] calls each of which leaves the two thresholds in order
    (the silence threshold it gives, or else the current one, below the
    speech threshold it gives, or else the current one).  [update] itself
    checks nothing but [running]: in such a configuration every call is
    accepted whatever its values, assigns the keys given, and the invariant
    holds afterwards exactly when the call leaves the thresholds in
    order. *)
Theorem update_keeps_threshold_order (c : Controller) :
  configured_in_order c ->
  thresholds_ordered (opts c)
  /\ forall partial,
       exists c',
         update partial c = Ok c'
         /\ opts c' = assign (opts c) partial
         /\ (thresholds_ordered (opts c') <-> in_order_after (opts c) partial).
Proof.
intros Hc. split.
- now apply configured_in_order_ordered.
- intros partial.
  destruct (@update_validates_nothing c partial (configured_in_order_idle Hc))
    as (c1 & Hup1 & Ho & _ & Hiff).
  exists c1. auto.
Qed.

End Options.

(** An update that lowers the speech threshold to 0.15, above the silence
    threshold of 0.05. *)
Lemma update_keeps_threshold_order_witness :
  let c := state_of (update Scenario.low_speech_threshold (createVADController None)) in
  thresholds_ordered (opts c)
  /\ forall partial,
       exists c',
         update partial c = Ok c'
         /\ opts c' = assign (opts c) partial
         /\ (thresholds_ordered (opts c') <-> in_order_after (opts c) partial).
Proof.
cbv zeta.
apply update_keeps_threshold_order.
apply in_order_update with (c := createVADController None)
                           (partial := Scenario.low_speech_threshold).
- apply in_order_new.
- vm_compute. reflexivity.
- reflexivity.
Defined.

(** C9, as stated, fails: [update] accepts any thresholds. *)
Lemma update_breaks_threshold_order :
  configured any_partial (state_of (update Scenario.loud_silence (createVADController None)))
  /\ ~ thresholds_ordered
         (opts (state_of (update Scenario.loud_silence (createVADController None)))).
Proof.
split.
- apply configured_update with (c := createVADController None)
                               (partial := Scenario.loud_silence).
  + apply configured_new.
  + exact I.
  + reflexivity.
- unfold thresholds_ordered. vm_compute. discriminate.
Qed.

(** ** The state machine in [Idle] *)

Section Hysteresis.
Variable env : Env.

Lemma above_cons c rawProb raws :
  above c (rawProb :: raws)
  = PrimFloat.ltb (speechThreshold (opts c)) (snd (smooth rawProb c))
    :: above (fst (smooth rawProb c)) raws.
Proof. reflexivity. Qed.

(** One frame in [Idle] that does not complete the required run of speech
    frames: the machine stays in [Idle] and counts. *)
Lemma hysteresis_idle rawProb frame c :
  let b := PrimFloat.ltb (speechThreshold (opts c)) (snd (smooth rawProb c)) in
  isRecording c = false ->
  (b = true -> speechFrames c + 1 < requiredSpeechFrames (opts c)) ->
  exists c',
    hysteresis env rawProb frame c = Ok c'
    /\ isRecording c' = false
    /\ opts c' = opts c
    /\ probBuffer c' = probBuffer (fst (smooth rawProb c))
    /\ speechFrames c' = (if b then speechFrames c + 1 else 0).
Proof.
cbv zeta. intros Hidle Hfew.
unfold hysteresis, smooth in *. cbv zeta. fields. fields in Hfew.
unfold idle_step. fields. rewrite Hidle. cbn [negb].
destruct (PrimFloat.ltb _ _).
- fields. specialize (Hfew eq_refl).
  destruct (Z.leb_spec (requiredSpeechFrames (opts c)) (speechFrames c + 1)); [lia|].
  unfold recording_step. fields. rewrite Hidle.
  eexists. split; [reflexivity|]. fields. auto.
- unfold recording_step. fields. rewrite Hidle.
  eexists. split; [reflexivity|]. fields. auto.
Qed.

(** No two consecutive frames above the threshold: no speech-start. *)
Lemma isolated_never_starts trace : forall c (prev : bool),
  isRecording c = false ->
  2 <= requiredSpeechFrames (opts c) ->
  speechFrames c = (if prev then 1 else 0) ->
  isolated prev (above c (map fst trace)) ->
  never_starts env c trace.
Proof.
induction trace as [|[rawProb frame] rest IH]; intros c prev Hidle Hreq Hcount Hiso n.
- destruct n; exact Hidle.
- destruct n as [|n]; [exact Hidle|].
  cbn [firstn run_probs].
  cbn [map fst] in Hiso. rewrite above_cons in Hiso.
  destruct Hiso as [Hprev Hiso].
  set (b := PrimFloat.ltb (speechThreshold (opts c)) (snd (smooth rawProb c))) in *.
  destruct (@hysteresis_idle rawProb frame c Hidle) as (c' & Hrun & Hidle' & Hopts & Hbuf & Hcnt).
  { fold b. intros Hb. destruct prev; [|lia].
    specialize (Hprev eq_refl). congruence. }
  fold b in Hcnt. rewrite Hrun.
  apply (IH c' b); try assumption.
  + now rewrite Hopts.
  + rewrite Hcnt. destruct b; [|reflexivity].
    destruct prev; [now specialize (Hprev eq_refl)|]. lia.
  + unfold above in *. now rewrite Hopts, Hbuf.
Qed.

Lemma isolated_all_false flags : forall prev,
  (forall i, nth i flags false = false) -> isolated prev flags.
Proof.
induction flags as [|b rest IH]; intros prev Hall; cbn [isolated]; [exact I|].
split.
- intros _. exact (Hall 0%nat).
- apply IH. intros i. exact (Hall (S i)).
Qed.

Lemma isolated_single flags : forall k,
  (forall i, i <> k -> nth i flags false = false) -> isolated false flags.
Proof.
induction flags as [|b rest IH]; intros k Hk; cbn [isolated]; [exact I|].
split; [discriminate|].
destruct k as [|k].
- apply isolated_all_false. intros i. apply (Hk (S i)). discriminate.
- assert (Hb : b = false) by (apply (Hk 0%nat); discriminate).
  rewrite Hb. apply (IH k). intros i Hi. apply (Hk (S i)). congruence.
Qed.

(** C5, as amended: for every trace of raw probabilities in which the
    smoothed probability (the mean of the last five raw ones, which is what
    the machine compares with its thresholds) is above speechThreshold at a
    single frame [k] at most, and every configuration with
    requiredSpeechFrames >= 2, the machine started in Idle with no speech
    frame counted never goes from Idle to Recording. *)
Theorem single_smoothed_spike_never_starts
  (c : Controller) (trace : list (float * list Z)) (k : nat) :
  isRecording c = false ->
  speechFrames c = 0 ->
  2 <= requiredSpeechFrames (opts c) ->
  (forall i, i <> k ->
     PrimFloat.ltb (speechThreshold (opts c))
       (nth i (smoothed (probBuffer c) (map fst trace)) 0%float) = false) ->
  never_starts env c trace.
Proof.
intros Hidle Hcount Hreq Hsingle.
apply isolated_never_starts with (prev := false); try assumption.
apply isolated_single with (k := k).
intros i Hi. unfold above.
destruct (Nat.lt_ge_cases i (length (smoothed (probBuffer c) (map fst trace))))
  as [Hlt | Hge].
- rewrite nth_indep with (d' := PrimFloat.ltb (speechThreshold (opts c)) 0%float)
    by (now rewrite length_map).
  rewrite map_nth. now apply Hsingle.
- apply nth_overflow. now rewrite length_map.
Qed.

End Hysteresis.

(** One raw spike of 0.9 after one frame at the silence threshold, with the
    default options: the smoothed probability is above 0.35 at frame 1 only
    (0.05, 0.475, 0.333, 0.2625, 0.22, 0.22, 0.05). *)
Lemma single_smoothed_spike_never_starts_witness :
  never_starts Scenario.healthy (createVADController None)
    (with_frame [] (stray_spike 0.05%float 1 5 0.9%float)).
Proof.
apply single_smoothed_spike_never_starts with (k := 1%nat).
- reflexivity.
- reflexivity.
- cbn. lia.
- intros i Hi.
  destruct i as [|[|[|[|[|[|[|[|i]]]]]]]]; try reflexivity.
  congruence.
Defined.

(** C5, as stated, fails.  With the default options (requiredSpeechFrames
    is 2) a single raw probability 0.99 between two frames at the silence
    threshold 0.05 starts a recording: the smoothed probabilities are 0.05,
    0.52 and 0.363, the last two above 0.35.  And far from the start of the
    stream, with speechThreshold lowered to 0.15, a single raw 0.9 among
    frames at 0 gives five smoothed probabilities of 0.18 in a row. *)
Lemma stray_raw_spike_starts_recording :
  (2 <= requiredSpeechFrames defaultVADOptions
   /\ PrimFloat.ltb (speechThreshold defaultVADOptions) 0.99%float = true
   /\ ~ never_starts Scenario.healthy (createVADController None)
          (with_frame [] (stray_spike 0.05%float 1 1 0.99%float)))
  /\ (2 <= requiredSpeechFrames (opts Scenario.sensitive)
      /\ thresholds_ordered (opts Scenario.sensitive)
      /\ PrimFloat.ltb (speechThreshold (opts Scenario.sensitive)) 0.9%float = true
      /\ ~ never_starts Scenario.healthy Scenario.sensitive
             (with_frame [] (stray_spike 0%float 5 5 0.9%float))).
Proof.
split.
- split; [cbn; lia|]. split; [reflexivity|].
  intros Hnever. specialize (Hnever 3%nat).
  vm_compute in Hnever. discriminate Hnever.
- split; [cbn; lia|]. split; [vm_compute; reflexivity|]. split; [reflexivity|].
  intros Hnever. specialize (Hnever 7%nat).
  vm_compute in Hnever. discriminate Hnever.
Qed.

(** ** The writes of the pipeline *)

Section PipelineFacts.
Variable env : Env.

Lemma step_summary_refl c : step_summary c (Ok c).
Proof.
repeat split. exists []. rewrite app_nil_r. split; [reflexivity|constructor].
Qed.

Lemma step_summary_throw e c : step_summary c (Throw e c).
Proof.
repeat split. exists []. rewrite app_nil_r. split; [reflexivity|].
left. constructor.
Qed.

Lemma step_summary_trans c c1 r :
  step_summary c (Ok c1) -> step_summary c1 r -> step_summary c r.
Proof.
intros (Hr1 & Ha1 & Ho1 & evs1 & Hd1 & Hok1) (Hr2 & Ha2 & Ho2 & evs2 & Hd2 & Hok2).
cbn [state_of] in *.
repeat split; try congruence.
exists (evs1 ++ evs2). split; [rewrite Hd2, Hd1; now rewrite app_assoc|].
destruct r as [c2 | e c2].
- now apply Forall_app.
- destruct Hok2 as [Hok2 | [(oks & ev & -> & Hoks & Hev) Hrec]].
  + left. now apply Forall_app.
  + right. split; [|assumption].
    exists (evs1 ++ oks), ev. rewrite app_assoc.
    repeat split; try assumption. now apply Forall_app.
Qed.

(** Assignments that touch none of the fields a summary speaks of. *)
Lemma step_summary_same c c1 r :
  running c1 = running c -> abort c1 = abort c -> opts c1 = opts c ->
  disk c1 = disk c ->
  step_summary c1 r -> step_summary c r.
Proof.
intros Hr Ha Ho Hd (Hr2 & Ha2 & Ho2 & evs & Hd2 & Hok).
repeat split; try congruence.
exists evs. split; [congruence | assumption].
Qed.

(** [stopRecording] in Recording: one write, of the segment in progress. *)
Lemma stopRecording_flush c :
  isRecording c = true ->
  let c' := state_of (stopRecording env c) in
  disk c' = disk c ++ [segment_write env c []]
  /\ isRecording c' = false
  /\ running c' = running c /\ abort c' = abort c /\ opts c' = opts c
  /\ stopRecording env c
     = if write_ok env (flushes c) then Ok c' else Throw "Bun.write failed" c'.
Proof.
intros Hrec. cbv zeta.
unfold stopRecording, stopRecording_begin, Bun_write, stopRecording_end, segment_write.
rewrite Hrec. cbn [negb]. cbv zeta. fields.
rewrite merge_concat, app_nil_r.
destruct (write_ok env (flushes c)); cbn [state_of]; fields; repeat split.
Qed.

Lemma stopRecording_idle c : isRecording c = false -> stopRecording env c = Ok c.
Proof. intros H. unfold stopRecording. now rewrite H. Qed.

Lemma stopRecording_summary c : step_summary c (stopRecording env c).
Proof.
destruct (isRecording c) eqn:Hrec.
- destruct (stopRecording_flush c Hrec) as (Hd & Hr & Hrun & Hab & Hop & Heq).
  cbv zeta in *.
  set (c' := state_of (stopRecording env c)) in *.
  repeat split; try assumption.
  exists [segment_write env c []]. split; [assumption|].
  rewrite Heq.
  assert (Hev : w_ok (segment_write env c []) = write_ok env (flushes c)) by reflexivity.
  destruct (write_ok env (flushes c)).
  + constructor; [exact Hev | constructor].
  + right. split; [|exact Hr].
    exists [], (segment_write env c []). cbn [app].
    repeat split; [constructor | exact Hev].
- rewrite stopRecording_idle by assumption. apply step_summary_refl.
Qed.

Lemma hysteresis_summary rawProb frame c :
  step_summary c (hysteresis env rawProb frame c).
Proof.
unfold hysteresis, smooth. cbv zeta.
set (prob := mean (push_prob rawProb (probBuffer c))).
set (c1 := set_probBuffer _ c).
apply step_summary_same with (c1 := idle_step prob c1).
- unfold idle_step, startRecording, c1.
  repeat (match goal with |- context [if ?b then _ else _] => destruct b end; fields);
    reflexivity.
- unfold idle_step, startRecording, c1.
  repeat (match goal with |- context [if ?b then _ else _] => destruct b end; fields);
    reflexivity.
- unfold idle_step, startRecording, c1.
  repeat (match goal with |- context [if ?b then _ else _] => destruct b end; fields);
    reflexivity.
- unfold idle_step, startRecording, c1.
  repeat (match goal with |- context [if ?b then _ else _] => destruct b end; fields);
    reflexivity.
- generalize (idle_step prob c1). intros c2. unfold recording_step.
  destruct (isRecording c2); [|apply step_summary_refl].
  cbv zeta. fields.
  destruct (PrimFloat.ltb prob (silenceThreshold (opts c2))).
  + destruct (requiredSilenceFrames (opts c2) <=? silenceFrames c2 + 1).
    * eapply step_summary_same; [| | | |apply stopRecording_summary]; reflexivity.
    * eapply step_summary_same; [| | | |apply step_summary_refl]; reflexivity.
  + eapply step_summary_same; [| | | |apply step_summary_refl]; reflexivity.
Qed.

Lemma processFrame_summary frame c : step_summary c (processFrame env frame c).
Proof.
unfold processFrame.
destruct (session c); [|apply step_summary_throw].
destruct (stateTensor c) as [state|]; [|apply step_summary_throw].
cbv zeta.
destruct (session_run env state (to_f32 frame)) as [results|];
  [|apply step_summary_throw].
destruct (r_state results) as [t|].
- eapply step_summary_same; [| | | |apply hysteresis_summary]; reflexivity.
- apply hysteresis_summary.
Qed.

Lemma while_frames_summary fuel : forall fr c,
  step_summary c (snd (while_frames (processFrame env) fuel fr c)).
Proof.
induction fuel as [|fuel IH]; intros fr c; cbn [while_frames].
- apply step_summary_refl.
- destruct (chunkSize <=? length (sampleQueue fr))%nat; [|apply step_summary_refl].
  cbv zeta.
  pose proof (processFrame_summary (subarray (sampleQueue fr) 0 512) c) as Hstep.
  destruct (processFrame env (subarray (sampleQueue fr) 0 512) c) as [c1 | e c1].
  + eapply step_summary_trans; [exact Hstep | apply IH].
  + exact Hstep.
Qed.

Lemma for_await_summary chunks : forall fr c,
  step_summary c (loop_outcome (for_await (processFrame env) abort chunks fr c)).
Proof.
induction chunks as [|chunk rest IH]; intros fr c; cbn [for_await].
- apply step_summary_refl.
- destruct (abort c); [apply step_summary_refl|].
  unfold drain.
  pose proof (while_frames_summary
                (length (sampleQueue (enqueue chunk fr))) (enqueue chunk fr) c) as Hstep.
  destruct (while_frames (processFrame env) _ (enqueue chunk fr) c) as [fr1 [c1 | e c1]];
    cbn [snd] in Hstep.
  + eapply step_summary_trans; [exact Hstep | apply IH].
  + exact Hstep.
Qed.

(** [finally]: the loop is over, the recorder is out of Recording, and the
    segment in progress, if any, has been written once. *)
Lemma finish_spec c :
  running (finish env c) = false
  /\ isRecording (finish env c) = false
  /\ opts (finish env c) = opts c
  /\ (if isRecording c
      then disk (finish env c) = disk c ++ [segment_write env c []]
      else disk (finish env c) = disk c).
Proof.
unfold finish. cbv zeta.
set (c1 := set_running false c).
destruct (isRecording c) eqn:Hrec.
- destruct (stopRecording_flush c1) as (Hd & Hr & Hrun & Hab & Hop & _);
    [exact Hrec|].
  cbv zeta in *.
  replace (match stopRecording env c1 with Ok c' => c' | Throw _ c' => c' end)
    with (state_of (stopRecording env c1)) by reflexivity.
  repeat split; try assumption.
- rewrite stopRecording_idle by exact Hrec.
  repeat split. exact Hrec.
Qed.

End PipelineFacts.

(** ** A write failure and the loop *)

Section WriteFailure.
Variable env : Env.

Lemma writes_ok_no_failure evs :
  writes_ok evs -> ~ (exists ev, In ev evs /\ w_ok ev = false).
Proof.
intros Hok (ev & Hin & Hko).
unfold writes_ok in Hok. rewrite Forall_forall in Hok.
specialize (Hok ev Hin). congruence.
Qed.

Lemma failure_after_ok oks x :
  writes_ok oks ->
  (exists ev, In ev (oks ++ [x]) /\ w_ok ev = false) ->
  fails_last (oks ++ [x]).
Proof.
intros Hok (ev & Hin & Hko).
exists oks, x. repeat split; try assumption.
apply in_app_or in Hin. destruct Hin as [Hin | [<- | []]]; [|assumption].
exfalso. apply (writes_ok_no_failure Hok). eauto.
Qed.

(** C8 fails on the code, in every run in which a write made by a flush of
    the running loop fails.  The policy for IOFailed is that the segment is
    lost and the pipeline continues, and the flush made in [finally] does
    swallow the error; but [processFrame] awaits [stopRecording] with no
    [try] of its own, so the rejection leaves the [while] and the
    [for await]: the pipeline does not continue, the failed write is the
    last write of the run, [running] is false, the recorder is out of
    Recording, and whatever the stream brings next is not processed. *)
Theorem write_failure_ends_pipeline (chunks : list (list byte)) (c : Controller) :
  running c = true ->
  existsb failed (new_writes c (loop env chunks c)) = true ->
  ~ pipeline_continues env chunks c
  /\ running (loop env chunks c) = false
  /\ isRecording (loop env chunks c) = false
  /\ fails_last (new_writes c (loop env chunks c))
  /\ forall more, loop env more (loop env chunks c) = loop env chunks c.
Proof.
intros Hrun Hfail.
assert (Hsome : forall evs,
          disk (loop env chunks c) = disk c ++ evs ->
          exists ev, In ev evs /\ w_ok ev = false).
{ intros evs Hd. unfold new_writes in Hfail.
  rewrite Hd, skipn_app, Nat.sub_diag, skipn_all in Hfail. cbn [app skipn] in Hfail.
  apply existsb_exists in Hfail. destruct Hfail as (ev & Hin & Hko).
  exists ev. split; [assumption|].
  unfold failed in Hko. now destruct (w_ok ev). }
assert (Hnew : forall evs,
          disk (loop env chunks c) = disk c ++ evs ->
          new_writes c (loop env chunks c) = evs).
{ intros evs Hd. unfold new_writes.
  now rewrite Hd, skipn_app, Nat.sub_diag, skipn_all. }
assert (Hmain : running (loop env chunks c) = false
                /\ isRecording (loop env chunks c) = false
                /\ fails_last (new_writes c (loop env chunks c))).
{ revert Hsome Hnew. unfold loop. rewrite Hrun. cbn [negb].
  pose proof (for_await_summary env chunks (framing c) c) as Hsum.
  destruct (for_await (processFrame env) abort chunks (framing c) c)
    as [fr c1 | fr c1 | e fr c1];
    destruct Hsum as (_ & _ & _ & evs0 & Hd0 & Hok0); cbn [loop_outcome state_of] in *.
  - fields. intros Hsome _. exfalso.
    apply (writes_ok_no_failure Hok0). now apply Hsome.
  - destruct (finish_spec env (set_framing fr c1)) as (Hr & Hrec & _ & Hd).
    fields in Hd. intros Hsome Hnew.
    repeat split; try assumption.
    destruct (isRecording c1); rewrite Hd0 in Hd.
    + rewrite <- app_assoc in Hd. rewrite (Hnew _ Hd).
      apply failure_after_ok; [assumption | now apply Hsome].
    + exfalso. apply (writes_ok_no_failure Hok0). now apply Hsome.
  - destruct (finish_spec env (set_lastErr (Some e) (set_framing fr c1)))
      as (Hr & Hrec & _ & Hd).
    fields in Hd. intros Hsome Hnew.
    repeat split; try assumption.
    destruct Hok0 as [Hok0 | [Hlast Hidle]].
    + destruct (isRecording c1); rewrite Hd0 in Hd.
      * rewrite <- app_assoc in Hd. rewrite (Hnew _ Hd).
        apply failure_after_ok; [assumption | now apply Hsome].
      * exfalso. apply (writes_ok_no_failure Hok0). now apply Hsome.
    + rewrite Hidle, Hd0 in Hd. now rewrite (Hnew _ Hd). }
destruct Hmain as (Hr & Hrec & Hlast).
split; [unfold pipeline_continues; rewrite Hr; discriminate|].
do 3 (split; [assumption|]).
intros more. unfold loop at 1. now rewrite Hr.
Qed.

End WriteFailure.

(** The segment in progress ends after thirty frames of silence, its write
    fails, and three more frames of speech arrive. *)
Lemma write_failure_ends_pipeline_witness :
  let env := Scenario.first_write_fails in
  let c := Scenario.recording env in
  let chunks := repeat Scenario.silence 30 ++ repeat Scenario.speech 3 in
  ~ pipeline_continues env chunks c
  /\ running (loop env chunks c) = false
  /\ isRecording (loop env chunks c) = false
  /\ fails_last (new_writes c (loop env chunks c))
  /\ forall more, loop env more (loop env chunks c) = loop env chunks c.
Proof.
cbv zeta.
apply write_failure_ends_pipeline.
- vm_compute. reflexivity.
- vm_compute. reflexivity.
Defined.

(** The run of the failing input: the segment in progress ends after thirty
    frames of silence and its write fails; the loop is then over, and the
    speech that follows in the stream is not processed although later
    writes would succeed. *)
Lemma failed_write_stops_pipeline :
  let env := Scenario.first_write_fails in
  let c := Scenario.recording env in
  let chunks := repeat Scenario.silence 30 in
  running c = true
  /\ map w_ok (new_writes c (loop env chunks c)) = [false]
  /\ ~ pipeline_continues env chunks c
  /\ loop env (repeat Scenario.speech 3 ++ repeat Scenario.silence 30)
          (loop env chunks c)
     = loop env chunks c.
Proof.
cbv zeta.
assert (Hstop : running (loop Scenario.first_write_fails
                           (repeat Scenario.silence 30)
                           (Scenario.recording Scenario.first_write_fails)) = false)
  by (vm_compute; reflexivity).
split; [vm_compute; reflexivity|].
split; [vm_compute; reflexivity|].
split.
- unfold pipeline_continues. rewrite Hstop. discriminate.
- unfold loop at 1. now rewrite Hstop.
Qed.

(** ** [stop] while recording *)

Section StopWhileRecording.
Variable env : Env.
Variable c0 : Controller.

Lemma segment_write_since pre c :
  recording_since c0 pre c -> segment_write env c [] = segment_write env c0 pre.
Proof.
intros (_ & _ & Hf & Ho & Hi & Hb). unfold segment_write.
now rewrite Hf, Ho, Hi, Hb, app_nil_r.
Qed.

Lemma flushed_since_step pre c r :
  flushed_since env c0 pre c -> step_summary c r -> flushed_since env c0 pre (state_of r).
Proof.
intros [more Hd] (_ & _ & _ & evs & Hd' & _).
exists (more ++ evs). rewrite Hd', Hd, <- app_assoc. reflexivity.
Qed.

Lemma hysteresis_recording pre c rawProb frame :
  recording_since c0 pre c ->
  match hysteresis env rawProb frame c with
  | Ok c' => recording_since c0 (pre ++ [frame]) c' \/ flushed_since env c0 (pre ++ [frame]) c'
  | Throw _ c' => flushed_since env c0 (pre ++ [frame]) c'
  end.
Proof.
intros (Hrec & Hd & Hf & Ho & Hi & Hb).
unfold hysteresis, smooth. cbv zeta.
unfold idle_step. fields. rewrite Hrec. cbn [negb].
unfold recording_step. fields. rewrite Hrec. cbv zeta. fields.
set (c1 := set_segmentBuffers _ _).
assert (H1 : recording_since c0 (pre ++ [frame]) c1).
{ unfold recording_since, c1. fields. rewrite Hb, app_assoc. auto 10. }
destruct (PrimFloat.ltb _ _).
- destruct (_ <=? _).
  + set (c2 := set_silenceFrames 0 _).
    assert (H2 : recording_since c0 (pre ++ [frame]) c2) by exact H1.
    destruct (stopRecording_flush env c2) as (Hd2 & _ & _ & _ & _ & Heq);
      [apply H2|].
    cbv zeta in *. rewrite (segment_write_since H2) in Hd2.
    destruct H2 as (_ & Hd2' & _). rewrite Hd2' in Hd2.
    rewrite Heq.
    destruct (write_ok env (flushes c2)); [right|]; exists []; exact Hd2.
  + left. exact H1.
- left. exact H1.
Qed.

Lemma processFrame_recording pre c frame :
  recording_since c0 pre c ->
  match processFrame env frame c with
  | Ok c' => recording_since c0 (pre ++ [frame]) c' \/ flushed_since env c0 (pre ++ [frame]) c'
  | Throw _ c' => recording_since c0 pre c' \/ flushed_since env c0 (pre ++ [frame]) c'
  end.
Proof.
intros Hrec. unfold processFrame.
destruct (session c); [|now left].
destruct (stateTensor c) as [state|]; [|now left].
cbv zeta.
destruct (session_run env state (to_f32 frame)) as [results|]; [|now left].
set (c1 := match r_state results with Some t => _ | None => c end).
assert (H1 : recording_since c0 pre c1).
{ unfold c1. destruct (r_state results); exact Hrec. }
pose proof (@hysteresis_recording pre c1 (or_keep (r_output results) 0%float)
              frame H1) as Hstep.
destruct (hysteresis env _ frame c1); [exact Hstep | now right].
Qed.

(** The frames still queued are processed in order; the segment in progress
    is extended by some of them, [pre1], and then either still open or
    flushed once with exactly those. *)
Lemma while_frames_recording fuel : forall fr c pre,
  recording_since c0 pre c ->
  exists pre1 rest,
    sampleQueue fr = concat pre1 ++ rest
    /\ Forall whole pre1
    /\ let c' := state_of (snd (while_frames (processFrame env) fuel fr c)) in
       recording_since c0 (pre ++ pre1) c' \/ flushed_since env c0 (pre ++ pre1) c'.
Proof.
induction fuel as [|fuel IH]; intros fr c pre Hrec; cbn [while_frames].
- exists [], (sampleQueue fr). rewrite app_nil_r.
  repeat split; [constructor | now left].
- destruct (Nat.leb_spec chunkSize (length (sampleQueue fr))) as [Hge | Hlt].
  2:{ exists [], (sampleQueue fr). rewrite app_nil_r.
      repeat split; [constructor | now left]. }
  cbv zeta.
  set (frame := subarray (sampleQueue fr) 0 512).
  set (fr1 := {| leftover := leftover fr;
                 sampleQueue := subarray_from (sampleQueue fr) 512 |}).
  assert (Hq : sampleQueue fr = frame ++ sampleQueue fr1).
  { unfold frame, fr1, subarray, subarray_from. cbn [sampleQueue skipn Z.to_nat].
    rewrite Nat.sub_0_r. symmetry. apply firstn_skipn. }
  assert (Hw : whole frame).
  { unfold whole, frame, subarray. cbn [skipn Z.to_nat].
    rewrite length_firstn. unfold chunkSize in *.
    change (Z.to_nat 512 - 0)%nat with 512%nat. lia. }
  pose proof (@processFrame_recording pre c frame Hrec) as Hstep.
  pose proof (processFrame_summary env frame c) as Hsum.
  destruct (processFrame env frame c) as [c1 | e c1].
  + destruct Hstep as [Hrec1 | Hfl].
    * destruct (IH fr1 c1 (pre ++ [frame]) Hrec1) as (pre1 & rest & Hq1 & Hw1 & Hend).
      exists (frame :: pre1), rest. cbn [concat].
      rewrite <- app_assoc, <- Hq1.
      repeat split; [assumption | now constructor |].
      cbv zeta in *. now rewrite <- app_assoc in Hend.
    * exists [frame], (sampleQueue fr1). cbn [concat]. rewrite app_nil_r.
      repeat split; [assumption | now repeat constructor |].
      cbv zeta. right.
      apply (flushed_since_step Hfl (while_frames_summary env fuel fr1 c1)).
  + cbn [snd state_of]. destruct Hstep as [Hrec1 | Hfl].
    * exists [], (sampleQueue fr). rewrite app_nil_r.
      repeat split; [constructor | now left].
    * exists [frame], (sampleQueue fr1). cbn [concat]. rewrite app_nil_r.
      repeat split; [assumption | now repeat constructor | now right].
Qed.

Lemma while_frames_short fuel fr (c : Controller) :
  (length (sampleQueue fr) < chunkSize)%nat ->
  while_frames (processFrame env) fuel fr c = (fr, Ok c).
Proof.
intros Hlt. destruct fuel as [|fuel]; [reflexivity|].
cbn [while_frames].
destruct (Nat.leb_spec chunkSize (length (sampleQueue fr))); [lia | reflexivity].
Qed.

(** Leaving through [finally]: the segment is flushed there unless it has
    been already. *)
Lemma finish_flushes pre d :
  recording_since c0 pre d \/ flushed_since env c0 pre d ->
  flushed_since env c0 pre (finish env d)
  /\ (recording_since c0 pre d ->
      disk (finish env d) = disk c0 ++ [segment_write env c0 pre]).
Proof.
intros Hd.
destruct (finish_spec env d) as (_ & _ & _ & Hdisk).
assert (Hrec : recording_since c0 pre d ->
               disk (finish env d) = disk c0 ++ [segment_write env c0 pre]).
{ intros H. pose proof (segment_write_since H) as Hsw.
  destruct H as (Hr & Hd0 & _). rewrite Hr in Hdisk.
  now rewrite Hdisk, Hd0, Hsw. }
split; [|exact Hrec].
destruct Hd as [H | [more Hmore]].
- exists []. now apply Hrec.
- destruct (isRecording d).
  + exists (more ++ [segment_write env d []]).
    now rewrite Hdisk, Hmore, <- app_assoc.
  + exists more. now rewrite Hdisk, Hmore.
Qed.

End StopWhileRecording.

Section StopProperties.
Variable env : Env.

Lemma written_file_exists (c c' : Controller) pre more :
  disk c' = disk c ++ segment_write env c pre :: more ->
  write_ok env (flushes c) = true ->
  In (segment_write env c pre) (files c').
Proof.
intros Hd Hok. unfold files. rewrite Hd.
apply filter_In. split; [|exact Hok].
apply in_or_app. right. now left.
Qed.

(** C1, as amended: for every run in which [stop] is called while the
    machine is in Recording, exactly one write of a WAV file is made for the
    segment in progress; it holds all the frames appended since the speech
    start: those recorded when [stop] is called, then the frames [pre] still
    queued that the loop appends before the segment ends (none when the loop
    waits for the next chunk, and then no other write follows); the file
    exists when that write succeeds; [running] is false when [stop]
    returns. *)
Theorem stop_flushes_segment (c : Controller) :
  running c = true ->
  isRecording c = true ->
  exists pre rest more,
    sampleQueue (framing c) = concat pre ++ rest
    /\ Forall whole pre
    /\ disk (stop env c) = disk c ++ segment_write env c pre :: more
    /\ ((length (sampleQueue (framing c)) < chunkSize)%nat -> pre = [] /\ more = [])
    /\ (write_ok env (flushes c) = true ->
        In (segment_write env c pre) (files (stop env c)))
    /\ running (stop env c) = false
    /\ isRecording (stop env c) = false.
Proof.
intros Hrun Hrec.
assert (Hstopped : running (stop env c) = false /\ isRecording (stop env c) = false).
{ unfold stop. rewrite Hrun. cbn [negb]. cbv zeta. fields.
  split; [reflexivity|].
  destruct (drain _ _ _) as [fr [c' | e c']];
    match goal with
    | |- isRecording (finish env ?d) = false =>
        now destruct (finish_spec env d) as (_ & H & _)
    end. }
destruct Hstopped as [Hr Hi].
assert (H1 : recording_since c [] (set_abort true c)).
{ unfold recording_since. fields. rewrite app_nil_r. auto 10. }
destruct (Nat.lt_ge_cases (length (sampleQueue (framing c))) chunkSize) as [Hlt | Hge].
- assert (Hd : disk (stop env c) = disk c ++ [segment_write env c []]).
  { unfold stop, drain. rewrite Hrun. cbn [negb]. cbv zeta. fields.
    rewrite while_frames_short by assumption. fields.
    apply (finish_flushes (env := env) (c0 := c) (pre := [])
             (d := set_framing (framing c) (set_abort true c))).
    + left. exact H1.
    + exact H1. }
  exists [], (sampleQueue (framing c)), [].
  repeat split; try assumption; [constructor|].
  intros Hok. now apply written_file_exists with (more := []).
- destruct (@while_frames_recording env c (length (sampleQueue (framing c)))
              (framing c) (set_abort true c) [] H1)
    as (pre1 & rest & Hq & Hw & Hend).
  cbv zeta in Hend. cbn [app] in Hend.
  assert (Hfl : flushed_since env c pre1 (stop env c)).
  { unfold stop, drain. rewrite Hrun. cbn [negb]. cbv zeta. fields.
    destruct (while_frames _ _ _ _) as [fr [c' | e c']]; cbn [snd state_of] in Hend.
    - destruct (finish_flushes (env := env) (c0 := c) (pre := pre1)
                  (d := set_framing fr c')) as [[more Hm] _].
      { destruct Hend as [H | H]; [left | right]; exact H. }
      exists more. fields. exact Hm.
    - destruct (finish_flushes (env := env) (c0 := c) (pre := pre1)
                  (d := set_lastErr (Some e) (set_framing fr c'))) as [[more Hm] _].
      { destruct Hend as [H | H]; [left | right]; exact H. }
      exists more. fields. exact Hm. }
  destruct Hfl as [more Hm].
  exists pre1, rest, more.
  repeat split; try assumption; try lia.
  intros Hok. now apply written_file_exists with (more := more).
Qed.

End StopProperties.

(** [stop] called in Recording while the loop waits for the next chunk. *)
Lemma stop_flushes_segment_witness :
  let env := Scenario.healthy in
  let c := Scenario.recording env in
  exists pre rest more,
    sampleQueue (framing c) = concat pre ++ rest
    /\ Forall whole pre
    /\ disk (stop env c) = disk c ++ segment_write env c pre :: more
    /\ ((length (sampleQueue (framing c)) < chunkSize)%nat -> pre = [] /\ more = [])
    /\ (write_ok env (flushes c) = true ->
        In (segment_write env c pre) (files (stop env c)))
    /\ running (stop env c) = false
    /\ isRecording (stop env c) = false.
Proof.
cbv zeta.
apply stop_flushes_segment.
- vm_compute. reflexivity.
- vm_compute. reflexivity.
Defined.

(** Scenario S5 with a working disk: one segment saved, not running. *)
Example stop_mid_segment_status :
  status (stop Scenario.healthy (Scenario.recording Scenario.healthy))
  = {| status_running := false;
       status_segmentsSaved := 1;
       status_lastSegmentPath :=
         Some "segments/segment_2025-01-01_00-00-00_1.wav"%string |}.
Proof. vm_compute. reflexivity. Qed.

(** C1, as stated, fails when the write of the flush fails: [stop] is called
    in Recording, the loop waiting for the next chunk, and no file is
    written (the error is swallowed in [finally]). *)
Lemma stop_without_file :
  let env := Scenario.disk_full in
  let c := Scenario.recording env in
  running c = true
  /\ isRecording c = true
  /\ sampleQueue (framing c) = []
  /\ files (stop env c) = []
  /\ ~ flushes_one_file env c.
Proof.
cbv zeta.
assert (Hnone : files (stop Scenario.disk_full
                        (Scenario.recording Scenario.disk_full)) = [])
  by (vm_compute; reflexivity).
repeat split; try (vm_compute; reflexivity).
intros (ev & Hfiles & _). rewrite Hnone in Hfiles.
destruct (files (Scenario.recording Scenario.disk_full)); discriminate Hfiles.
Qed.

(** ** The hidden state across [start] *)

Section HiddenState.
Variable env : Env.

(** The first [start] loads the session and zeroes the hidden state. *)
Lemma first_start_zeroes_state (c c' : Controller) :
  session c = false ->
  start env c = Ok c' ->
  stateTensor c' = Some zero_state.
Proof.
unfold start, ensureDir, initOnnx. intros Hs.
destruct (running c); [discriminate|].
destruct (mkdir_ok env (outDir (opts c))); [|discriminate]. rewrite Hs.
destruct (model_loads env (modelPath (opts c))); cbn [negb]; [|discriminate].
cbv zeta. destruct (mic_spawns env); cbn [negb]; [|discriminate].
intros H. injection H as <-. reflexivity.
Qed.

(** A later [start] finds the session loaded, returns from [initOnnx] at
    once, and leaves the hidden state as the previous run left it. *)
Lemma later_start_keeps_state (c c' : Controller) :
  session c = true ->
  start env c = Ok c' ->
  stateTensor c' = stateTensor c.
Proof.
unfold start, ensureDir, initOnnx. intros Hs.
destruct (running c); [discriminate|].
destruct (mkdir_ok env (outDir (opts c))); [|discriminate]. rewrite Hs.
cbv zeta. destruct (mic_spawns env); cbn [negb]; [|discriminate].
intros H. injection H as <-. reflexivity.
Qed.

(** Within a run the hidden state is the one the model returned last. *)
Lemma stop_keeps_session (c : Controller) :
  session (stop env c) = session c.
Proof.
unfold stop. destruct (running c); cbn [negb]; [|reflexivity].
cbv zeta. fields.
assert (Hfin : forall d, session (finish env d) = session d).
{ intros d. unfold finish, stopRecording, stopRecording_begin, Bun_write,
    stopRecording_end. cbv zeta.
  fields. destruct (isRecording d); cbn [negb]; [|reflexivity].
  fields. destruct (write_ok env (flushes d)); reflexivity. }
assert (Hpf : forall frame d,
          session (state_of (processFrame env frame d)) = session d).
{ intros frame d. unfold processFrame.
  destruct (session d) eqn:Hsd; [|exact Hsd].
  destruct (stateTensor d) as [state|]; [|exact Hsd].
  cbv zeta.
  destruct (session_run env state (to_f32 frame)) as [results|]; [|exact Hsd].
  rewrite <- Hsd.
  set (d1 := match r_state results with Some t => _ | None => d end).
  assert (H1 : session d1 = session d) by (unfold d1; now destruct (r_state results)).
  rewrite <- H1. generalize d1. clear. intros d.
  unfold hysteresis, smooth, idle_step, recording_step, startRecording,
    stopRecording, stopRecording_begin, Bun_write, stopRecording_end.
  cbv zeta. fields.
  repeat (match goal with
          | |- context [if ?b then _ else _] => destruct b
          end; cbn [negb]; fields);
    reflexivity. }
assert (Hwh : forall fuel fr d,
          session (state_of (snd (while_frames (processFrame env) fuel fr d)))
          = session d).
{ induction fuel as [|fuel IH]; intros fr d; cbn [while_frames]; [reflexivity|].
  destruct (chunkSize <=? length (sampleQueue fr))%nat; [|reflexivity].
  cbv zeta. specialize (Hpf (subarray (sampleQueue fr) 0 512) d).
  destruct (processFrame env (subarray (sampleQueue fr) 0 512) d) as [d1 | e d1];
    cbn [state_of snd] in *.
  - now rewrite IH.
  - exact Hpf. }
unfold drain. specialize (Hwh (length (sampleQueue (framing c))) (framing c)
                             (set_abort true c)).
destruct (while_frames _ _ _ _) as [fr [c' | e c']]; cbn [snd state_of] in Hwh;
  rewrite Hfin; fields; exact Hwh.
Qed.

End HiddenState.

(** C2 fails on the code: a first run infers one frame, [stop] ends it, and
    the second [start] succeeds with the hidden state the first run left
    (every element is 1 with the model of the examples), not with zeros;
    the first [start] did zero it. *)
Theorem restart_keeps_hidden_state :
  let env := Scenario.healthy in
  let run1 := Scenario.started env in
  let stopped := stop env (loop env [Scenario.speech] run1) in
  let run2 := state_of (start env stopped) in
  stateTensor run1 = Some zero_state
  /\ running stopped = false
  /\ running run2 = true
  /\ stateTensor run2 = stateTensor stopped
  /\ stateTensor run2 <> Some zero_state.
Proof.
cbv zeta.
split; [vm_compute; reflexivity|].
split; [vm_compute; reflexivity|].
split; [vm_compute; reflexivity|].
split; [vm_compute; reflexivity|].
intros H.
apply (f_equal (fun t => match t with
                         | Some t => PrimFloat.eqb (hd 0%float (data t)) 0%float
                         | None => true
                         end)) in H.
vm_compute in H. discriminate H.
Qed.

(** ** Invariants of the read loop, for any per-frame action *)

Lemma whole_subarray (q : list Z) :
  (chunkSize <= length q)%nat -> whole (subarray q 0 512).
Proof.
intros H. unfold whole, subarray.
change (Z.to_nat 512 - Z.to_nat 0)%nat with chunkSize.
change (Z.to_nat 0) with 0%nat. cbn [skipn].
rewrite length_firstn. lia.
Qed.

Section LoopInvariants.
Context {S : Type}.
Variable pf : list Z -> S -> outcome S.
Variable abort_requested : S -> bool.
Variable P : S -> Prop.
Hypothesis step : forall frame s, whole frame -> P s -> P (state_of (pf frame s)).

Lemma while_frames_invariant fuel : forall fr s,
  P s -> P (state_of (snd (while_frames pf fuel fr s))).
Proof.
induction fuel as [|fuel IH]; intros fr s Hs; cbn [while_frames].
- exact Hs.
- destruct (chunkSize <=? length (sampleQueue fr))%nat eqn:Hlen; [|exact Hs].
  apply Nat.leb_le in Hlen.
  pose proof (step (whole_subarray _ Hlen) Hs) as Hstep.
  destruct (pf (subarray (sampleQueue fr) 0 512) s) as [s1 | e s1];
    cbn [state_of] in Hstep.
  + now apply IH.
  + exact Hstep.
Qed.

Lemma for_await_invariant chunks : forall fr s,
  P s -> P (loop_state_of (for_await pf abort_requested chunks fr s)).
Proof.
induction chunks as [|chunk rest IH]; intros fr s Hs; cbn [for_await].
- exact Hs.
- destruct (abort_requested s); [exact Hs|].
  unfold drain.
  pose proof (while_frames_invariant
                (length (sampleQueue (enqueue chunk fr))) (enqueue chunk fr) Hs)
    as Hstep.
  destruct (while_frames pf _ (enqueue chunk fr) s) as [fr1 [s1 | e s1]];
    cbn [snd state_of] in Hstep.
  + now apply IH.
  + exact Hstep.
Qed.

(** The framing the loop is left with when it waits for the next chunk. *)
Lemma for_await_settled chunks : forall fr s fr' s',
  framing_settled fr ->
  for_await pf abort_requested chunks fr s = Waiting fr' s' ->
  framing_settled fr'.
Proof.
induction chunks as [|chunk rest IH]; intros fr s fr' s' Hfr; cbn [for_await].
- intros [= <- _]. exact Hfr.
- destruct (abort_requested s); [discriminate|].
  unfold drain.
  destruct (while_frames pf _ (enqueue chunk fr) s) as [fr1 [s1 | e s1]] eqn:Hw;
    [|discriminate].
  apply IH. split.
  + assert (Hleft : leftover fr1 = leftover (enqueue chunk fr)).
    { clear - Hw. revert Hw.
      generalize (length (sampleQueue (enqueue chunk fr))).
      generalize (enqueue chunk fr). intros fr0 fuel. revert fr0 s.
      induction fuel as [|fuel IHf]; intros fr0 s; cbn [while_frames].
      - now intros [= <- _].
      - destruct (chunkSize <=? length (sampleQueue fr0))%nat;
          [|now intros [= <- _]].
        destruct (pf _ s) as [s2 | e s2]; [|discriminate].
        intros Hw. apply IHf in Hw. exact Hw. }
    rewrite Hleft, enqueue_eq. cbn [leftover].
    rewrite length_skipn.
    pose proof (Nat.div_mod_eq (length (leftover fr ++ chunk)) 2) as Hdm.
    pose proof (Nat.mod_upper_bound (length (leftover fr ++ chunk)) 2) as Hmod.
    lia.
  + eapply drain_leaves_less; [|exact Hw]. lia.
Qed.

(** An exception that leaves the loop was thrown by the per-frame action,
    called in a state where the invariant holds. *)
Lemma while_frames_throw fuel : forall fr s fr' e s',
  P s ->
  while_frames pf fuel fr s = (fr', Throw e s') ->
  exists frame s0, whole frame /\ P s0 /\ pf frame s0 = Throw e s'.
Proof.
induction fuel as [|fuel IH]; intros fr s fr' e s' Hs; cbn [while_frames].
- discriminate.
- destruct (chunkSize <=? length (sampleQueue fr))%nat eqn:Hlen; [|discriminate].
  apply Nat.leb_le in Hlen.
  pose proof (step (whole_subarray _ Hlen) Hs) as Hstep.
  destruct (pf (subarray (sampleQueue fr) 0 512) s) as [s1 | e1 s1] eqn:Hpf;
    cbn [state_of] in Hstep.
  + now apply IH.
  + intros [= _ <- <-]. exists (subarray (sampleQueue fr) 0 512), s.
    repeat split; try assumption. now apply whole_subarray.
Qed.

Lemma for_await_raised chunks : forall fr s e fr' s',
  P s ->
  for_await pf abort_requested chunks fr s = Raised e fr' s' ->
  exists frame s0, whole frame /\ P s0 /\ pf frame s0 = Throw e s'.
Proof.
induction chunks as [|chunk rest IH]; intros fr s e fr' s' Hs; cbn [for_await].
- discriminate.
- destruct (abort_requested s); [discriminate|].
  unfold drain.
  pose proof (while_frames_invariant
                (length (sampleQueue (enqueue chunk fr))) (enqueue chunk fr) Hs)
    as Hstep.
  destruct (while_frames pf _ (enqueue chunk fr) s) as [fr1 [s1 | e1 s1]] eqn:Hw;
    cbn [snd state_of] in Hstep.
  + now apply IH.
  + intros [= <- _ <-]. eapply while_frames_throw; [exact Hs | exact Hw].
Qed.

End LoopInvariants.

(** ** The bookkeeping of the pipeline *)

Section Bookkeeping.
Variable env : Env.

Lemma new_writes_app c c' evs :
  disk c' = disk c ++ evs -> new_writes c c' = evs.
Proof.
intros Hd. unfold new_writes.
now rewrite Hd, skipn_app, Nat.sub_diag, skipn_all.
Qed.

Lemma last_saved_app evs1 evs2 before :
  last_saved (evs1 ++ evs2) before = last_saved evs2 (last_saved evs1 before).
Proof. unfold last_saved. apply fold_left_app. Qed.

Lemma numbered_nil c : numbered env c [].
Proof. intros [|i] ev; discriminate. Qed.

Lemma numbered_app c c1 evs1 evs2 :
  numbered env c evs1 ->
  opts c1 = opts c ->
  flushes c1 = (flushes c + length evs1)%nat ->
  segmentIndex c1 = segmentIndex c + Z.of_nat (length evs1) ->
  numbered env c1 evs2 ->
  numbered env c (evs1 ++ evs2).
Proof.
intros H1 Ho Hf Hi H2 i ev Hnth.
destruct (Nat.lt_ge_cases i (length evs1)) as [Hlt | Hge].
- rewrite nth_error_app1 in Hnth by assumption. now apply H1.
- rewrite nth_error_app2 in Hnth by assumption.
  apply H2 in Hnth. rewrite Ho, Hf, Hi in Hnth.
  replace (flushes c + length evs1 + (i - length evs1))%nat
    with (flushes c + i)%nat in Hnth by lia.
  replace (segmentIndex c + Z.of_nat (length evs1) + Z.of_nat (i - length evs1) + 1)
    with (segmentIndex c + Z.of_nat i + 1) in Hnth by lia.
  exact Hnth.
Qed.

Lemma accounted_trans c c1 c2 :
  accounted env c c1 -> accounted env c1 c2 -> accounted env c c2.
Proof.
intros (evs1 & Hd1 & Hf1 & Hi1 & Hs1 & Hl1 & Ho1 & He1 & Hn1 & Hb1)
       (evs2 & Hd2 & Hf2 & Hi2 & Hs2 & Hl2 & Ho2 & He2 & Hn2 & Hb2).
exists (evs1 ++ evs2).
rewrite filter_app, !length_app, !Nat2Z.inj_add, last_saved_app.
split; [rewrite Hd2, Hd1; now rewrite app_assoc|].
split; [lia|]. split; [lia|]. split; [lia|].
split; [congruence|]. split; [congruence|]. split; [congruence|].
split; [now apply numbered_app with (c1 := c1)|].
intros Hb. destruct (Hb1 Hb) as [Hb' Hw1]. destruct (Hb2 Hb') as [Hb'' Hw2].
rewrite Ho1 in Hw2.
split; [assumption | now apply Forall_app].
Qed.

(** A step that makes no write and keeps the buffers well formed. *)
Lemma accounted_quiet c c' :
  disk c' = disk c -> flushes c' = flushes c -> segmentIndex c' = segmentIndex c ->
  segmentsSaved c' = segmentsSaved c -> lastSegmentPath c' = lastSegmentPath c ->
  opts c' = opts c -> session c' = session c ->
  (buffers_ok c -> buffers_ok c') ->
  accounted env c c'.
Proof.
intros Hd Hf Hi Hs Hl Ho He Hb.
exists []. cbn [length filter last_saved fold_left].
rewrite app_nil_r, Nat.add_0_r, !Z.add_0_r.
do 7 (split; [assumption|]).
split; [apply numbered_nil|].
intros H. split; [now apply Hb | constructor].
Qed.

Lemma accounted_refl c : accounted env c c.
Proof. apply accounted_quiet; auto. Qed.

Lemma accounted_agree c c' : agree c c' -> accounted env c c'.
Proof.
intros (Hd & Hf & Hi & Hs & Hl & Ho & He & Hr & Hb).
apply accounted_quiet; try assumption.
unfold buffers_ok. now rewrite Hr, Hb.
Qed.

Lemma stopRecording_accounted c :
  accounted env c (state_of (stopRecording env c)).
Proof.
destruct (isRecording c) eqn:Hrec.
- exists [segment_write env c []].
  unfold stopRecording, stopRecording_begin, Bun_write, stopRecording_end.
  rewrite Hrec. cbn [negb]. cbv zeta. fields.
  assert (Hnum : numbered env c [segment_write env c []]).
  { intros [|i] ev; [|destruct i; discriminate].
    intros [= <-]. rewrite Nat.add_0_r. cbn [Z.of_nat]. rewrite Z.add_0_r.
    split; reflexivity. }
  assert (Hwhole : buffers_ok c ->
                   Forall (whole_segment (rate (opts c))) [segment_write env c []]).
  { intros [Hall Hne]. constructor; [|constructor].
    exists (segmentBuffers c).
    repeat split; [now apply Hne | assumption |].
    cbn [segment_write w_data]. now rewrite app_nil_r. }
  assert (Hidle : buffers_ok
                    (set_segmentIndex (segmentIndex c + 1)
                       (set_segmentBuffers [] (set_isRecording false c)))).
  { split; fields; [constructor | discriminate]. }
  cbn [filter length last_saved fold_left].
  change (w_ok (segment_write env c [])) with (write_ok env (flushes c)).
  change (w_path (segment_write env c []))
    with (segment_path (opts c) (nowTag env (flushes c)) (segmentIndex c + 1)).
  replace (Wav.writeWav (merge (segmentBuffers c)) (rate (opts c)))
    with (w_data (segment_write env c []))
    by (cbn [segment_write w_data]; now rewrite merge_concat, app_nil_r).
  destruct (write_ok env (flushes c)) eqn:Hok;
    cbn [state_of length Z.of_nat Pos.of_succ_nat]; fields;
    (split; [unfold segment_write; now rewrite Hok|]);
    (split; [lia|]); (split; [reflexivity|]);
    (split; [lia|]); (split; [reflexivity|]); (split; [reflexivity|]);
    (split; [reflexivity|]); (split; [exact Hnum|]);
    intros Hb; (split; [|now apply Hwhole]);
    split; fields; try constructor; discriminate.
- unfold stopRecording. rewrite Hrec. cbn [negb state_of]. apply accounted_refl.
Qed.

Lemma idle_step_fields prob c :
  let c' := idle_step prob c in
  disk c' = disk c /\ flushes c' = flushes c /\ segmentIndex c' = segmentIndex c
  /\ segmentsSaved c' = segmentsSaved c /\ lastSegmentPath c' = lastSegmentPath c
  /\ opts c' = opts c /\ session c' = session c
  /\ stateTensor c' = stateTensor c /\ silenceFrames c' = silenceFrames c
  /\ (Forall whole (segmentBuffers c) -> Forall whole (segmentBuffers c'))
  /\ (isRecording c = true -> c' = c).
Proof.
cbv zeta. unfold idle_step, startRecording.
destruct (isRecording c) eqn:Hrec; cbn [negb].
- repeat split; auto.
- destruct (PrimFloat.ltb (speechThreshold (opts c)) prob); cbv zeta; fields.
  + destruct (requiredSpeechFrames (opts c) <=? speechFrames c + 1); fields;
      rewrite ?Hrec; fields; repeat split; auto; discriminate.
  + repeat split; auto; discriminate.
Qed.

Lemma hysteresis_accounted rawProb frame c :
  whole frame -> accounted env c (state_of (hysteresis env rawProb frame c)).
Proof.
intros Hframe. unfold hysteresis, smooth. cbv zeta.
set (prob := mean (push_prob rawProb (probBuffer c))).
set (c1 := set_probBuffer _ c).
destruct (idle_step_fields prob c1)
  as (Hd & Hf & Hi & Hs & Hl & Ho & He & _ & _ & Hb & _).
cbv zeta in *. fields in Hd. fields in Hf. fields in Hi. fields in Hs.
fields in Hl. fields in Ho. fields in He. fields in Hb.
revert Hd Hf Hi Hs Hl Ho He Hb.
generalize (idle_step prob c1). intros c2 Hd Hf Hi Hs Hl Ho He Hb.
unfold recording_step.
destruct (isRecording c2) eqn:Hrec; cbn [state_of].
- cbv zeta. fields.
  set (c3 := set_segmentBuffers (segmentBuffers c2 ++ [frame]) c2).
  assert (H3 : accounted env c c3).
  { apply accounted_quiet; try assumption.
    intros [Hall _]. split; unfold c3; fields.
    - apply Forall_app. split; [now apply Hb | now constructor].
    - intros _. now destruct (segmentBuffers c2). }
  destruct (PrimFloat.ltb prob (silenceThreshold (opts c2))).
  + destruct (requiredSilenceFrames (opts c2) <=? silenceFrames c2 + 1).
    * eapply accounted_trans; [exact H3|].
      eapply accounted_trans; [|apply stopRecording_accounted].
      apply accounted_agree. repeat split.
    * cbn [state_of]. eapply accounted_trans; [exact H3|].
      apply accounted_agree. repeat split.
  + cbn [state_of]. eapply accounted_trans; [exact H3|].
    apply accounted_agree. repeat split.
- apply accounted_quiet; try assumption.
  intros [Hall _]. split; [now apply Hb | congruence].
Qed.

Lemma processFrame_accounted frame c :
  whole frame -> accounted env c (state_of (processFrame env frame c)).
Proof.
intros Hframe. unfold processFrame.
destruct (session c); [|apply accounted_refl].
destruct (stateTensor c) as [state|]; [|apply accounted_refl].
cbv zeta.
destruct (session_run env state (to_f32 frame)) as [results|];
  [|apply accounted_refl].
destruct (r_state results) as [t|].
- eapply accounted_trans; [|now apply hysteresis_accounted].
  apply accounted_agree. repeat split.
- now apply hysteresis_accounted.
Qed.

Lemma finish_state c : finish env c = state_of (stopRecording env (set_running false c)).
Proof. unfold finish. cbv zeta. now destruct (stopRecording env _). Qed.

Lemma finish_accounted c : accounted env c (finish env c).
Proof.
rewrite finish_state.
eapply accounted_trans; [|apply stopRecording_accounted].
apply accounted_agree. repeat split.
Qed.

Lemma loop_accounted chunks c : accounted env c (loop env chunks c).
Proof.
unfold loop. destruct (running c); cbn [negb]; [|apply accounted_refl].
pose proof (@for_await_invariant _ (processFrame env) abort (accounted env c)
              (fun frame s Hf Hs =>
                 accounted_trans Hs (processFrame_accounted s Hf))
              chunks (framing c) c (accounted_refl c)) as Hloop.
destruct (for_await (processFrame env) abort chunks (framing c) c)
  as [fr c1 | fr c1 | e fr c1]; cbn [loop_state_of] in Hloop.
- eapply accounted_trans; [exact Hloop|]. apply accounted_agree. repeat split.
- eapply accounted_trans; [exact Hloop|].
  eapply accounted_trans; [|apply finish_accounted].
  apply accounted_agree. repeat split.
- eapply accounted_trans; [exact Hloop|].
  eapply accounted_trans; [|apply finish_accounted].
  apply accounted_agree. repeat split.
Qed.

Lemma end_of_stream_accounted c : accounted env c (end_of_stream env c).
Proof.
unfold end_of_stream.
destruct (running c); cbn [negb]; [apply finish_accounted | apply accounted_refl].
Qed.

Lemma stop_accounted c : accounted env c (stop env c).
Proof.
unfold stop. destruct (running c); cbn [negb]; [|apply accounted_refl].
cbv zeta. fields. unfold drain.
set (c1 := set_abort true c).
assert (H1 : accounted env c c1) by (apply accounted_agree; repeat split).
pose proof (@while_frames_invariant _ (processFrame env) (accounted env c)
              (fun frame s Hf Hs =>
                 accounted_trans Hs (processFrame_accounted s Hf))
              (length (sampleQueue (framing c))) (framing c) c1 H1) as Hw.
destruct (while_frames (processFrame env) _ (framing c) c1) as [fr [c2 | e c2]];
  cbn [snd state_of] in Hw.
- eapply accounted_trans; [exact Hw|].
  eapply accounted_trans; [|apply accounted_agree with (c := finish env (set_framing fr c2)); repeat split].
  eapply accounted_trans; [|apply finish_accounted].
  apply accounted_agree. repeat split.
- eapply accounted_trans; [exact Hw|].
  eapply accounted_trans;
    [|apply accounted_agree
        with (c := finish env (set_lastErr (Some e) (set_framing fr c2)));
      repeat split].
  eapply accounted_trans; [|apply finish_accounted].
  apply accounted_agree. repeat split.
Qed.

(** What [start] and [update] leave alone. *)
Lemma start_keeps c :
  let c' := state_of (start env c) in
  opts c' = opts c /\ segmentsSaved c' = segmentsSaved c
  /\ lastSegmentPath c' = lastSegmentPath c /\ disk c' = disk c
  /\ flushes c' = flushes c.
Proof.
cbv zeta. unfold start, ensureDir, initOnnx.
destruct (running c); [repeat split|].
destruct (mkdir_ok env (outDir (opts c))); [|cbn [state_of]; repeat split].
destruct (session c).
- cbv zeta. destruct (mic_spawns env); cbn [negb state_of]; fields; repeat split.
- destruct (model_loads env (modelPath (opts c))); cbn [negb];
    [|cbn [state_of]; repeat split].
  cbv zeta. destruct (mic_spawns env); cbn [negb state_of]; fields; repeat split.
Qed.

(** What a successful [start] sets up. *)
Lemma start_fresh c c' :
  start env c = Ok c' ->
  running c = false
  /\ running c' = true /\ abort c' = false
  /\ framing c' = Framer.initial /\ probBuffer c' = []
  /\ isRecording c' = false /\ segmentBuffers c' = []
  /\ speechFrames c' = 0 /\ silenceFrames c' = 0
  /\ segmentIndex c' = 0 /\ lastErr c' = None
  /\ session c' = true.
Proof.
unfold start, ensureDir, initOnnx.
destruct (running c); [discriminate|].
destruct (mkdir_ok env (outDir (opts c))); [|discriminate].
destruct (session c) eqn:Hs.
- cbv zeta. destruct (mic_spawns env); cbn [negb]; [|discriminate].
  intros [= <-]. fields. repeat split. exact Hs.
- destruct (model_loads env (modelPath (opts c))); cbn [negb]; [|discriminate].
  cbv zeta. destruct (mic_spawns env); cbn [negb]; [|discriminate].
  intros [= <-]. fields. repeat split.
Qed.

End Bookkeeping.

(** ** What holds of every state *)

Section Invariant.
Variable env : Env.

Lemma steady_refl c : steady c c.
Proof. unfold steady. tauto. Qed.

Lemma steady_trans c c1 c2 : steady c c1 -> steady c1 c2 -> steady c c2.
Proof.
intros (Hr1 & Ha1 & Ht1 & Hc1) (Hr2 & Ha2 & Ht2 & Hc2).
unfold steady. split; [congruence|]. split; [congruence|]. tauto.
Qed.

Lemma stopRecording_keeps c :
  let c' := state_of (stopRecording env c) in
  running c' = running c /\ abort c' = abort c
  /\ stateTensor c' = stateTensor c
  /\ speechFrames c' = speechFrames c /\ silenceFrames c' = silenceFrames c
  /\ framing c' = framing c /\ lastErr c' = lastErr c
  /\ isRecording c' = false.
Proof.
cbv zeta. unfold stopRecording, stopRecording_begin, Bun_write, stopRecording_end.
destruct (isRecording c) eqn:Hrec; cbn [negb state_of].
- cbv zeta. fields.
  destruct (write_ok env (flushes c)); cbn [state_of]; fields; repeat split.
- repeat split. exact Hrec.
Qed.

Lemma idle_step_steady prob c : steady c (idle_step prob c).
Proof.
unfold idle_step, startRecording.
destruct (isRecording c) eqn:Hrec; cbn [negb]; [apply steady_refl|].
destruct (PrimFloat.ltb (speechThreshold (opts c)) prob); cbv zeta; fields.
- destruct (requiredSpeechFrames (opts c) <=? speechFrames c + 1); fields;
    rewrite ?Hrec; unfold steady, counters_rest; fields; rewrite ?Hrec;
    intuition congruence.
- unfold steady, counters_rest; fields; rewrite ?Hrec; intuition congruence.
Qed.

Lemma recording_step_steady prob frame c :
  steady c (state_of (recording_step env prob frame c)).
Proof.
unfold recording_step.
destruct (isRecording c) eqn:Hrec; cbn [state_of]; [|apply steady_refl].
cbv zeta. fields.
destruct (PrimFloat.ltb prob (silenceThreshold (opts c))).
- destruct (requiredSilenceFrames (opts c) <=? silenceFrames c + 1).
  + destruct (stopRecording_keeps
                (set_silenceFrames 0
                   (set_silenceFrames (silenceFrames c + 1)
                      (set_segmentBuffers (segmentBuffers c ++ [frame]) c))))
      as (Hr & Ha & Ht & Hsp & Hsi & _ & _ & Hrec').
    cbv zeta in *. fields in Hr. fields in Ha. fields in Ht. fields in Hsp.
    fields in Hsi.
    unfold steady, counters_rest.
    rewrite Hr, Ha, Ht, Hsp, Hsi, Hrec'. intuition congruence.
  + cbn [state_of]. unfold steady, counters_rest. fields. rewrite Hrec.
    intuition congruence.
- cbn [state_of]. unfold steady, counters_rest. fields. rewrite Hrec.
  intuition congruence.
Qed.

Lemma hysteresis_steady rawProb frame c :
  steady c (state_of (hysteresis env rawProb frame c)).
Proof.
unfold hysteresis, smooth. cbv zeta.
eapply steady_trans; [|apply recording_step_steady].
eapply steady_trans; [|apply idle_step_steady].
unfold steady, counters_rest. fields. tauto.
Qed.

Lemma processFrame_steady frame c :
  steady c (state_of (processFrame env frame c)).
Proof.
unfold processFrame.
destruct (session c); [|apply steady_refl].
destruct (stateTensor c) as [state|] eqn:Hst; [|apply steady_refl].
cbv zeta.
destruct (session_run env state (to_f32 frame)) as [results|];
  [|apply steady_refl].
eapply steady_trans; [|apply hysteresis_steady].
destruct (r_state results) as [t|].
- unfold steady, counters_rest. fields. intuition congruence.
- apply steady_refl.
Qed.

Lemma finish_keeps c :
  running (finish env c) = false
  /\ (stateTensor c <> None -> stateTensor (finish env c) <> None).
Proof.
rewrite finish_state.
destruct (stopRecording_keeps (set_running false c))
  as (Hr & _ & Ht & _).
cbv zeta in *. fields in Hr. fields in Ht.
rewrite Hr, Ht. split; auto.
Qed.

Lemma for_await_steady chunks fr c :
  steady c (loop_state_of (for_await (processFrame env) abort chunks fr c)).
Proof.
apply (@for_await_invariant _ (processFrame env) abort (steady c)
         (fun frame s _ Hs => steady_trans Hs (processFrame_steady frame s))).
apply steady_refl.
Qed.

(** The loop is still running only if it waits for the next chunk. *)
Lemma loop_waiting chunks c :
  running c = true ->
  running (loop env chunks c) = true ->
  exists fr c1,
    for_await (processFrame env) abort chunks (framing c) c = Waiting fr c1
    /\ loop env chunks c = set_framing fr c1.
Proof.
intros Hrun. unfold loop. rewrite Hrun. cbn [negb].
destruct (for_await (processFrame env) abort chunks (framing c) c)
  as [fr c1 | fr c1 | e fr c1].
- intros _. now exists fr, c1.
- intros H. destruct (finish_keeps (set_framing fr c1)) as [Hf _]. congruence.
- intros H.
  destruct (finish_keeps (set_lastErr (Some e) (set_framing fr c1))) as [Hf _].
  congruence.
Qed.

Lemma loop_keeps_state chunks c :
  stateTensor c <> None -> stateTensor (loop env chunks c) <> None.
Proof.
intros Hst. unfold loop. destruct (running c); cbn [negb]; [|exact Hst].
destruct (for_await_steady chunks (framing c) c) as (_ & _ & Ht & _).
specialize (Ht Hst).
destruct (for_await (processFrame env) abort chunks (framing c) c)
  as [fr c1 | fr c1 | e fr c1]; cbn [loop_state_of] in Ht.
- exact Ht.
- now apply finish_keeps.
- now apply finish_keeps.
Qed.

Lemma stop_keeps_state c :
  stateTensor c <> None -> stateTensor (stop env c) <> None.
Proof.
intros Hst. unfold stop. destruct (running c); cbn [negb]; [|exact Hst].
cbv zeta. fields. unfold drain.
pose proof (@while_frames_invariant _ (processFrame env)
              (steady (set_abort true c))
              (fun frame s _ Hs => steady_trans Hs (processFrame_steady frame s))
              (length (sampleQueue (framing c))) (framing c) (set_abort true c)
              (steady_refl _)) as (_ & _ & Ht & _).
specialize (Ht Hst).
destruct (while_frames (processFrame env) _ (framing c) (set_abort true c))
  as [fr [c2 | e c2]]; cbn [snd state_of] in Ht; now apply finish_keeps.
Qed.

Lemma stop_not_running c : running (stop env c) = false.
Proof.
unfold stop. destruct (running c) eqn:Hrun; cbn [negb]; [|exact Hrun].
cbv zeta. reflexivity.
Qed.

Lemma end_of_stream_not_running c : running (end_of_stream env c) = false.
Proof.
unfold end_of_stream. destruct (running c) eqn:Hrun; cbn [negb]; [|exact Hrun].
apply finish_keeps.
Qed.

(** The status after a step of the pipeline. *)
Lemma accounted_status c c' :
  accounted env c c' -> status_consistent c -> status_consistent c'.
Proof.
intros (evs & Hd & _ & _ & Hs & Hl & _) [Hn Hp].
unfold status_consistent, status, files in *.
cbn [status_segmentsSaved status_lastSegmentPath] in *.
rewrite Hd, filter_app, length_app, Nat2Z.inj_add, last_saved_app, Hs, Hl, Hn, Hp.
split; reflexivity.
Qed.

Lemma accounted_invariant c c' :
  accounted env c c' ->
  running c' = false ->
  (stateTensor c <> None -> stateTensor c' <> None) ->
  invariant c -> invariant c'.
Proof.
intros Hacc Hrun Hst (Hstatus & Hbuf & Hsess & _).
pose proof Hacc as (evs & _ & _ & _ & _ & _ & _ & He & _ & Hb).
split; [now apply (accounted_status Hacc)|].
split; [now apply Hb|].
split; [intros H; apply Hst, Hsess; congruence|].
congruence.
Qed.

Lemma reachable_invariant c : reachable env c -> invariant c.
Proof.
induction 1 as [initial | c _ IH | c chunks _ IH | c _ IH | c _ IH | c partial _ IH].
- repeat split; cbn; try discriminate; try constructor; lia.
- destruct (start_keeps env c) as (Ho & Hs & Hl & Hd & Hf). cbv zeta in *.
  destruct IH as (Hstatus & Hbuf & Hsess & Hrun).
  assert (Hstatus' : status_consistent (state_of (start env c))).
  { unfold status_consistent, status, files in *.
    cbn [status_segmentsSaved status_lastSegmentPath] in *.
    now rewrite Hs, Hl, Hd. }
  destruct (start env c) as [c' | e c'] eqn:Hstart; cbn [state_of] in *.
  + destruct (start_fresh env c Hstart)
      as (_ & Hr' & Ha' & Hfr' & _ & Hrec' & Hbufs' & Hsp' & Hsi' & _ & _ & Hse').
    assert (Hst' : stateTensor c' <> None).
    { revert Hstart. unfold start, ensureDir, initOnnx.
      destruct (running c); [discriminate|].
      destruct (mkdir_ok env (outDir (opts c))); [|discriminate].
      destruct (session c) eqn:Hse.
      - cbv zeta. destruct (mic_spawns env); cbn [negb]; [|discriminate].
        intros [= <-]. fields. now apply Hsess.
      - destruct (model_loads env (modelPath (opts c))); cbn [negb];
          [|discriminate].
        cbv zeta. destruct (mic_spawns env); cbn [negb]; [|discriminate].
        intros [= <-]. fields. discriminate. }
    split; [exact Hstatus'|].
    split; [split; [rewrite Hbufs'; constructor | rewrite Hrec'; discriminate]|].
    split; [intros _; exact Hst'|].
    intros _. rewrite Hfr'.
    split; [unfold framing_settled, chunkSize; cbn; lia|].
    split; [exact Ha'|]. split; [exact Hse'|].
    split; intros _; [exact Hsi' | exact Hsp'].
  + revert Hstart Hstatus'. unfold start, ensureDir, initOnnx.
    destruct (running c) eqn:Hr;
      [intros [= _ <-] _; split; [|split; [|split]];
       try assumption; intros Hx; first [congruence | now apply Hrun]|].
    destruct (mkdir_ok env (outDir (opts c)));
      [|intros [= _ <-] _; split; [|split; [|split]];
        try assumption; intros Hx; congruence].
    destruct (session c) eqn:Hse.
    * cbv zeta. destruct (mic_spawns env); cbn [negb]; [discriminate|].
      intros [= _ <-] Hst'. split; [exact Hst'|]. fields.
      split; [split; fields; [constructor | discriminate]|].
      split; [fields; rewrite Hse; exact Hsess|].
      fields. rewrite Hr. discriminate.
    * destruct (model_loads env (modelPath (opts c))); cbn [negb].
      -- cbv zeta. destruct (mic_spawns env); cbn [negb]; [discriminate|].
         intros [= _ <-] Hst'. split; [exact Hst'|]. fields.
         split; [split; fields; [constructor | discriminate]|].
         split; [fields; discriminate|].
         fields. rewrite Hr. discriminate.
      -- intros [= _ <-] _. split; [|split; [|split]];
           try assumption; intros Hx; first [congruence | now apply Hrun].
- destruct (running c) eqn:Hrun0.
  + destruct (running (loop env chunks c)) eqn:Hrun1.
    * destruct (loop_waiting chunks c Hrun0 Hrun1) as (fr & c1 & Hfa & Heq).
      pose proof (loop_accounted env chunks c) as Hacc.
      pose proof Hacc as (evs & _ & _ & _ & _ & _ & _ & He & _ & Hb).
      destruct IH as (Hstatus & Hbuf & Hsess & Hrun).
      destruct (Hrun Hrun0) as (Hfr & Hab & Hse & Hcnt).
      destruct (for_await_steady chunks (framing c) c) as (Hr1 & Ha1 & Ht1 & Hc1).
      rewrite Hfa in Hr1, Ha1, Ht1, Hc1. cbn [loop_state_of] in *.
      split; [now apply (accounted_status Hacc)|].
      split; [now apply Hb|].
      split; [intros _; rewrite Heq; fields; now apply Ht1, Hsess|].
      intros _. rewrite Heq. fields. split.
      -- eapply for_await_settled; [exact Hfr | exact Hfa].
      -- split; [congruence|]. split; [|now apply Hc1].
         rewrite Heq in He. fields in He. congruence.
    * apply (accounted_invariant (loop_accounted env chunks c) Hrun1);
        [apply loop_keeps_state | exact IH].
  + unfold loop. rewrite Hrun0. exact IH.
- apply (accounted_invariant (end_of_stream_accounted env c)
           (end_of_stream_not_running c)); [|exact IH].
  unfold end_of_stream. destruct (running c); cbn [negb]; [|auto].
  apply finish_keeps.
- apply (accounted_invariant (stop_accounted env c) (stop_not_running c));
    [apply stop_keeps_state | exact IH].
- unfold update. destruct (running c) eqn:Hr; cbn [state_of]; [exact IH|].
  destruct IH as (Hstatus & Hbuf & Hsess & Hrun).
  split; [exact Hstatus|]. split; [exact Hbuf|]. split; [exact Hsess|].
  fields. rewrite Hr. discriminate.
Qed.

End Invariant.

(** ** The control operations: [start], [stop], [update], end of stream *)

Section ControlOperations.
Variable env : Env.

(** X1: [stop] always leaves the controller not running, and a second
    [stop], or a [stop] after the microphone's output has ended, changes
    nothing: the early return on [!running] makes it idempotent. *)
Theorem stop_is_idempotent (c : Controller) :
  status_running (status (stop env c)) = false
  /\ stop env (stop env c) = stop env c
  /\ stop env (end_of_stream env c) = end_of_stream env c.
Proof.
split; [apply stop_not_running|].
split.
- unfold stop at 1. now rewrite stop_not_running.
- unfold stop. now rewrite end_of_stream_not_running.
Qed.

(** X2: [start] succeeds exactly when the controller is not running, the
    output directory can be created, the session is already loaded or the
    model file loads, and the recorder process spawns. *)
Theorem start_succeeds_iff (c : Controller) :
  (exists c', start env c = Ok c')
  <-> running c = false
      /\ mkdir_ok env (outDir (opts c)) = true
      /\ (session c || model_loads env (modelPath (opts c))) = true
      /\ mic_spawns env = true.
Proof.
unfold start, ensureDir, initOnnx.
destruct (running c).
{ split; [intros [c' H]; discriminate | intros (H & _); discriminate]. }
destruct (mkdir_ok env (outDir (opts c))).
2:{ split; [intros [c' H]; discriminate | intros (_ & H & _); discriminate]. }
destruct (session c); cbn [orb].
- cbv zeta. destruct (mic_spawns env); cbn [negb].
  + split; [auto | intros _; eexists; reflexivity].
  + split; [intros [c' H]; discriminate | intros (_ & _ & _ & H); discriminate].
- destruct (model_loads env (modelPath (opts c))); cbn [negb].
  + cbv zeta. destruct (mic_spawns env); cbn [negb].
    * split; [auto | intros _; eexists; reflexivity].
    * split; [intros [c' H]; discriminate | intros (_ & _ & _ & H); discriminate].
  + split; [intros [c' H]; discriminate | intros (_ & _ & H & _); discriminate].
Qed.

(** X3: a [start] that throws leaves what [status()] reports, the options
    and the files as they were; in particular [running] is not set when the
    directory cannot be created, the model is missing or the recorder cannot
    be spawned. *)
Theorem start_failure_keeps_status (c c' : Controller) (e : string) :
  start env c = Throw e c' ->
  status c' = status c /\ opts c' = opts c /\ disk c' = disk c.
Proof.
intros Hstart.
destruct (start_keeps env c) as (Ho & Hs & Hl & Hd & _). cbv zeta in *.
rewrite Hstart in *. cbn [state_of] in *.
assert (Hr : running c' = running c).
{ revert Hstart. unfold start, ensureDir, initOnnx.
  destruct (running c) eqn:Hrun; [now intros [= _ <-]|].
  destruct (mkdir_ok env (outDir (opts c))); [|now intros [= _ <-]].
  destruct (session c).
  - cbv zeta. destruct (mic_spawns env); cbn [negb]; [discriminate|].
    intros [= _ <-]. fields. now rewrite Hrun.
  - destruct (model_loads env (modelPath (opts c))); cbn [negb].
    + cbv zeta. destruct (mic_spawns env); cbn [negb]; [discriminate|].
      intros [= _ <-]. fields. now rewrite Hrun.
    + now intros [= _ <-]. }
unfold status. now rewrite Hr, Hs, Hl, Ho, Hd.
Qed.

(** X4: options given to [createVADController] act like a first [update],
    and two [update]s in a row act like one [update] with the two objects
    spread into one, the later keys winning; while running both are refused
    alike. *)
Theorem update_composes (p q : PartialVADOptions) (c : Controller) :
  createVADController (Some p) = state_of (update p (createVADController None))
  /\ update q (state_of (update p c)) = update (overlay p q) c.
Proof.
split; [reflexivity|].
unfold update. destruct (running c) eqn:Hrun; cbn [state_of]; fields; rewrite Hrun.
- reflexivity.
- f_equal. unfold set_opts. fields. f_equal.
  unfold assign, overlay. cbn.
  destruct p as [p1 p2 p3 p4 p5 p6 p7], q as [q1 q2 q3 q4 q5 q6 q7]. cbn.
  destruct q1, q2, q3, q4, q5, q6, q7; reflexivity.
Qed.

(** X5: when the output of the microphone ends while the controller is
    running, the loop leaves by itself: [running] becomes false, the segment
    in progress, if any, is written once, the samples still queued are
    left unprocessed, and a later [stop] has nothing to do. *)
Theorem end_of_stream_flushes_once (c : Controller) :
  running c = true ->
  let c' := end_of_stream env c in
  running c' = false
  /\ isRecording c' = false
  /\ new_writes c c' = (if isRecording c then [segment_write env c []] else [])
  /\ framing c' = framing c
  /\ stop env c' = c'.
Proof.
intros Hrun. cbv zeta.
pose proof (end_of_stream_not_running env c) as Hnot.
assert (Hstop : stop env (end_of_stream env c) = end_of_stream env c).
{ unfold stop. now rewrite Hnot. }
revert Hnot Hstop. unfold end_of_stream. rewrite Hrun. cbn [negb].
intros Hnot Hstop.
destruct (finish_spec env c) as (_ & Hrec & _ & Hd).
split; [exact Hnot|]. split; [exact Hrec|].
split.
- destruct (isRecording c).
  + now apply new_writes_app.
  + apply new_writes_app. now rewrite app_nil_r.
- split; [|exact Hstop].
  rewrite finish_state.
  now destruct (stopRecording_keeps env (set_running false c)) as (_ & _ & _ & _ & _ & H & _).
Qed.

End ControlOperations.

(** The output directory cannot be created: [start] throws before anything
    else is done. *)
Example start_without_directory :
  start Faults.no_directory (createVADController None)
  = Throw "mkdir failed" (createVADController None).
Proof. reflexivity. Qed.

(** The model file is missing: [start] throws and nothing has changed. *)
Lemma start_failure_keeps_status_witness :
  let c := createVADController None in
  status c = status c /\ opts c = opts c /\ disk c = disk c.
Proof.
cbv zeta.
apply (@start_failure_keeps_status Faults.no_model (createVADController None)
         (createVADController None)
         "ONNX model not found at rec/public/silero_vad_v6.onnx").
vm_compute. reflexivity.
Defined.

(** The microphone dies during a segment. *)
Lemma end_of_stream_flushes_once_witness :
  let env := Scenario.healthy in
  let c := Scenario.recording env in
  let c' := end_of_stream env c in
  running c' = false
  /\ isRecording c' = false
  /\ new_writes c c' = (if isRecording c then [segment_write env c []] else [])
  /\ framing c' = framing c
  /\ stop env c' = c'.
Proof.
cbv zeta.
apply end_of_stream_flushes_once.
vm_compute. reflexivity.
Defined.

(** ** One frame *)

Section OneFrame.
Variable env : Env.

Lemma hysteresis_keeps_state rawProb frame c :
  stateTensor (state_of (hysteresis env rawProb frame c)) = stateTensor c.
Proof.
unfold hysteresis, smooth. cbv zeta.
set (prob := mean (push_prob rawProb (probBuffer c))).
destruct (idle_step_fields prob (set_probBuffer (push_prob rawProb (probBuffer c)) c))
  as (_ & _ & _ & _ & _ & _ & _ & Ht & _).
cbv zeta in Ht. fields in Ht. rewrite <- Ht.
generalize (idle_step prob (set_probBuffer (push_prob rawProb (probBuffer c)) c)).
intros c2. unfold recording_step.
destruct (isRecording c2); [|reflexivity].
cbv zeta. fields.
destruct (PrimFloat.ltb prob (silenceThreshold (opts c2))); [|reflexivity].
destruct (requiredSilenceFrames (opts c2) <=? silenceFrames c2 + 1); [|reflexivity].
now destruct (stopRecording_keeps env
                (set_silenceFrames 0
                   (set_silenceFrames (silenceFrames c2 + 1)
                      (set_segmentBuffers (segmentBuffers c2 ++ [frame]) c2))))
  as (_ & _ & H & _).
Qed.

(** X6: the recurrent state is threaded from frame to frame: after a frame
    whose inference succeeded, the stored state is the one the model
    returned, or the previous one if it returned none, and this also holds
    when the frame ended a segment whose write failed. *)
Theorem processFrame_threads_state (frame : list Z) (c : Controller)
  (st : Tensor) (results : RunResult) :
  session c = true ->
  stateTensor c = Some st ->
  session_run env st (to_f32 frame) = Some results ->
  stateTensor (state_of (processFrame env frame c))
  = Some (or_keep (r_state results) st).
Proof.
intros Hse Hst Hrun. unfold processFrame. rewrite Hse, Hst, Hrun. cbv zeta.
rewrite hysteresis_keeps_state.
destruct (r_state results); [reflexivity | exact Hst].
Qed.

(** X7: a segment begins with the frame that completes the run of speech
    frames: when a frame takes the recorder from Idle to Recording, the
    segment holds that frame only (the speech frames counted before it are
    not part of the segment), the counter of speech frames is back to zero
    and nothing has been written. *)
Theorem recording_starts_with_trigger_frame (rawProb : float) (frame : list Z)
  (c : Controller) :
  isRecording c = false ->
  let c' := state_of (hysteresis env rawProb frame c) in
  isRecording c' = true ->
  segmentBuffers c' = [frame]
  /\ speechFrames c' = 0
  /\ requiredSpeechFrames (opts c) <= speechFrames c + 1
  /\ disk c' = disk c.
Proof.
intros Hidle. cbv zeta.
unfold hysteresis, smooth. cbv zeta.
set (prob := mean (push_prob rawProb (probBuffer c))).
unfold idle_step, startRecording. fields. rewrite Hidle. cbn [negb].
destruct (PrimFloat.ltb (speechThreshold (opts c)) prob); cbv zeta; fields.
- destruct (requiredSpeechFrames (opts c) <=? speechFrames c + 1) eqn:Hreq; fields.
  + rewrite ?Hidle. apply Z.leb_le in Hreq.
    unfold recording_step. fields. rewrite ?Hidle. cbv zeta. fields.
    destruct (PrimFloat.ltb prob (silenceThreshold (opts c))).
    * destruct (requiredSilenceFrames (opts c) <=? silenceFrames c + 1).
      -- match goal with
         | |- isRecording (state_of (stopRecording env ?d)) = true -> _ =>
             destruct (stopRecording_keeps env d) as (_ & _ & _ & _ & _ & _ & _ & H)
         end.
         cbv zeta in H. rewrite H. discriminate.
      -- cbn [state_of]. fields. intros _. repeat split. exact Hreq.
    * cbn [state_of]. fields. intros _. repeat split. exact Hreq.
  + unfold recording_step. fields. rewrite Hidle. cbn [state_of]. fields.
    rewrite Hidle. discriminate.
- unfold recording_step. fields. rewrite Hidle. cbn [state_of]. fields.
  rewrite Hidle. discriminate.
Qed.

(** X8: a segment ends with the frame that completes the run of silent
    frames: when a frame takes the recorder from Recording to Idle, exactly
    one write is made, of the segment in progress followed by that frame
    (the trailing silence is part of the file); the counter of silent frames
    is back to zero, and [segmentsSaved] has grown by one if the write
    succeeded and not at all if it failed. *)
Theorem silence_ends_segment_with_frame (rawProb : float) (frame : list Z)
  (c : Controller) :
  isRecording c = true ->
  let c' := state_of (hysteresis env rawProb frame c) in
  isRecording c' = false ->
  new_writes c c' = [segment_write env c [frame]]
  /\ requiredSilenceFrames (opts c) <= silenceFrames c + 1
  /\ silenceFrames c' = 0
  /\ segmentBuffers c' = []
  /\ segmentsSaved c'
     = segmentsSaved c + (if write_ok env (flushes c) then 1 else 0).
Proof.
intros Hrec. cbv zeta.
unfold hysteresis, smooth. cbv zeta.
set (prob := mean (push_prob rawProb (probBuffer c))).
unfold idle_step. fields. rewrite Hrec. cbn [negb].
unfold recording_step. fields. rewrite Hrec. cbv zeta. fields.
destruct (PrimFloat.ltb prob (silenceThreshold (opts c))).
- destruct (requiredSilenceFrames (opts c) <=? silenceFrames c + 1) eqn:Hreq.
  + apply Z.leb_le in Hreq. intros _.
    unfold stopRecording, stopRecording_begin, Bun_write, stopRecording_end.
    fields. rewrite Hrec. cbn [negb]. cbv zeta. fields.
    assert (Hev : mkWrite
                    (segment_path (opts c) (nowTag env (flushes c)) (segmentIndex c + 1))
                    (Wav.writeWav (merge (segmentBuffers c ++ [frame])) (rate (opts c)))
                    (write_ok env (flushes c))
                  = segment_write env c [frame]).
    { unfold segment_write. now rewrite merge_concat. }
    rewrite Hev.
    destruct (write_ok env (flushes c)); cbn [state_of]; fields;
      (split; [now apply new_writes_app|]); repeat split; try assumption; lia.
  + cbn [state_of]. fields. rewrite Hrec. discriminate.
- cbn [state_of]. fields. rewrite Hrec. discriminate.
Qed.

(** X9: an inference failure ends the pipeline like any other exception:
    when [session.run] fails on the first frame of a chunk, the loop leaves,
    [running] is false, the error is kept in [lastErr] (which no operation
    reports), the frame is neither consumed nor appended, the recurrent state
    is unchanged, the segment in progress, if any, is written once, and the
    chunks that follow are not read. *)
Theorem inference_failure_ends_pipeline (c : Controller) (chunk : list byte)
  (rest : list (list byte)) (st : Tensor) :
  running c = true ->
  abort c = false ->
  session c = true ->
  stateTensor c = Some st ->
  let fr := enqueue chunk (framing c) in
  (chunkSize <=? length (sampleQueue fr))%nat = true ->
  session_run env st (to_f32 (subarray (sampleQueue fr) 0 512)) = None ->
  let c' := loop env (chunk :: rest) c in
  running c' = false
  /\ lastErr c' = Some "session.run failed"%string
  /\ isRecording c' = false
  /\ new_writes c c' = (if isRecording c then [segment_write env c []] else [])
  /\ framing c' = fr
  /\ stateTensor c' = Some st.
Proof.
intros Hrun Hab Hse Hst fr Hlen Hfail. cbv zeta.
assert (Hpos : exists fuel, length (sampleQueue fr) = Datatypes.S fuel).
{ destruct (length (sampleQueue fr)); [discriminate Hlen | eauto]. }
destruct Hpos as [fuel Hfuel].
unfold loop. rewrite Hrun. cbn [negb for_await]. rewrite Hab.
unfold drain. change (enqueue chunk (framing c)) with fr.
rewrite Hfuel. cbn [while_frames]. rewrite Hlen. cbv zeta.
unfold processFrame. rewrite Hse, Hst. cbv zeta. rewrite Hfail.
set (d := set_lastErr (Some "session.run failed"%string) (set_framing fr c)).
destruct (finish_spec env d) as (Hr & Hrec & _ & Hd).
rewrite finish_state in *.
destruct (stopRecording_keeps env (set_running false d))
  as (_ & _ & Ht & _ & _ & Hf & He & _).
cbv zeta in *. subst d. fields in Ht. fields in Hf. fields in He. fields in Hd.
split; [exact Hr|]. split; [exact He|]. split; [exact Hrec|].
split.
- destruct (isRecording c).
  + now apply new_writes_app.
  + apply new_writes_app. now rewrite app_nil_r.
- split; [exact Hf|]. now rewrite Ht.
Qed.

End OneFrame.

(** The first frame of speech after [start]. *)
Lemma processFrame_threads_state_witness :
  let env := Scenario.healthy in
  let c := Scenario.started env in
  let frame := repeat 257 512 in
  let results :=
    {| r_state :=
         Some {| dims := [1; 2; 128]; data := repeat 1%float (2 * 128) |};
       r_output := Some 0.9%float |} in
  stateTensor (state_of (processFrame env frame c))
  = Some (or_keep (r_state results) zero_state).
Proof.
cbv zeta.
apply processFrame_threads_state.
- vm_compute. reflexivity.
- vm_compute. reflexivity.
- vm_compute. reflexivity.
Defined.

(** The second frame of speech after [start]. *)
Lemma recording_starts_with_trigger_frame_witness :
  let env := Scenario.healthy in
  let frame := repeat 257 512 in
  let c := state_of (hysteresis env 0.9%float frame (Scenario.started env)) in
  let c' := state_of (hysteresis env 0.9%float frame c) in
  segmentBuffers c' = [frame]
  /\ speechFrames c' = 0
  /\ requiredSpeechFrames (opts c) <= speechFrames c + 1
  /\ disk c' = disk c.
Proof.
cbv zeta.
apply recording_starts_with_trigger_frame.
- vm_compute. reflexivity.
- vm_compute. reflexivity.
Defined.

(** Inference fails on the first frame after [start]. *)
Lemma inference_failure_ends_pipeline_witness :
  let env := Faults.no_inference in
  let c := Scenario.started env in
  let fr := enqueue Scenario.speech (framing c) in
  let c' := loop env [Scenario.speech; Scenario.speech] c in
  running c' = false
  /\ lastErr c' = Some "session.run failed"%string
  /\ isRecording c' = false
  /\ new_writes c c' = (if isRecording c then [segment_write env c []] else [])
  /\ framing c' = fr
  /\ stateTensor c' = Some zero_state.
Proof.
cbv zeta.
apply inference_failure_ends_pipeline.
- vm_compute. reflexivity.
- vm_compute. reflexivity.
- vm_compute. reflexivity.
- vm_compute. reflexivity.
- vm_compute. reflexivity.
- vm_compute. reflexivity.
Defined.

(** The twenty-fourth frame of silence after three frames of speech. *)
Lemma silence_ends_segment_with_frame_witness :
  let env := Scenario.healthy in
  let frame := repeat 0 512 in
  let c := loop env (repeat Scenario.silence 23) (Scenario.recording env) in
  let c' := state_of (hysteresis env 0%float frame c) in
  new_writes c c' = [segment_write env c [frame]]
  /\ requiredSilenceFrames (opts c) <= silenceFrames c + 1
  /\ silenceFrames c' = 0
  /\ segmentBuffers c' = []
  /\ segmentsSaved c'
     = segmentsSaved c + (if write_ok env (flushes c) then 1 else 0).
Proof.
cbv zeta.
apply silence_ends_segment_with_frame.
- vm_compute. reflexivity.
- vm_compute. reflexivity.
Defined.

(** ** Every state of a controller *)

Section EveryState.
Variable env : Env.

(** X10: [status()] counts the writes that succeeded: in every state reached
    from a new controller by [start], [stop], [update], chunks from the
    microphone and the end of its output, [segmentsSaved] is the number of
    calls of [Bun.write] that succeeded since the controller was created
    (restarts included) and [lastSegmentPath] is the path of the last of
    them, or null when there is none. *)
Theorem status_counts_successful_writes (c : Controller) :
  reachable env c -> status_consistent c.
Proof. intros H. now apply (reachable_invariant H). Qed.

(** X11: whenever the controller is running and its loop waits for the next
    chunk, at most one unpaired byte and less than one frame of samples are
    held back: every whole frame received so far has been processed. *)
Theorem running_framing_settled (c : Controller) :
  reachable env c -> running c = true -> framing_settled (framing c).
Proof.
intros H Hrun. destruct (reachable_invariant H) as (_ & _ & _ & Hinv).
now apply Hinv.
Qed.

(** X12: while the controller is running the two counters of the state
    machine are never both in use: outside a segment the count of silent
    frames is zero, inside a segment the count of speech frames is zero; so
    every segment needs its own full run of silent frames to end. *)
Theorem running_counters_rest (c : Controller) :
  reachable env c -> running c = true -> counters_rest c.
Proof.
intros H Hrun. destruct (reachable_invariant H) as (_ & _ & _ & Hinv).
now apply Hinv.
Qed.

Lemma hysteresis_throws rawProb frame c e c' :
  hysteresis env rawProb frame c = Throw e c' -> e = "Bun.write failed"%string.
Proof.
unfold hysteresis, smooth. cbv zeta.
generalize (idle_step (mean (push_prob rawProb (probBuffer c)))
              (set_probBuffer (push_prob rawProb (probBuffer c)) c)).
intros c2. unfold recording_step.
destruct (isRecording c2); [|discriminate].
cbv zeta. fields.
destruct (PrimFloat.ltb _ _); [|discriminate].
destruct (_ <=? _); [|discriminate].
unfold stopRecording, stopRecording_begin, Bun_write. fields.
destruct (negb _); [discriminate|]. cbv zeta. fields.
destruct (write_ok env _); [discriminate|].
now intros [= <- _].
Qed.

(** X13: the guard of [processFrame] against a missing session is never the
    exception that ends the loop: in every state in which the controller is
    running, the session and its state tensor are set, and they stay set
    frame after frame. *)
Theorem session_guard_never_fires (c : Controller) (chunks : list (list byte))
  (e : string) (fr : Framing) (c' : Controller) :
  reachable env c ->
  running c = true ->
  for_await (processFrame env) abort chunks (framing c) c = Raised e fr c' ->
  e <> "ONNX session not initialized"%string.
Proof.
intros H Hrun Hraised.
destruct (reachable_invariant H) as (_ & _ & Hsess & Hinv).
destruct (Hinv Hrun) as (_ & _ & Hse & _).
set (P := fun s : Controller => session s = true /\ stateTensor s <> None).
assert (Hstep : forall frame s, whole frame -> P s ->
                                P (state_of (processFrame env frame s))).
{ intros frame s Hw [Hs1 Hs2]. split.
  - destruct (processFrame_accounted env s Hw)
      as (evs & _ & _ & _ & _ & _ & _ & He & _).
    congruence.
  - now apply (processFrame_steady env frame s). }
destruct (for_await_raised (processFrame env) abort P Hstep chunks (framing c) c
            (conj Hse (Hsess Hse)) Hraised)
  as (frame & s0 & _ & [Hs1 Hs2] & Hthrow).
revert Hthrow. unfold processFrame. rewrite Hs1.
destruct (stateTensor s0) as [st|]; [|congruence].
cbv zeta.
destruct (session_run env st (to_f32 frame)) as [results|].
- intros Hthrow. apply hysteresis_throws in Hthrow. subst e. discriminate.
- intros [= <- _]. discriminate.
Qed.

End EveryState.

(** ** One run: from [start] to [stop] *)

Section OneRun.
Variable env : Env.

Lemma numbered_paths c evs :
  numbered env c evs ->
  map w_path evs
  = map (fun i => segment_path (opts c) (nowTag env (flushes c + i))
                    (segmentIndex c + Z.of_nat i + 1))
        (seq 0 (length evs))
  /\ map w_ok evs = map (fun i => write_ok env (flushes c + i)) (seq 0 (length evs)).
Proof.
intros Hnum.
assert (Hgen : forall (A : Type) (g : WriteEvent -> A) (f : nat -> A),
          forall evs0, (forall i ev, nth_error evs0 i = Some ev -> g ev = f i) ->
          map g evs0 = map f (seq 0 (length evs0))).
{ intros A g f evs0. revert f.
  induction evs0 as [|ev evs0 IH]; intros f Hf; [reflexivity|].
  cbn [map length seq]. f_equal.
  - now apply (Hf 0%nat).
  - rewrite <- seq_shift, map_map. apply IH.
    intros i ev' Hi. now apply (Hf (Datatypes.S i)). }
split; apply Hgen; intros i ev Hi; now apply Hnum.
Qed.

Lemma run_accounted c chunks : accounted env c (stop env (loop env chunks c)).
Proof.
eapply accounted_trans; [apply loop_accounted | apply stop_accounted].
Qed.

(** X14: the files of a run are numbered from 1: in a run begun by a
    successful [start], fed the chunks [chunks] and ended by [stop], the
    writes carry the paths [outDir/segment_<tag>_<k>.wav] for k = 1, 2, ...
    in order, with the [outDir] of the options at [start] and the tag read
    when the segment is flushed; [segmentsSaved] grows by the number of the
    writes that succeeded, so that it carries over from one run to the
    next while the numbering of the files restarts. *)
Theorem run_numbers_segments (c0 c : Controller) (chunks : list (list byte)) :
  start env c0 = Ok c ->
  let c' := stop env (loop env chunks c) in
  let evs := new_writes c c' in
  map w_path evs
  = map (fun i => segment_path (opts c0) (nowTag env (flushes c0 + i))
                    (Z.of_nat i + 1))
        (seq 0 (length evs))
  /\ map w_ok evs = map (fun i => write_ok env (flushes c0 + i)) (seq 0 (length evs))
  /\ status_segmentsSaved (status c')
     = segmentsSaved c0 + Z.of_nat (length (filter w_ok evs)).
Proof.
intros Hstart. cbv zeta.
destruct (start_keeps env c0) as (Ho & Hs & _ & _ & Hf). cbv zeta in *.
rewrite Hstart in *. cbn [state_of] in *.
destruct (start_fresh env c0 Hstart) as (_ & _ & _ & _ & _ & _ & _ & _ & _ & Hi & _).
destruct (run_accounted c chunks)
  as (evs & Hd & _ & _ & Hsaved & _ & _ & _ & Hnum & _).
erewrite new_writes_app by exact Hd.
apply numbered_paths in Hnum as [Hp Hk].
rewrite Ho, Hf, Hi in Hp. rewrite Hf in Hk. cbn [Z.add] in Hp.
split; [exact Hp|]. split; [exact Hk|].
cbn [status status_segmentsSaved]. now rewrite Hsaved, Hs.
Qed.

Lemma length_whole_segment sampleRate ev :
  whole_segment sampleRate ev ->
  exists k, (0 < k)%nat /\ length (w_data ev) = (44 + 1024 * k)%nat.
Proof.
intros (frames & Hne & Hall & Hdata).
exists (length frames). split.
- destruct frames; [congruence | cbn; lia].
- rewrite Hdata, length_writeWav, length_concat_whole by assumption.
  unfold chunkSize. lia.
Qed.

(** X15: no file of a run is empty or cut inside a frame: every write made
    between a successful [start] and [stop] holds the WAV encoding, at the
    sample rate of the options at [start], of one or more whole frames of
    512 samples, so its size is 44 + 1024 k bytes for some k >= 1. *)
Theorem run_writes_whole_segments (c0 c : Controller) (chunks : list (list byte)) :
  start env c0 = Ok c ->
  Forall (fun ev =>
            whole_segment (rate (opts c0)) ev
            /\ exists k, (0 < k)%nat /\ length (w_data ev) = (44 + 1024 * k)%nat)
         (new_writes c (stop env (loop env chunks c))).
Proof.
intros Hstart.
destruct (start_keeps env c0) as (Ho & _). cbv zeta in *.
rewrite Hstart in *. cbn [state_of] in *.
destruct (start_fresh env c0 Hstart)
  as (_ & _ & _ & _ & _ & Hrec & Hbufs & _).
destruct (run_accounted c chunks)
  as (evs & Hd & _ & _ & _ & _ & _ & _ & _ & Hb).
erewrite new_writes_app by exact Hd.
destruct Hb as [_ Hall].
{ split; [rewrite Hbufs; constructor | rewrite Hrec; discriminate]. }
rewrite Ho in Hall.
eapply Forall_impl; [|exact Hall].
intros ev Hev. split; [exact Hev | now apply length_whole_segment with (sampleRate := rate (opts c0))].
Qed.

End OneRun.

(** A run of two frames of speech, stopped in the segment. *)
Lemma status_counts_successful_writes_witness :
  status_consistent
    (stop Scenario.healthy
       (loop Scenario.healthy [Scenario.speech ++ Scenario.speech]
          (state_of (start Scenario.healthy (createVADController None))))).
Proof.
apply (@status_counts_successful_writes Scenario.healthy).
apply reach_stop, reach_chunks, reach_start, reach_new.
Defined.

(** A chunk of 1023 bytes: 511 samples and one byte are held back. *)
Lemma running_framing_settled_witness :
  framing_settled
    (framing (loop Scenario.healthy [firstn 1023 Scenario.speech]
                (state_of (start Scenario.healthy (createVADController None))))).
Proof.
apply (@running_framing_settled Scenario.healthy).
- apply reach_chunks, reach_start, reach_new.
- vm_compute. reflexivity.
Defined.

(** In the segment begun by three frames of speech. *)
Lemma running_counters_rest_witness :
  counters_rest
    (loop Scenario.healthy [Scenario.speech ++ Scenario.speech ++ Scenario.speech]
       (state_of (start Scenario.healthy (createVADController None)))).
Proof.
apply (@running_counters_rest Scenario.healthy).
- apply reach_chunks, reach_start, reach_new.
- vm_compute. reflexivity.
Defined.

(** The loop ended by a failed inference. *)
Lemma session_guard_never_fires_witness :
  "session.run failed"%string <> "ONNX session not initialized"%string.
Proof.
apply (@session_guard_never_fires Faults.no_inference
         (state_of (start Faults.no_inference (createVADController None)))
         [Scenario.speech] "session.run failed"
         (enqueue Scenario.speech Framer.initial)
         (state_of (start Faults.no_inference (createVADController None)))).
- apply reach_start, reach_new.
- vm_compute. reflexivity.
- vm_compute. reflexivity.
Defined.

(** Three frames of speech, then [stop]: one file, numbered 1. *)
Lemma run_numbers_segments_witness :
  let env := Scenario.healthy in
  let c0 := createVADController None in
  let c := Scenario.started env in
  let c' := stop env (loop env [Scenario.speech ++ Scenario.speech ++ Scenario.speech] c) in
  let evs := new_writes c c' in
  map w_path evs
  = map (fun i => segment_path (opts c0) (nowTag env (flushes c0 + i))
                    (Z.of_nat i + 1))
        (seq 0 (length evs))
  /\ map w_ok evs = map (fun i => write_ok env (flushes c0 + i)) (seq 0 (length evs))
  /\ status_segmentsSaved (status c')
     = segmentsSaved c0 + Z.of_nat (length (filter w_ok evs)).
Proof.
cbv zeta.
apply run_numbers_segments.
vm_compute. reflexivity.
Defined.

Lemma run_writes_whole_segments_witness :
  let env := Scenario.healthy in
  let c0 := createVADController None in
  let c := Scenario.started env in
  Forall (fun ev =>
            whole_segment (rate (opts c0)) ev
            /\ exists k, (0 < k)%nat /\ length (w_data ev) = (44 + 1024 * k)%nat)
         (new_writes c
            (stop env (loop env [Scenario.speech ++ Scenario.speech ++ Scenario.speech] c))).
Proof.
cbv zeta.
apply run_writes_whole_segments.
vm_compute. reflexivity.
Defined.

(** ** Samples and bytes *)

Section SamplesAndBytes.
Import Framer.

Lemma to_int16_range z : is_int16 (to_int16 z).
Proof.
unfold is_int16, to_int16.
change (2 ^ 15) with 32768. change (2 ^ 16) with 65536.
pose proof (Z.mod_pos_bound (z + 32768) 65536). lia.
Qed.

Lemma le_split_to_int16 z : le_split 2 (to_int16 z) = le_split 2 z.
Proof.
rewrite (le_split_mod (to_int16 z)), (le_split_mod z).
f_equal. unfold to_int16.
change (2 ^ (Z.of_nat 2 * 8)) with 65536.
change (2 ^ 15) with 32768. change (2 ^ 16) with 65536.
Z.div_mod_to_equations. lia.
Qed.

Lemma half_succ_succ n : (Datatypes.S (Datatypes.S n) / 2 = Datatypes.S (n / 2))%nat.
Proof.
change (Datatypes.S (Datatypes.S n)) with (2 + n)%nat.
replace (2 + n)%nat with (1 * 2 + n)%nat by lia.
now rewrite Nat.div_add_l.
Qed.

Lemma samples_le_halves n : forall bs,
  (length bs <= n)%nat ->
  length (samples_le bs) = (length bs / 2)%nat
  /\ Forall is_int16 (samples_le bs)
  /\ int16_bytes (samples_le bs) = firstn (2 * (length bs / 2)) bs.
Proof.
induction n as [|n IH]; intros bs Hlen.
- destruct bs; [|cbn in Hlen; lia]. repeat split. constructor.
- destruct bs as [|x [|y r]].
  + repeat split. constructor.
  + repeat split. constructor.
  + cbn [length] in Hlen.
    destruct (IH r) as (Hl & Hr & Hb).
    { destruct n; [lia|]. assert (length r <= n)%nat by lia. lia. }
    cbn [samples_le length]. rewrite half_succ_succ.
    split; [now rewrite Hl|].
    split; [constructor; [apply to_int16_range | exact Hr]|].
    unfold int16_bytes in *. cbn [flat_map].
    rewrite Hb, le_split_to_int16.
    change 2%nat with (length [x; y]) at 1. rewrite split_le_combine.
    replace (2 * Datatypes.S (length r / 2))%nat
      with (Datatypes.S (Datatypes.S (2 * (length r / 2)))) by lia.
    reflexivity.
Qed.

(** X16: [bytesToInt16Array] pairs the bytes, low byte first: it yields half
    as many samples as there are bytes, rounded down, each a signed 16-bit
    value, and their bytes are the input without its last byte when the
    length is odd; nothing else is lost or reordered. *)
Theorem bytesToInt16Array_halves (bytes : list byte) :
  length (bytesToInt16Array bytes) = (length bytes / 2)%nat
  /\ Forall is_int16 (bytesToInt16Array bytes)
  /\ int16_bytes (bytesToInt16Array bytes)
     = firstn (2 * (length bytes / 2)) bytes.
Proof.
rewrite bytesToInt16Array_samples_le.
now apply samples_le_halves with (n := length bytes).
Qed.

End SamplesAndBytes.

(** ** The remaining fields of the WAV header *)

Ltac header_bytes :=
  unfold Wav.header, Wav.bytes_at; rewrite !le_split_4, !le_split_2;
  repeat match goal with
         | |- context [byte.of_Z ?z] => generalize (byte.of_Z z); intro
         end;
  reflexivity.

Section WavFields.
Import Wav.

(** X17: the size and format fields of the header written by [writeWav]:
    the RIFF chunk size is 36 plus the data size, the fmt chunk has 16
    bytes, there is one channel, the sample rate is the argument, the byte
    rate is twice the sample rate and a block is two bytes; the 32-bit
    fields hold their values modulo 2^32. *)
Theorem writeWav_format_fields (int16 : list Z) (sampleRate : Z) :
  let out := writeWav int16 sampleRate in
  read_uint out 4 7 = (36 + 2 * Z.of_nat (length int16)) mod 2 ^ 32
  /\ read_uint out 16 19 = 16
  /\ read_uint out 22 23 = 1
  /\ read_uint out 24 27 = sampleRate mod 2 ^ 32
  /\ read_uint out 28 31 = (2 * sampleRate) mod 2 ^ 32
  /\ read_uint out 32 33 = 2.
Proof.
cbv zeta. unfold read_uint.
rewrite !bytes_at_header by lia.
generalize (2 * Z.of_nat (length int16)). intros n.
assert (H4 : bytes_at (header n sampleRate) 4 7 = le_split 4 (36 + n))
  by header_bytes.
assert (H16 : bytes_at (header n sampleRate) 16 19 = le_split 4 16)
  by header_bytes.
assert (H22 : bytes_at (header n sampleRate) 22 23 = le_split 2 1)
  by header_bytes.
assert (H24 : bytes_at (header n sampleRate) 24 27 = le_split 4 sampleRate)
  by header_bytes.
assert (H28 : bytes_at (header n sampleRate) 28 31
              = le_split 4 (sampleRate * 1 * 2))
  by header_bytes.
assert (H32 : bytes_at (header n sampleRate) 32 33 = le_split 2 2)
  by header_bytes.
rewrite H4, H16, H22, H24, H28, H32, !le_combine_split.
change (2 ^ (Z.of_nat 4 * 8)) with (2 ^ 32).
replace (sampleRate * 1 * 2) with (2 * sampleRate) by lia.
repeat split; reflexivity.
Qed.

End WavFields.

(** ** The smoothing window *)

Section Smoothing.








End Smoothing.

(** ** Normalisation of the samples *)

Section Normalisation.

Lemma normalised_int16 z : is_int16 z -> normalised z = true.
Proof.
intros Hz. unfold is_int16 in Hz.
change (2 ^ 15) with 32768 in Hz.
apply (@all_from_spec normalised (Z.to_nat 65536) (-32768));
  [vm_compute; reflexivity | lia].
Qed.

(** X19: the samples given to the model are normalised exactly: for a frame
    of signed 16-bit samples, [f32] has one entry per sample, each in
    [-1, 1), negative exactly when the sample is, and equal to the sample
    divided by 32768 with no rounding (multiplying by 32768 gives the sample
    back). *)
Theorem to_f32_normalises (frame : list Z) :
  Forall is_int16 frame ->
  Forall2 (fun z x =>
             PrimFloat.leb (-1)%float x = true
             /\ PrimFloat.ltb x 1%float = true
             /\ PrimFloat.eqb (PrimFloat.mul x 32768%float) (float_of_Z z) = true
             /\ PrimFloat.ltb x 0%float = (z <? 0))
          frame (to_f32 frame).
Proof.
induction 1 as [|z frame Hz _ IH]; cbn [to_f32 map]; constructor; [|exact IH].
pose proof (normalised_int16 Hz) as Hn. unfold normalised in Hn. cbv zeta in Hn.
rewrite !andb_true_iff in Hn. destruct Hn as [[[H1 H2] H3] H4].
apply Bool.eqb_prop in H4. auto.
Qed.

End Normalisation.

(** The extreme samples, zero and a small one. *)
Lemma to_f32_normalises_witness :
  let frame := [-32768; 0; 257; 32767] in
  Forall2 (fun z x =>
             PrimFloat.leb (-1)%float x = true
             /\ PrimFloat.ltb x 1%float = true
             /\ PrimFloat.eqb (PrimFloat.mul x 32768%float) (float_of_Z z) = true
             /\ PrimFloat.ltb x 0%float = (z <? 0))
          frame (to_f32 frame).
Proof.
cbv zeta.
apply to_f32_normalises.
repeat constructor; unfold is_int16; cbn; lia.
Defined.

(** ** The HTTP routes *)

Section Routes.
Import Server.
Variable env : Env.

(** X20: [POST /api/v1/vad/start] is not atomic: when the body carries
    options and the controller is not running, the options are updated
    first, and if [start] then throws (missing model, recorder not spawned)
    the reply is a 400 with the error while the new options stay in force
    for the next [start]. *)
Theorem post_start_keeps_options_on_failure (p : PartialVADOptions)
  (c c1 : Controller) (e : string) :
  running c = false ->
  (0 <? keys p)%nat = true ->
  start env (set_opts (assign (opts c) p) c) = Throw e c1 ->
  snd (post_start env (inr p) c) = sendJSON (ErrorJSON e) 400
  /\ opts (fst (post_start env (inr p) c)) = assign (opts c) p
  /\ running (fst (post_start env (inr p) c)) = false.
Proof.
intros Hrun Hkeys Hstart.
unfold post_start. cbv zeta. rewrite Hkeys.
unfold update. rewrite Hrun, Hstart. cbn [fst snd].
destruct (start_failure_keeps_status env _ Hstart) as (Hs & Ho & _).
split; [reflexivity|]. split; [exact Ho|].
apply (f_equal status_running) in Hs. cbn [status status_running] in Hs.
fields in Hs. congruence.
Qed.

(** X21: [POST /api/v1/vad/start] while running answers 400 and changes
    nothing; the error names the update when the body has keys ("Cannot
    update options while running") and the start otherwise ("VAD already
    running"), a body that cannot be read counting as an empty one. *)
Theorem post_start_while_running (b : string + PartialVADOptions)
  (c : Controller) :
  running c = true ->
  let body := match b with inl _ => no_change | inr p => p end in
  post_start env b c
  = (c, sendJSON
          (ErrorJSON (if (0 <? keys body)%nat
                      then "Cannot update options while running"%string
                      else "VAD already running"%string)) 400).
Proof.
intros Hrun. cbv zeta. unfold post_start. cbv zeta.
destruct (0 <? keys _)%nat.
- unfold update. now rewrite Hrun.
- unfold start. now rewrite Hrun.
Qed.

(** X22: [POST /api/v1/vad/stop] always answers 200 with [ok] and a status
    whose [running] is false, whatever the state, and repeating the request
    gives the same reply and changes nothing more. *)
Theorem post_stop_always_ok (c : Controller) :
  let c' := fst (post_stop env c) in
  let reply := snd (post_stop env c) in
  statusCode reply = 200
  /\ payload reply = OkJSON (Some (status c'))
  /\ status_running (status c') = false
  /\ post_stop env c' = (c', reply).
Proof.
cbv zeta. unfold post_stop. cbv zeta. cbn [fst snd sendJSON statusCode payload].
split; [reflexivity|]. split; [reflexivity|].
split; [apply stop_not_running|].
assert (H : stop env (stop env c) = stop env c).
{ unfold stop at 1. now rewrite stop_not_running. }
now rewrite H.
Qed.

(** X23: [PATCH /api/v1/vad/options] is all or nothing: either it answers
    200, the body was read, the controller was not running and exactly the
    options were updated with the keys of the body, or it answers 400 and
    the controller is unchanged. *)
Theorem patch_options_all_or_nothing (b : string + PartialVADOptions)
  (c : Controller) :
  let c' := fst (patch_options b c) in
  let reply := snd (patch_options b c) in
  (statusCode reply = 200
   /\ running c = false
   /\ exists p, b = inr p /\ c' = set_opts (assign (opts c) p) c)
  \/ (statusCode reply = 400 /\ c' = c).
Proof.
cbv zeta. unfold patch_options.
destruct b as [e | p]; [right; split; reflexivity|].
unfold update. destruct (running c); cbn [fst snd sendJSON statusCode].
- right. split; reflexivity.
- left. split; [reflexivity|]. split; [reflexivity|]. now exists p.
Qed.

Lemma handle_cases (req : Request) (c : Controller) :
  handle env req c = get_status c
  \/ handle env req c = post_start env (body req) c
  \/ handle env req c = post_stop env c
  \/ handle env req c = get_options c
  \/ handle env req c = patch_options (body req) c
  \/ handle env req c = (c, {| statusCode := 404; payload := Text "Not Found" |}).
Proof.
unfold handle.
repeat match goal with
       | |- context [if ?b then _ else _] => destruct b
       end; auto 10.
Qed.

Lemma handle_reachable (req : Request) (c : Controller) :
  reachable env c -> reachable env (fst (handle env req c)).
Proof.
intros Hc.
destruct (handle_cases req c) as [H | [H | [H | [H | [H | H]]]]]; rewrite H.
- exact Hc.
- unfold post_start. cbv zeta.
  assert (Hup : forall p, reachable env (state_of (update p c)))
    by (intros p; now apply reach_update).
  destruct (0 <? keys _)%nat.
  + specialize (Hup (match body req with inl _ => no_change | inr p => p end)).
    destruct (update _ c) as [c1 | e c1]; cbn [state_of fst] in *; [|exact Hup].
    pose proof (reach_start Hup) as Hst.
    destruct (start env c1); exact Hst.
  + pose proof (reach_start Hc) as Hst.
    destruct (start env c); exact Hst.
- now apply reach_stop.
- exact Hc.
- unfold patch_options. destruct (body req) as [e | p]; [exact Hc|].
  pose proof (reach_update p Hc) as Hup.
  destruct (update p c); exact Hup.
- exact Hc.
Qed.

(** X24: every status the server sends is true of the disk: for a
    controller in a state it can reach, whatever the request, the status in
    the reply (of [GET status], or inside the [ok] of [POST start] and [POST
    stop]) has [segmentsSaved] equal to the number of successful writes so
    far and [lastSegmentPath] the path of the last one. *)
Theorem served_status_counts_files (req : Request) (c : Controller) (s : VADStatus) :
  reachable env c ->
  payload (snd (handle env req c)) = StatusJSON s
  \/ payload (snd (handle env req c)) = OkJSON (Some s) ->
  let c' := fst (handle env req c) in
  s = status c' /\ status_consistent c'.
Proof.
intros Hc Hs. cbv zeta.
split; [|exact (proj1 (reachable_invariant (handle_reachable req Hc)))].
revert Hs.
destruct (handle_cases req c) as [H | [H | [H | [H | [H | H]]]]]; rewrite H.
- cbn. intros [[= <-] | [=]]. reflexivity.
- unfold post_start. cbv zeta.
  destruct (if (0 <? keys _)%nat then _ else _) as [c1 | e c1]; cbn [fst snd].
  + destruct (start env c1) as [c2 | e c2]; cbn; intros [[=] | [= <-]] || intros [[=] | [=]].
    reflexivity.
  + cbn. intros [[=] | [=]].
- cbn. intros [[=] | [= <-]]. reflexivity.
- cbn. intros [[=] | [=]].
- unfold patch_options. destruct (body req) as [e | p]; cbn.
  + intros [[=] | [=]].
  + destruct (update p c); cbn; intros [[=] | [=]].
- cbn. intros [[=] | [=]].
Qed.

(** X25: [GET /api/v1/vad/options] never shows the options in force: in the
    replies to any sequence of requests, every options object sent is the
    defaults, also after a [PATCH] or a [POST start] that changed the
    options the controller uses. *)
Theorem options_route_reports_defaults (reqs : list Request) (c : Controller) :
  Forall (fun reply =>
            forall o, payload reply = OptionsJSON o -> o = defaultVADOptions)
         (snd (serve env reqs c)).
Proof.
revert c. induction reqs as [|req rest IH]; intros c; cbn [serve].
- constructor.
- destruct (handle env req c) as [c1 r] eqn:Hh.
  specialize (IH c1). destruct (serve env rest c1) as [c2 rs]. cbn [snd] in *.
  constructor; [|exact IH].
  intros o Ho.
  assert (Hr : r = snd (handle env req c)) by now rewrite Hh.
  subst r. clear Hh. revert Ho.
  destruct (handle_cases req c) as [H | [H | [H | [H | [H | H]]]]]; rewrite H.
  + cbn. discriminate.
  + unfold post_start. cbv zeta.
    destruct (if (0 <? keys _)%nat then _ else _) as [c3 | e c3]; cbn [snd].
    * destruct (start env c3); cbn; discriminate.
    * cbn. discriminate.
  + cbn. discriminate.
  + cbn. now intros [= <-].
  + unfold patch_options. destruct (body req) as [e | p]; cbn; [discriminate|].
    destruct (update p c); cbn; discriminate.
  + cbn. discriminate.
Qed.

(** X26: the server writes no file while the detector is stopped: a request
    handled when the controller is not running leaves the disk as it is
    (files are written by the loop, and by [POST stop] only when it ends a
    run). *)
Theorem stopped_server_writes_nothing (req : Request) (c : Controller) :
  running c = false ->
  disk (fst (handle env req c)) = disk c.
Proof.
intros Hrun.
destruct (handle_cases req c) as [H | [H | [H | [H | [H | H]]]]]; rewrite H.
- reflexivity.
- unfold post_start. cbv zeta.
  destruct (0 <? keys _)%nat.
  + unfold update. rewrite Hrun.
    match goal with
    | |- context [start env ?d] =>
        destruct (start_keeps env d) as (_ & _ & _ & Hd & _);
        destruct (start env d)
    end; exact Hd.
  + destruct (start_keeps env c) as (_ & _ & _ & Hd & _).
    destruct (start env c); exact Hd.
- unfold post_stop, stop. cbv zeta. now rewrite Hrun.
- reflexivity.
- unfold patch_options. destruct (body req) as [e | p]; [reflexivity|].
  unfold update. now rewrite Hrun.
- reflexivity.
Qed.

End Routes.

(** The body names a model that is missing. *)
Lemma post_start_keeps_options_on_failure_witness :
  let env := Faults.no_model in
  let p := Faults.other_model in
  let c := createVADController None in
  snd (Server.post_start env (inr p) c)
  = Server.sendJSON (Server.ErrorJSON "ONNX model not found at missing.onnx") 400
  /\ opts (fst (Server.post_start env (inr p) c)) = assign (opts c) p
  /\ running (fst (Server.post_start env (inr p) c)) = false.
Proof.
cbv zeta.
apply (@post_start_keeps_options_on_failure Faults.no_model Faults.other_model
         (createVADController None)
         (set_opts (assign (opts (createVADController None)) Faults.other_model)
            (createVADController None))).
- vm_compute. reflexivity.
- vm_compute. reflexivity.
- vm_compute. reflexivity.
Defined.

(** A second [POST start], with options in its body. *)
Lemma post_start_while_running_witness :
  Server.post_start Scenario.healthy (inr Faults.other_model)
    (Scenario.started Scenario.healthy)
  = (Scenario.started Scenario.healthy,
     Server.sendJSON (Server.ErrorJSON "Cannot update options while running") 400).
Proof.
apply (@post_start_while_running Scenario.healthy (inr Faults.other_model)
         (Scenario.started Scenario.healthy)).
vm_compute. reflexivity.
Defined.

(** [GET status] on a new controller. *)
Lemma served_status_counts_files_witness :
  let req := Server.mkRequest "GET" "/api/v1/vad/status" (inr no_change) in
  let c := createVADController None in
  let c' := fst (Server.handle Scenario.healthy req c) in
  status c = status c' /\ status_consistent c'.
Proof.
cbv zeta.
apply (@served_status_counts_files Scenario.healthy).
- apply reach_new.
- left. vm_compute. reflexivity.
Defined.

(** [PATCH options] on a new controller. *)
Lemma stopped_server_writes_nothing_witness :
  let req := Server.mkRequest "PATCH" "/api/v1/vad/options"
               (inr Faults.other_model) in
  let c := createVADController None in
  disk (fst (Server.handle Scenario.healthy req c)) = disk c.
Proof.
cbv zeta.
apply stopped_server_writes_nothing.
vm_compute. reflexivity.
Defined.

(** ** Time stamps and paths *)

Section Paths.

Lemma length_append (s t : string) :
  String.length (s ++ t) = (String.length s + String.length t)%nat.
Proof. induction s as [|a s IH]; cbn; [reflexivity | now rewrite IH]. Qed.

Lemma append_same_length : forall (a b x y : string),
  String.length a = String.length b ->
  (a ++ x)%string = (b ++ y)%string -> a = b /\ x = y.
Proof.
induction a as [|ch a IH]; destruct b as [|ch' b]; cbn; try discriminate.
- auto.
- intros x y [= Hlen] [= -> H]. destruct (IH b x y Hlen H) as [-> ->]. auto.
Qed.

Lemma append_inj_r (x y s : string) :
  (x ++ s)%string = (y ++ s)%string -> x = y.
Proof.
intros H. apply (@append_same_length x y s s); [|exact H].
apply (f_equal String.length) in H. rewrite !length_append in H. lia.
Qed.

Lemma string_of_Z_inj a b : string_of_Z a = string_of_Z b -> a = b.
Proof.
unfold string_of_Z. intros H. apply DecimalZ.to_int_inj.
assert (Hnil : forall z, Z.to_int z <> Decimal.Pos Decimal.Nil
                         /\ Z.to_int z <> Decimal.Neg Decimal.Nil).
{ intros [|p|p]; cbn; split; try discriminate;
    intros [= Hp]; now apply DecimalPos.Unsigned.to_uint_nonnil in Hp. }
apply (f_equal NilZero.int_of_string) in H.
rewrite !NilZero.isi in H by apply Hnil.
now injection H.
Qed.

(** Two paths with tags of the same length differ unless their numbers
    agree. *)
Lemma segment_path_inj o t1 t2 a b :
  String.length t1 = String.length t2 ->
  segment_path o t1 a = segment_path o t2 b -> t1 = t2 /\ a = b.
Proof.
intros Hlen H. unfold segment_path in H.
apply (@append_same_length (outDir o) (outDir o)) in H; [|reflexivity].
destruct H as [_ H]. cbn [append] in H. injection H as H.
apply append_same_length in H; [|exact Hlen].
destruct H as [-> H]. cbn [append] in H. injection H as H.
apply append_inj_r in H. apply string_of_Z_inj in H. auto.
Qed.

Lemma length_pad n : 0 <= n <= 99 -> String.length (pad n) = 2%nat.
Proof.
intros Hn. apply Nat.eqb_eq.
apply (@all_from_spec (fun n => (String.length (pad n) =? 2)%nat) 100 0);
  [vm_compute; reflexivity | lia].
Qed.

Lemma length_year n : 1000 <= n <= 9999 -> String.length (string_of_Z n) = 4%nat.
Proof.
intros Hn. apply Nat.eqb_eq.
apply (@all_from_spec (fun n => (String.length (string_of_Z n) =? 4)%nat)
         (Z.to_nat 9000) 1000);
  [vm_compute; reflexivity | lia].
Qed.

(** The characters of a tag. *)
Lemma nowTag_at_shape (d : Date) :
  calendar d ->
  exists y1 y2 y3 y4 m1 m2 d1 d2 h1 h2 i1 i2 s1 s2,
    nowTag_at d
    = String y1 (String y2 (String y3 (String y4 (String "-"
       (String m1 (String m2 (String "-" (String d1 (String d2 (String "_"
       (String h1 (String h2 (String "-" (String i1 (String i2 (String "-"
       (String s1 (String s2 EmptyString))))))))))))))))))
    /\ pad (getMonth d + 1) = String m1 (String m2 EmptyString).
Proof.
intros (Hy & Hmo & Hd & Hh & Hmi & Hs).
unfold nowTag_at.
pose proof (length_year Hy) as Ly.
pose proof (@length_pad (getMonth d + 1) ltac:(lia)) as Lmo.
pose proof (@length_pad (getDate d) ltac:(lia)) as Ld.
pose proof (@length_pad (getHours d) ltac:(lia)) as Lh.
pose proof (@length_pad (getMinutes d) ltac:(lia)) as Lmi.
pose proof (@length_pad (getSeconds d) ltac:(lia)) as Ls.
revert Ly Lmo Ld Lh Lmi Ls.
generalize (string_of_Z (getFullYear d)) (pad (getMonth d + 1)) (pad (getDate d))
           (pad (getHours d)) (pad (getMinutes d)) (pad (getSeconds d)).
intros y mo da h mi s Ly Lmo Ld Lh Lmi Ls.
destruct y as [|y1 [|y2 [|y3 [|y4 [|]]]]]; try discriminate Ly.
destruct mo as [|m1 [|m2 [|]]]; try discriminate Lmo.
destruct da as [|d1 [|d2 [|]]]; try discriminate Ld.
destruct h as [|h1 [|h2 [|]]]; try discriminate Lh.
destruct mi as [|i1 [|i2 [|]]]; try discriminate Lmi.
destruct s as [|s1 [|s2 [|]]]; try discriminate Ls.
exists y1, y2, y3, y4, m1, m2, d1, d2, h1, h2, i1, i2, s1, s2.
split; reflexivity.
Qed.

Lemma length_nowTag_at (d : Date) :
  calendar d -> String.length (nowTag_at d) = 19%nat.
Proof.
intros Hd.
destruct (nowTag_at_shape Hd)
  as (y1 & y2 & y3 & y4 & m1 & m2 & d1 & d2 & h1 & h2 & i1 & i2 & s1 & s2 & -> & _).
reflexivity.
Qed.

(** X27: the tag of [nowTag] has the fixed form YYYY-MM-DD_HH-MM-SS: for a
    date with a year of four digits it is 19 characters long, with the
    separators at their places, the month printed from 1 and every field
    after the year padded to two digits. *)
Theorem nowTag_format (d : Date) :
  calendar d ->
  String.length (nowTag_at d) = 19%nat
  /\ String.get 4 (nowTag_at d) = Some "-"%char
  /\ String.get 7 (nowTag_at d) = Some "-"%char
  /\ String.get 10 (nowTag_at d) = Some "_"%char
  /\ String.get 13 (nowTag_at d) = Some "-"%char
  /\ String.get 16 (nowTag_at d) = Some "-"%char
  /\ String.substring 5 2 (nowTag_at d) = pad (getMonth d + 1).
Proof.
intros Hd.
destruct (nowTag_at_shape Hd)
  as (y1 & y2 & y3 & y4 & m1 & m2 & d1 & d2 & h1 & h2 & i1 & i2 & s1 & s2 & -> & ->).
repeat split.
Qed.

Variable env : Env.

(** X28: within a run no segment overwrites another: when the tags are
    those of [nowTag] (years of four digits), the writes made by the loop
    and by the [stop] that ends it go to pairwise distinct paths, because
    the number that ends the file name grows with each of them. *)
Theorem run_paths_distinct (clock : nat -> Date) (c : Controller)
  (chunks : list (list byte)) :
  clocked env clock ->
  NoDup (map w_path (new_writes c (stop env (loop env chunks c)))).
Proof.
intros Hclock.
destruct (run_accounted env c chunks)
  as (evs & Hd & _ & _ & _ & _ & _ & _ & Hnum & _).
erewrite new_writes_app by exact Hd.
apply NoDup_nth_error. intros i j Hi Heq.
rewrite length_map in Hi. rewrite !nth_error_map in Heq.
destruct (nth_error evs i) as [ev1|] eqn:H1;
  [|apply nth_error_None in H1; lia].
destruct (nth_error evs j) as [ev2|] eqn:H2; [|discriminate Heq].
cbn in Heq. injection Heq as Heq.
destruct (Hnum i ev1 H1) as [Hp1 _]. destruct (Hnum j ev2 H2) as [Hp2 _].
rewrite Hp1, Hp2 in Heq.
apply segment_path_inj in Heq; [lia|].
destruct (Hclock (flushes c + i)%nat) as [-> Hc1].
destruct (Hclock (flushes c + j)%nat) as [-> Hc2].
now rewrite (length_nowTag_at Hc1), (length_nowTag_at Hc2).
Qed.

End Paths.

(** Midnight on the first of January 2025. *)
Lemma nowTag_format_witness :
  let d := mkDate 2025 0 1 0 0 0 in
  String.length (nowTag_at d) = 19%nat
  /\ String.get 4 (nowTag_at d) = Some "-"%char
  /\ String.get 7 (nowTag_at d) = Some "-"%char
  /\ String.get 10 (nowTag_at d) = Some "_"%char
  /\ String.get 13 (nowTag_at d) = Some "-"%char
  /\ String.get 16 (nowTag_at d) = Some "-"%char
  /\ String.substring 5 2 (nowTag_at d) = pad (getMonth d + 1).
Proof.
cbv zeta.
apply nowTag_format.
unfold calendar. cbn. lia.
Defined.

(** Two segments within the same second. *)
Lemma run_paths_distinct_witness :
  let env := Scenario.healthy in
  let chunks :=
    repeat Scenario.speech 3 ++ repeat Scenario.silence 30
    ++ repeat Scenario.speech 3 ++ repeat Scenario.silence 30 in
  NoDup (map w_path
           (new_writes (Scenario.started env)
              (stop env (loop env chunks (Scenario.started env))))).
Proof.
cbv zeta.
apply (@run_paths_distinct Scenario.healthy (fun _ => mkDate 2025 0 1 0 0 0)).
intros n. split.
- vm_compute. reflexivity.
- unfold calendar. cbn. lia.
Defined.
